(** * bits-x-pages: the LSM experiment harness, embedded and verified

    Two programs are embedded here, function by function:

    - [experiments/rocksdb-merge-bench/merge_bench.cc]: the workload
      catalogue, the counter codec and the counting merge operator (module
      [MergeBench]); the command line, the prepopulation, one worker, one
      benchmark and the driver (module [MergeBenchRun]);
    - [experiments/lsm-space-amp/space_amp.cc]: the key and value
      generators, the bulk loader, the read prober and the driver loop of
      [main] (module [SpaceAmp]); the command line and the scaling of sizes
      in the report (module [SpaceAmpCli]).

    The threads of [RunPhase] in merge_bench.cc are not embedded: a worker
    is embedded on its own, and a benchmark is stated over whatever
    [RunPhase] does.  The layout of the report tables is not embedded
    either.

    Conventions.  A [uint64_t] is a [Z] with its wrap-around ([wrap64])
    written where the C++ arithmetic can overflow; an [int] is a [Z]; a
    [char] is a [byte]; [std::array<char, n>], [rocksdb::Slice] and binary
    [std::string]s are [list byte]; human-readable text is a [string].  A
    [double] is modelled by the rational number it approximates ([Q]):
    rounding and overflow of binary64 are not modelled.  The object
    representation of a [uint64_t] is little-endian (x86-64, AArch64).  A
    C++ exception is the [Threw] outcome carrying [what()].

    The loops over [uint64_t] counters recurse on the number of iterations
    left, a [nat]; [kEntryCount] is never converted to a numeral of [nat]:
    the statements about the full dataset are instances of lemmas over an
    arbitrary entry count. *)

From Stdlib Require Import ZArith List String Lia QArith.
From stdpp Require Import base list.
From coqutil Require Import Byte Word.LittleEndianList.
Import ListNotations.

Local Open Scope Z_scope.

(** ** C++ scalars and exceptions *)

Definition wrap64 (x : Z) : Z := x mod 2 ^ 64.

Inductive outcome (A : Type) : Type :=
| Returned (a : A)
| Threw (what : string).
Arguments Returned {A} a.
Arguments Threw {A} what.

(** [memcpy(dst, src, n)] on object representations: the first [n] bytes of
    [dst] are replaced by the first [n] bytes of [src]. *)
Definition memcpy (dst src : list byte) (n : nat) : list byte :=
  firstn n src ++ skipn n dst.

Definition sizeof_uint64_t : nat := 8.

(** ** merge_bench.cc *)

Module MergeBench.

Record Workload : Type := mkWorkload {
  name : string;
  read_ratio : Q  (* Between 0 and 1. *)
}.

Definition kWorkloads : list Workload :=
  [ mkWorkload "10/90" 0.10; mkWorkload "50/50" 0.50; mkWorkload "90/10" 0.90 ].

(** [SelectWorkloads]: the empty filter selects the whole catalogue; otherwise
    the catalogue is scanned in order, every entry whose name equals the
    filter is pushed back, and an empty selection throws. *)
Definition SelectWorkloads (filter : string) : outcome (list Workload) :=
  if String.eqb filter "" then Returned kWorkloads
  else
    let selected :=
      fold_left
        (fun selected w =>
           if String.eqb (name w) filter then selected ++ [w] else selected)
        kWorkloads [] in
    match selected with
    | [] => Threw ("Unknown workload mix filter: " ++ filter)
    | _ :: _ => Returned selected
    end.

(** [Decode]: [x] starts as zero and its first [min(size, 8)] bytes are
    overwritten from the slice. *)
Definition Decode (value : list byte) : Z :=
  let x := le_split sizeof_uint64_t 0 in
  let x := memcpy x value (Nat.min (length value) sizeof_uint64_t) in
  le_combine x.

(** [Encode]: an 8-byte string of NULs overwritten by the object
    representation of [value]. *)
Definition Encode (value : Z) : list byte :=
  let out := repeat Byte.x00 sizeof_uint64_t in
  memcpy out (le_split sizeof_uint64_t value) sizeof_uint64_t.

Record MergeOperationInput : Type := mkMergeIn {
  existing_value : option (list byte);   (* nullptr is [None] *)
  operand_list : list (list byte)
}.

Record MergeOperationOutput : Type := mkMergeOut {
  new_value : list byte
}.

(** [CountMergeOperator::FullMergeV2]: returns the success flag and the
    updated output object. *)
Definition FullMergeV2 (merge_in : MergeOperationInput)
    (merge_out : MergeOperationOutput) : bool * MergeOperationOutput :=
  let accumulator := 0 in
  let accumulator :=
    match existing_value merge_in with
    | Some v => wrap64 (accumulator + Decode v)
    | None => accumulator
    end in
  let accumulator :=
    fold_left (fun accumulator operand => wrap64 (accumulator + Decode operand))
      (operand_list merge_in) accumulator in
  (true, mkMergeOut (Encode accumulator)).

(** [CountMergeOperator::PartialMerge]: every argument is ignored; the
    out-parameter [new_value] is returned as it was passed. *)
Definition PartialMerge (key left_operand right_operand : list byte)
    (new_value : list byte) : bool * list byte :=
  (false, new_value).

(** The sum the merge operator is meant to compute, over the integers:
    the decoded base (0 when absent) plus every decoded operand. *)
Definition decoded_sum (base : option (list byte))
    (operands : list (list byte)) : Z :=
  match base with Some v => Decode v | None => 0 end
  + fold_right Z.add 0 (map Decode operands).

End MergeBench.

(** ** The engine, the file system and the clock, as seen by space_amp.cc

    RocksDB, [std::filesystem] and [std::chrono::steady_clock] are external.
    A run is modelled against a [World]: one oracle per external operation,
    each answering from the history of the run so far.  Every external call
    is recorded, with its answer, in the [Trace]. *)

(** A [rocksdb::Status]: its code and the text [ToString()] renders. *)
Inductive StatusCode : Type :=
| kOk | kNotFound | kCorruption | kNotSupported | kInvalidArgument
| kIOError | kOtherCode.

Record Status : Type := mkStatus {
  code : StatusCode;
  ToString : string
}.

Definition ok (s : Status) : bool :=
  match code s with kOk => true | _ => false end.

Definition IsNotFound (s : Status) : bool :=
  match code s with kNotFound => true | _ => false end.

Inductive CompressionType : Type := kNoCompression | kSnappyCompression.

(** The fields of [rocksdb::BlockBasedTableOptions] and [rocksdb::Options]
    that [BuildOptions] assigns. *)
Record BlockBasedTableOptions : Type := mkTableOptions {
  table_block_size : Z;
  cache_index_and_filter_blocks : bool;
  pin_l0_filter_and_index_blocks_in_cache : bool;
  block_cache_is_null : bool;
  no_block_cache : bool;
  filter_policy_is_null : bool
}.

Record Options : Type := mkOptions {
  create_if_missing : bool;
  error_if_exists : bool;
  compression : CompressionType;
  bottommost_compression : CompressionType;
  level_compaction_dynamic_level_bytes : bool;
  write_buffer_size : Z;
  max_write_buffer_number : Z;
  target_file_size_base : Z;
  max_background_compactions : Z;
  max_background_flushes : Z;
  disable_auto_compactions : bool;
  use_direct_reads : bool;
  use_direct_io_for_flush_and_compaction : bool;
  compaction_readahead_size : Z;
  table_factory : BlockBasedTableOptions
}.

Record ReadOptions : Type := mkReadOptions {
  fill_cache : bool;
  verify_checksums : bool
}.

Record WriteOptions : Type := mkWriteOptions { disableWAL : bool }.

Record FlushOptions : Type := mkFlushOptions { wait : bool }.

(** A [rocksdb::WriteBatch]: the puts recorded so far, oldest first. *)
Abbreviation WriteBatch := (list (list byte * list byte)).

(** One row of the final report ([struct Result]). *)
Record Result : Type := mkResult {
  block_size : Z;
  total_sst_bytes : Z;
  estimated_keys : Z;
  table_readers_mem : Z;
  amplification : Q;
  read_ops_per_sec : Q
}.

(** The assignment [result.read_ops_per_sec = v]. *)
Definition set_read_ops_per_sec (result : Result) (v : Q) : Result :=
  mkResult (block_size result) (total_sst_bytes result)
    (estimated_keys result) (table_readers_mem result)
    (amplification result) v.

Inductive Event : Type :=
| EvCreateDirectories (p : string) (error : option string)
| EvExists (p : string) (answer : outcome bool)
| EvRemoveAll (p : string) (error : option string)
| EvOpen (options : Options) (path : string) (s : Status)
| EvOpenForReadOnly (options : Options) (path : string) (s : Status)
| EvWrite (write_options : WriteOptions) (batch : WriteBatch) (s : Status)
| EvFlush (flush_options : FlushOptions) (s : Status)
| EvCompactRange (begin_key end_key : option (list byte)) (s : Status)
| EvGetAggregatedIntProperty (property : string) (answer : option Z)
| EvGet (read_options : ReadOptions) (key : list byte) (s : Status)
| EvClose
| EvNow (ticks : Z)
| EvCout (text : string)
| EvCerr (text : string)
| EvReport (results : list Result).

Definition Trace : Type := list Event.

Record World : Type := mkWorld {
  (* std::filesystem: [Some what] is a thrown filesystem_error *)
  fs_create_directories : Trace -> string -> option string;
  fs_exists : Trace -> string -> outcome bool;
  fs_remove_all : Trace -> string -> option string;
  (* rocksdb::DB *)
  db_Open : Trace -> Options -> string -> Status;
  db_OpenForReadOnly : Trace -> Options -> string -> Status;
  db_Write : Trace -> WriteOptions -> WriteBatch -> Status;
  db_Flush : Trace -> FlushOptions -> Status;
  db_CompactRange :
    Trace -> option (list byte) -> option (list byte) -> Status;
  (* [None] when the property query returns false *)
  db_GetAggregatedIntProperty : Trace -> string -> option Z;
  db_Get : Trace -> ReadOptions -> list byte -> Status;
  (* steady_clock::now(), in ticks *)
  steady_clock_now : Trace -> Z
}.

(** [std::mt19937_64] and [std::uniform_int_distribution<uint64_t>] are the
    standard library's: an engine built from a seed, and a draw from the
    closed range [a, b] that advances the engine. *)
Class StdRandom : Type := mkStdRandom {
  mt19937_64 : Type;
  mt19937_64_seed : Z -> mt19937_64;
  uniform_int_distribution : Z -> Z -> mt19937_64 -> Z * mt19937_64
}.

(** The standard's requirement on [uniform_int_distribution(a, b)]. *)
Definition draws_within_bounds (R : StdRandom) : Prop :=
  forall a b g, a <= b -> a <= fst (uniform_int_distribution a b g) <= b.

(** [steady_clock::period] is [std::nano] (libstdc++, libc++). *)
Definition steady_clock_ticks_per_second : positive := 1000000000.

(** *** Computations against a world *)

Definition M (A : Type) : Type := World -> Trace -> outcome A * Trace.

Definition ret {A : Type} (a : A) : M A := fun _ h => (Returned a, h).

Definition throw {A : Type} (what : string) : M A := fun _ h => (Threw what, h).

Definition bind {A B : Type} (m : M A) (k : A -> M B) : M B :=
  fun w h =>
    match m w h with
    | (Returned a, h1) => k a w h1
    | (Threw what, h1) => (Threw what, h1)
    end.

(** An external call: ask the world, record the answer. *)
Definition call {A : Type} (oracle : World -> Trace -> A) (ev : A -> Event)
    : M A :=
  fun w h => let answer := oracle w h in (Returned answer, h ++ [ev answer]).

(** Output, and other events that need no answer. *)
Definition emit (e : Event) : M unit := fun _ h => (Returned tt, h ++ [e]).

(** [try { body } catch (const std::exception& ex) { handler(ex.what()) }]. *)
Definition try_catch {A : Type} (body : M A) (handler : string -> M A) : M A :=
  fun w h =>
    match body w h with
    | (Returned a, h1) => (Returned a, h1)
    | (Threw what, h1) => handler what w h1
    end.

(** A scope that owns an object: [cleanup] runs when the scope is left,
    normally or by an exception. *)
Definition finally {A : Type} (body : M A) (cleanup : M unit) : M A :=
  fun w h =>
    let (r, h1) := body w h in
    (r, snd (cleanup w h1)).

Declare Scope harness_scope.
Delimit Scope harness_scope with harness.
Notation "x <- m ;; k" := (bind m (fun x => k))
  (at level 20, m at level 99, k at level 200, only parsing) : harness_scope.
Notation "m ;;; k" := (bind m (fun _ => k))
  (at level 20, k at level 200, only parsing) : harness_scope.

(** ** Decimal rendering ([%llu], [std::to_string], [operator<<]) *)

Definition digit_char (d : Z) : byte := byte.of_Z (48 + d).

(** Digits of [x], least significant first onto [acc]; [fuel] bounds the
    number of digits. *)
Fixpoint decimal_digits (fuel : nat) (x : Z) (acc : list byte) : list byte :=
  match fuel with
  | O => acc
  | S fuel' =>
      let acc' := digit_char (x mod 10) :: acc in
      if x / 10 =? 0 then acc' else decimal_digits fuel' (x / 10) acc'
  end.

(** A 64-bit value has at most 20 decimal digits. *)
Definition to_decimal (x : Z) : list byte := decimal_digits 20 x [].

Definition to_string (x : Z) : string :=
  if x <? 0 then ("-" ++ string_of_list_byte (to_decimal (- x)))%string
  else string_of_list_byte (to_decimal x).

Definition newline : string := String (Ascii.ascii_of_nat 10) EmptyString.

(** ** space_amp.cc *)

Module SpaceAmp.

Local Open Scope harness_scope.

Definition kRawPayloadBytes : Z := 4 * 1024 * 1024 * 1024.
Definition kKeySize : nat := 32.
Definition kValueSize : nat := 96.
Definition kEntryBytes : nat := kKeySize + kValueSize.
Definition kEntryCount : Z := kRawPayloadBytes / Z.of_nat kEntryBytes.

Definition EXIT_SUCCESS : Z := 0.
Definition EXIT_FAILURE : Z := 1.

Record Config : Type := mkConfig {
  block_sizes : list Z;
  db_root : string;
  keep_dbs : bool;
  read_ops : Z
}.

Record ReadStats : Type := mkReadStats { ops_per_sec : Q }.

(** [std::filesystem::path::operator/] on POSIX paths, where a path is
    absolute exactly when it has a root directory.  A right operand with a
    root directory replaces the left one.  Otherwise a separator is added
    when the left operand has a filename, that is, when it is not empty
    and does not end in a separator, and the right operand is appended. *)
Definition is_separator (c : Ascii.ascii) : bool :=
  Ascii.eqb c (Ascii.ascii_of_nat 47) (* '/' *).

Definition has_root_directory (p : string) : bool :=
  match p with
  | String c _ => is_separator c
  | EmptyString => false
  end.

Fixpoint has_filename (p : string) : bool :=
  match p with
  | EmptyString => false
  | String c EmptyString => negb (is_separator c)
  | String _ rest => has_filename rest
  end.

Definition path_append (dir component : string) : string :=
  if has_root_directory component then component
  else if has_filename dir then (dir ++ "/" ++ component)%string
  else (dir ++ component)%string.

(** The conversion ["%032llu"]: at least 32 characters, zero-padded on the
    left. *)
Definition format_032llu (x : Z) : list byte :=
  let digits := to_decimal x in
  repeat (digit_char 0) (32 - length digits) ++ digits.

(** [std::snprintf(buffer, size, ...)]: at most [size - 1] characters of the
    formatted text and a terminating NUL overwrite the start of [buffer]. *)
Definition snprintf (buffer : list byte) (size : nat) (formatted : list byte)
    : list byte :=
  match size with
  | O => buffer
  | S room =>
      let written := firstn room formatted ++ [Byte.x00] in
      written ++ skipn (length written) buffer
  end.

Definition FormatKey (index : Z) (buffer : list byte) : list byte :=
  snprintf buffer (length buffer) (format_032llu index).

(** The loop of [FillValue], from offset [i] for [n] more iterations. *)
Fixpoint FillValue_loop (n : nat) (i : nat) (index : Z) (buffer : list byte)
    : list byte :=
  match n with
  | O => buffer
  | S n' =>
      FillValue_loop n' (S i) index
        (<[ i := byte.of_Z (97 + wrap64 (index + Z.of_nat i) mod 26) ]> buffer)
  end.

Definition FillValue (index : Z) (buffer : list byte) : list byte :=
  FillValue_loop kValueSize 0 index buffer.

Definition BuildOptions (block_size : Z) : Options :=
  mkOptions
    true                       (* create_if_missing *)
    true                       (* error_if_exists *)
    kNoCompression             (* compression *)
    kNoCompression             (* bottommost_compression *)
    true                       (* level_compaction_dynamic_level_bytes *)
    (256 * 1024 * 1024)        (* write_buffer_size *)
    4                          (* max_write_buffer_number *)
    (512 * 1024 * 1024)        (* target_file_size_base *)
    4                          (* max_background_compactions *)
    2                          (* max_background_flushes *)
    false                      (* disable_auto_compactions *)
    true                       (* use_direct_reads *)
    true                       (* use_direct_io_for_flush_and_compaction *)
    (2 * 1024 * 1024)          (* compaction_readahead_size *)
    (mkTableOptions block_size false false true true true).

(** The external calls the harness makes. *)
Definition create_directories (p : string) : M unit :=
  error <- call (fun w h => fs_create_directories w h p) (EvCreateDirectories p) ;;
  match error with Some what => throw what | None => ret tt end.

Definition exists_ (p : string) : M bool :=
  answer <- call (fun w h => fs_exists w h p) (EvExists p) ;;
  match answer with Threw what => throw what | Returned b => ret b end.

Definition remove_all (p : string) : M unit :=
  error <- call (fun w h => fs_remove_all w h p) (EvRemoveAll p) ;;
  match error with Some what => throw what | None => ret tt end.

Definition DB_Open (options : Options) (path : string) : M Status :=
  call (fun w h => db_Open w h options path) (EvOpen options path).

Definition DB_OpenForReadOnly (options : Options) (path : string) : M Status :=
  call (fun w h => db_OpenForReadOnly w h options path)
       (EvOpenForReadOnly options path).

Definition DB_Write (write_options : WriteOptions) (batch : WriteBatch)
    : M Status :=
  call (fun w h => db_Write w h write_options batch)
       (EvWrite write_options batch).

Definition DB_Flush (flush_options : FlushOptions) : M Status :=
  call (fun w h => db_Flush w h flush_options) (EvFlush flush_options).

Definition DB_CompactRange (begin_key end_key : option (list byte)) : M Status :=
  call (fun w h => db_CompactRange w h begin_key end_key)
       (EvCompactRange begin_key end_key).

Definition DB_GetAggregatedIntProperty (property : string) : M (option Z) :=
  call (fun w h => db_GetAggregatedIntProperty w h property)
       (EvGetAggregatedIntProperty property).

Definition DB_Get (read_options : ReadOptions) (key : list byte) : M Status :=
  call (fun w h => db_Get w h read_options key) (EvGet read_options key).

(** [db.reset()], or the destructor of the owning [unique_ptr]. *)
Definition DB_Close : M unit := emit EvClose.

Definition now : M Z := call steady_clock_now EvNow.

Definition cout (text : string) : M unit := emit (EvCout text).
Definition cerr (text : string) : M unit := emit (EvCerr text).

(** The read loop of [BenchmarkReads], with [n] iterations left. *)
Fixpoint BenchmarkReads_loop `{StdRandom} (n : nat)
    (read_options : ReadOptions) (rng : mt19937_64) (key_buffer : list byte)
    : M unit :=
  match n with
  | O => ret tt
  | S n' =>
      let (key_index, rng) :=
        uniform_int_distribution 0 (kEntryCount - 1) rng in
      let key_buffer := FormatKey key_index key_buffer in
      let key_slice := firstn kKeySize key_buffer in
      status <- DB_Get read_options key_slice ;;
      if negb (ok status) then
        throw ("Read failed: " ++ ToString status)
      else BenchmarkReads_loop n' read_options rng key_buffer
  end.

(** The closing arithmetic of [BenchmarkReads]: elapsed seconds from the
    two clock readings, the floor, and the division. *)
Definition throughput (read_ops start_ticks end_ticks : Z) : Q :=
  let seconds := (end_ticks - start_ticks) # steady_clock_ticks_per_second in
  let seconds :=
    if Qle_bool seconds 0 then (1 # 1000000000)%Q (* 1e-9 *) else seconds in
  (inject_Z read_ops / seconds)%Q.

(** [options = template_options] with [create_if_missing] and
    [error_if_exists] set to false. *)
Definition read_only_options (template_options : Options) : Options :=
  mkOptions false false
    (compression template_options)
    (bottommost_compression template_options)
    (level_compaction_dynamic_level_bytes template_options)
    (write_buffer_size template_options)
    (max_write_buffer_number template_options)
    (target_file_size_base template_options)
    (max_background_compactions template_options)
    (max_background_flushes template_options)
    (disable_auto_compactions template_options)
    (use_direct_reads template_options)
    (use_direct_io_for_flush_and_compaction template_options)
    (compaction_readahead_size template_options)
    (table_factory template_options).

Definition BenchmarkReads `{StdRandom} (db_path : string)
    (template_options : Options) (read_ops : Z) : M ReadStats :=
  let stats := mkReadStats 0 in
  if read_ops =? 0 then ret stats
  else
    let options := read_only_options template_options in
    status <- DB_OpenForReadOnly options db_path ;;
    if negb (ok status) then
      throw ("Failed to reopen RocksDB for reads at " ++ db_path ++ ": "
             ++ ToString status)
    else
      finally
        (let read_options := mkReadOptions false false in
         let rng := mt19937_64_seed 0xC0FFEE in
         let key_buffer := repeat Byte.x00 (kKeySize + 1) in
         start <- now ;;
         BenchmarkReads_loop (Z.to_nat read_ops) read_options rng key_buffer ;;;
         end_ <- now ;;
         ret (mkReadStats (throughput read_ops start end_)))
        DB_Close.

(** The slices [RunOnce] hands to the engine for entry [i]. *)
Definition Key (i : Z) : list byte :=
  firstn kKeySize (FormatKey i (repeat Byte.x00 (kKeySize + 1))).

Definition Value (i : Z) : list byte :=
  firstn kValueSize (FillValue i (repeat Byte.x00 kValueSize)).

Definition batch_size : nat := 1000.

(** The ingest loop of [RunOnce], at index [i] with [n] iterations left. *)
Fixpoint RunOnce_loop (n : nat) (i : Z) (write_options : WriteOptions)
    (key_buffer value_buffer : list byte) (batch : WriteBatch)
    : M WriteBatch :=
  match n with
  | O => ret batch
  | S n' =>
      let key_buffer := FormatKey i key_buffer in
      let value_buffer := FillValue i value_buffer in
      let key_slice := firstn kKeySize key_buffer in
      let value_slice := firstn kValueSize value_buffer in
      let batch := batch ++ [(key_slice, value_slice)] in
      if (batch_size <=? length batch)%nat then
        status <- DB_Write write_options batch ;;
        if negb (ok status) then
          throw ("Write failed: " ++ ToString status)
        else RunOnce_loop n' (i + 1) write_options key_buffer value_buffer []
      else RunOnce_loop n' (i + 1) write_options key_buffer value_buffer batch
  end.

(** The bulk load of [RunOnce] over [entry_count] entries: batched writes,
    the last partial batch, the flush and the compaction. *)
Definition RunOnce_load (entry_count : Z) : M unit :=
  let write_options := mkWriteOptions true in
  let batch : WriteBatch := [] in
  let key_buffer := repeat Byte.x00 (kKeySize + 1) in
  let value_buffer := repeat Byte.x00 kValueSize in
  batch <- RunOnce_loop (Z.to_nat entry_count) 0 write_options
             key_buffer value_buffer batch ;;
  (if (0 <? length batch)%nat then
     status <- DB_Write write_options batch ;;
     if negb (ok status) then throw ("Write failed: " ++ ToString status)
     else ret tt
   else ret tt) ;;;
  let flush_options := mkFlushOptions true in
  status <- DB_Flush flush_options ;;
  if negb (ok status) then throw ("Flush failed: " ++ ToString status)
  else
    status <- DB_CompactRange None None ;;
    if negb (ok status) then throw ("CompactRange failed: " ++ ToString status)
    else ret tt.

Definition get_property (property : string) : M Z :=
  answer <- DB_GetAggregatedIntProperty property ;;
  match answer with
  | Some v => ret v
  | None => throw ("Failed to get " ++ property)
  end.

(** [RunOnce] from the successful [DB::Open] on: the load, the property
    queries, the optional read benchmark and the removal of the files. *)
Definition RunOnce_opened `{StdRandom} (cfg : Config) (block_size : Z)
    (db_path : string) (options : Options) : M Result :=
  result <-
    finally
      (RunOnce_load kEntryCount ;;;
       total_sst_bytes <- get_property "rocksdb.total-sst-files-size" ;;
       estimated_keys <- get_property "rocksdb.estimate-num-keys" ;;
       table_readers_mem <-
         get_property "rocksdb.estimate-table-readers-mem" ;;
       ret (mkResult block_size total_sst_bytes estimated_keys
              table_readers_mem
              (inject_Z total_sst_bytes / inject_Z kRawPayloadBytes)%Q
              0%Q))
      DB_Close ;;
  result <-
    (if read_ops cfg >? 0 then
       cout ("[block=" ++ to_string block_size
             ++ "] ingest complete, starting read benchmark ("
             ++ to_string (read_ops cfg) ++ " ops)..." ++ newline) ;;;
       read_stats <- BenchmarkReads db_path options (read_ops cfg) ;;
       ret (set_read_ops_per_sec result (ops_per_sec read_stats))
     else ret result) ;;
  (if negb (keep_dbs cfg) then remove_all db_path else ret tt) ;;;
  ret result.

Definition RunOnce `{StdRandom} (cfg : Config) (block_size : Z) : M Result :=
  let db_path :=
    path_append (db_root cfg) ("block_" ++ to_string block_size) in
  create_directories (db_root cfg) ;;;
  present <- exists_ db_path ;;
  (if present then remove_all db_path else ret tt) ;;;
  let options := BuildOptions block_size in
  status <- DB_Open options db_path ;;
  if negb (ok status) then
    throw ("Failed to open RocksDB at " ++ db_path ++ ": " ++ ToString status)
  else RunOnce_opened cfg block_size db_path options.

(** The loop of [main] over the configured block sizes: [inl code] is the
    early [return code] from inside the loop. *)
Fixpoint main_loop `{StdRandom} (cfg : Config) (remaining : list Z)
    (results : list Result) : M (Z + list Result) :=
  match remaining with
  | [] => ret (inr results)
  | block_size :: remaining' =>
      if block_size <=? 0 then
        cerr ("Block size must be positive: " ++ to_string block_size
              ++ newline) ;;;
        ret (inl EXIT_FAILURE)
      else
        r <- RunOnce cfg block_size ;;
        main_loop cfg remaining' (results ++ [r])
  end.

(** [main], from the configuration [ParseArguments] returned.  The report
    table printed from [results] is one [EvReport] event. *)
Definition main `{StdRandom} (cfg : Config) : M Z :=
  try_catch
    (r <- main_loop cfg (block_sizes cfg) [] ;;
     match r with
     | inl code => ret code
     | inr results => emit (EvReport results) ;;; ret EXIT_SUCCESS
     end)
    (fun what => cerr ("Error: " ++ what ++ newline) ;;; ret EXIT_FAILURE).

End SpaceAmp.

(** ** Vocabulary of the statements *)

(** *** Decimal text *)

Definition is_decimal_digit (c : byte) : Prop :=
  48 <= byte.unsigned c <= 57.

(** The number a string of decimal digits denotes ([strtoull], base 10). *)
Definition decimal_value (text : list byte) : Z :=
  fold_left (fun acc c => 10 * acc + (byte.unsigned c - 48)) text 0.

(** *** Plans: engine operations carried out in order, stopping at the
    first that fails *)

Record Op : Type := mkOp {
  ask : World -> Trace -> Status;      (* the engine's answer *)
  event_of : Status -> Event;          (* how the call shows in the trace *)
  failure : Status -> string           (* what() of the exception on failure *)
}.

Fixpoint perform (plan : list Op) : M unit :=
  match plan with
  | [] => ret tt
  | op :: rest =>
      bind (call (ask op) (event_of op))
        (fun status =>
           if negb (ok status) then throw (failure op status)
           else perform rest)
  end.

(** [carried_out plan events r]: [events] are the calls of [plan], in plan
    order, each made only after all the previous ones succeeded; [r] is
    [None] when the whole plan succeeded and [Some what] when the last
    call recorded failed and raised [what]. *)
Inductive carried_out : list Op -> list Event -> option string -> Prop :=
| carried_nil : carried_out [] [] None
| carried_ok op s rest events r :
    ok s = true ->
    carried_out rest events r ->
    carried_out (op :: rest) (event_of op s :: events) r
| carried_fail op s rest :
    ok s = false ->
    carried_out (op :: rest) [event_of op s] (Some (failure op s)).

Definition result_of {A : Type} (r : option string) (a : A) : outcome A :=
  match r with None => Returned a | Some what => Threw what end.

Module Plans.
Import SpaceAmp.

Definition write_op (write_options : WriteOptions) (batch : WriteBatch) : Op :=
  mkOp (fun w h => db_Write w h write_options batch)
       (EvWrite write_options batch)
       (fun s => ("Write failed: " ++ ToString s)%string).

Definition flush_op (flush_options : FlushOptions) : Op :=
  mkOp (fun w h => db_Flush w h flush_options)
       (EvFlush flush_options)
       (fun s => ("Flush failed: " ++ ToString s)%string).

Definition compact_op (begin_key end_key : option (list byte)) : Op :=
  mkOp (fun w h => db_CompactRange w h begin_key end_key)
       (EvCompactRange begin_key end_key)
       (fun s => ("CompactRange failed: " ++ ToString s)%string).

Definition get_op (read_options : ReadOptions) (key : list byte) : Op :=
  mkOp (fun w h => db_Get w h read_options key)
       (EvGet read_options key)
       (fun s => ("Read failed: " ++ ToString s)%string).

(** The generated entries [first], [first + 1], ... ([n] of them). *)
Fixpoint dataset (n : nat) (first : Z) : WriteBatch :=
  match n with
  | O => []
  | S n' => (Key first, Value first) :: dataset n' (first + 1)
  end.

(** The batches of the bulk load: the dataset cut into runs of
    [batch_size] entries, the last one possibly shorter. *)
Definition batches (entry_count : Z) : list WriteBatch :=
  List.chunk batch_size (dataset (Z.to_nat entry_count) 0).

Definition load_plan (entry_count : Z) : list Op :=
  map (write_op (mkWriteOptions true)) (batches entry_count)
  ++ [flush_op (mkFlushOptions true); compact_op None None].

(** The indices the prober draws: [n] draws from [rng]. *)
Fixpoint draws `{StdRandom} (n : nat) (rng : mt19937_64) : list Z :=
  match n with
  | O => []
  | S n' =>
      let (key_index, rng) :=
        uniform_int_distribution 0 (kEntryCount - 1) rng in
      key_index :: draws n' rng
  end.

Definition probe_indices `{StdRandom} (read_ops : Z) : list Z :=
  draws (Z.to_nat read_ops) (mt19937_64_seed 0xC0FFEE).

(** The character [FillValue] stores at offset [j]. *)
Definition value_char (index : Z) (j : nat) : byte :=
  byte.of_Z (97 + wrap64 (index + Z.of_nat j) mod 26).

(** The divisor [BenchmarkReads] uses: the elapsed seconds, or the floor
    when they are not positive. *)
Definition effective_seconds (start_ticks end_ticks : Z) : Q :=
  let seconds := (end_ticks - start_ticks) # steady_clock_ticks_per_second in
  if Qle_bool seconds 0 then (1 # 1000000000)%Q else seconds.

(** The write of the last, partial batch after the loop. *)
Definition final_write (write_options : WriteOptions) (batch : WriteBatch)
    : M unit :=
  if (0 <? length batch)%nat then
    bind (DB_Write write_options batch)
      (fun status =>
         if negb (ok status) then
           throw ("Write failed: " ++ ToString status)
         else ret tt)
  else ret tt.

End Plans.

(** *** Reading traces *)

(** Block sizes of the instances created: the successful [DB::Open]s. *)
Definition created (events : Trace) : list Z :=
  flat_map
    (fun e =>
       match e with
       | EvOpen options _ s =>
           if ok s then [table_block_size (table_factory options)] else []
       | _ => []
       end)
    events.

(** Keys and statuses of the point reads. *)
Definition reads (events : Trace) : list (list byte * Status) :=
  flat_map
    (fun e => match e with EvGet _ key s => [(key, s)] | _ => [] end)
    events.

(** Events other than [DB::Open] and the final report. *)
Definition inner_event (e : Event) : Prop :=
  match e with
  | EvOpen _ _ _ | EvReport _ => False
  | _ => True
  end.

Definition is_report (e : Event) : Prop :=
  match e with EvReport _ => True | _ => False end.

(** [quiet m]: whatever the world and the history, [m] only appends
    events, none of them a [DB::Open] or the report. *)
Definition quiet {A : Type} (m : M A) : Prop :=
  forall w h, exists events,
    snd (m w h) = h ++ events /\ Forall inner_event events.

(** The message [main] writes for a non-positive block size. *)
Definition block_size_error (block_size : Z) : string :=
  ("Block size must be positive: " ++ to_string block_size ++ newline)%string.


(** *** A world where everything succeeds, and a stand-in generator *)

Definition status_OK : Status := mkStatus kOk "OK".

Definition ideal_world : World :=
  mkWorld
    (fun _ _ => None) (fun _ _ => Returned false) (fun _ _ => None)
    (fun _ _ _ => status_OK) (fun _ _ _ => status_OK)
    (fun _ _ _ => status_OK) (fun _ _ => status_OK)
    (fun _ _ _ => status_OK) (fun _ _ => Some 0)
    (fun _ _ _ => status_OK)
    (fun h => Z.of_nat (length h)).

Definition status_NotFound : Status := mkStatus kNotFound "NotFound: ".

(** The ideal world, except that every point read after the first two
    finds nothing. *)
Definition two_reads_world : World :=
  mkWorld
    (fun _ _ => None) (fun _ _ => Returned false) (fun _ _ => None)
    (fun _ _ _ => status_OK) (fun _ _ _ => status_OK)
    (fun _ _ _ => status_OK) (fun _ _ => status_OK)
    (fun _ _ _ => status_OK) (fun _ _ => Some 0)
    (fun h _ _ =>
       if (length (reads h) <? 2)%nat then status_OK else status_NotFound)
    (fun h => Z.of_nat (length h)).

(** A 64-bit linear congruential generator with the reduction
    [a + g mod (b - a + 1)] as distribution. *)
Definition lcg_random : StdRandom :=
  mkStdRandom Z (fun seed => wrap64 seed)
    (fun a b g =>
       (a + g mod (b - a + 1),
        wrap64 (6364136223846793005 * g + 1442695040888963407))).


(** ** Text conversions of the C and C++ libraries *)

(** [isspace] and [isdigit] in the "C" locale. *)
Definition isspace (c : byte) : bool :=
  let n := byte.unsigned c in
  ((9 <=? n) && (n <=? 13)) || (n =? 32).

Definition isdigit (c : byte) : bool :=
  let n := byte.unsigned c in
  (48 <=? n) && (n <=? 57).

Fixpoint skip_spaces (text : list byte) : list byte :=
  match text with
  | c :: rest => if isspace c then skip_spaces rest else text
  | [] => []
  end.

Fixpoint leading_digits (text : list byte) : list byte :=
  match text with
  | c :: rest => if isdigit c then c :: leading_digits rest else []
  | [] => []
  end.

(** What [strtol] and [strtoull] read in base 10: leading white space,
    an optional sign, then the longest run of digits; [None] when there is
    no digit.  The result is the sign and the magnitude. *)
Definition parse_signed_digits (text : list byte) : option (bool * Z) :=
  let text := skip_spaces text in
  let '(negative, text) :=
    match text with
    | c :: rest =>
        if Byte.eqb c Byte.x2d then (true, rest)
        else if Byte.eqb c Byte.x2b then (false, rest)
        else (false, text)
    | [] => (false, [])
    end in
  match leading_digits text with
  | [] => None
  | digits => Some (negative, decimal_value digits)
  end.

(** The exceptions of [std::stoi] and [std::stoull]. *)
Inductive conversion_error : Type := invalid_argument | out_of_range.

Definition stoi (text : list byte) : conversion_error + Z :=
  match parse_signed_digits text with
  | None => inl invalid_argument
  | Some (negative, magnitude) =>
      let v := if negative then - magnitude else magnitude in
      if (- 2 ^ 31 <=? v) && (v <=? 2 ^ 31 - 1) then inr v
      else inl out_of_range
  end.

(** [strtoull] negates in the unsigned type when the text has a minus
    sign. *)
Definition stoull (text : list byte) : conversion_error + Z :=
  match parse_signed_digits text with
  | None => inl invalid_argument
  | Some (negative, magnitude) =>
      if magnitude <=? 2 ^ 64 - 1 then
        inr (if negative then wrap64 (- magnitude) else magnitude)
      else inl out_of_range
  end.

(** [std::string_view::rfind(prefix, 0) == 0]: the text starts with the
    prefix. *)
Fixpoint starts_with (prefix text : list byte) : bool :=
  match prefix, text with
  | [], _ => true
  | p :: prefix', c :: text' => Byte.eqb p c && starts_with prefix' text'
  | _ :: _, [] => false
  end.

Definition bytes_eqb (a b : list byte) : bool :=
  (length a =? length b)%nat && starts_with a b.

(** The decimal text of an [int], as a character sequence. *)
Definition to_chars (x : Z) : list byte :=
  if x <? 0 then Byte.x2d :: to_decimal (- x) else to_decimal x.

(** What a process does when it parses its arguments: go on with a
    configuration, [std::exit] with a code after printing, or throw. *)
Inductive parsed (C : Type) : Type :=
| Parsed (cfg : C)
| Exited (code : Z) (stdout stderr : string)
| Failed (e : conversion_error).
Arguments Parsed {C} cfg.
Arguments Exited {C} code stdout stderr.
Arguments Failed {C} e.

(** ** space_amp.cc: argument parsing and report formatting *)

Module SpaceAmpCli.
Import SpaceAmp.

Definition DefaultBlockSizes : list Z :=
  [4 * 1024; 8 * 1024; 16 * 1024; 32 * 1024; 64 * 1024].

(** The loop of [ParseBlockSizes] over the characters of [csv]. *)
Fixpoint ParseBlockSizes_loop (csv : list byte) (current : list byte)
    (values : list Z) : conversion_error + (list byte * list Z) :=
  match csv with
  | [] => inr (current, values)
  | c :: csv' =>
      if Byte.eqb c Byte.x2c then
        match current with
        | _ :: _ =>
            match stoi current with
            | inl e => inl e
            | inr v => ParseBlockSizes_loop csv' [] (values ++ [v])
            end
        | [] => ParseBlockSizes_loop csv' current values
        end
      else if negb (isspace c) then
        ParseBlockSizes_loop csv' (current ++ [c]) values
      else ParseBlockSizes_loop csv' current values
  end.

Definition ParseBlockSizes (csv : list byte) : conversion_error + list Z :=
  match csv with
  | [] => inr DefaultBlockSizes
  | _ :: _ =>
      match ParseBlockSizes_loop csv [] [] with
      | inl e => inl e
      | inr (current, values) =>
          let after_last :=
            match current with
            | _ :: _ =>
                match stoi current with
                | inl e => inl e
                | inr v => inr (values ++ [v])
                end
            | [] => inr values
            end in
          match after_last with
          | inl e => inl e
          | inr [] => inr DefaultBlockSizes
          | inr (v :: values') => inr (v :: values')
          end
      end
  end.

Definition default_Config : Config :=
  mkConfig [] "./space_amp_runs" false 200000.

Definition usage : string :=
  ("Usage: space_amp [--block_sizes=csv] [--db_root=dir] [--keep_dbs] [--read_ops=N]"
   ++ newline)%string.

Definition flag (text : string) : list byte := list_byte_of_string text.

(** The loop of [ParseArguments] over [argv[1 .. argc - 1]]. *)
Fixpoint ParseArguments_loop (args : list (list byte)) (cfg : Config)
    : parsed Config :=
  match args with
  | [] => Parsed cfg
  | arg :: args' =>
      if starts_with (flag "--block_sizes=") arg then
        match ParseBlockSizes (skipn (length (flag "--block_sizes=")) arg) with
        | inl e => Failed e
        | inr sizes =>
            ParseArguments_loop args'
              (mkConfig sizes (db_root cfg) (keep_dbs cfg) (read_ops cfg))
        end
      else if starts_with (flag "--db_root=") arg then
        ParseArguments_loop args'
          (mkConfig (block_sizes cfg)
             (string_of_list_byte (skipn (length (flag "--db_root=")) arg))
             (keep_dbs cfg) (read_ops cfg))
      else if bytes_eqb arg (flag "--keep_dbs") then
        ParseArguments_loop args'
          (mkConfig (block_sizes cfg) (db_root cfg) true (read_ops cfg))
      else if starts_with (flag "--read_ops=") arg then
        match stoull (skipn (length (flag "--read_ops=")) arg) with
        | inl e => Failed e
        | inr n =>
            ParseArguments_loop args'
              (mkConfig (block_sizes cfg) (db_root cfg) (keep_dbs cfg) n)
        end
      else if bytes_eqb arg (flag "--help") || bytes_eqb arg (flag "-h") then
        Exited EXIT_SUCCESS usage ""
      else
        Exited EXIT_FAILURE ""
          ("Unknown argument: " ++ string_of_list_byte arg ++ newline)
  end.

Definition ParseArguments (args : list (list byte)) : parsed Config :=
  match ParseArguments_loop args default_Config with
  | Parsed cfg =>
      match block_sizes cfg with
      | [] =>
          Parsed (mkConfig DefaultBlockSizes (db_root cfg) (keep_dbs cfg)
                    (read_ops cfg))
      | _ :: _ => Parsed cfg
      end
  | Exited code out err => Exited code out err
  | Failed e => Failed e
  end.

Definition kUnits : list string := ["B"; "KB"; "MB"; "GB"; "TB"]%string.

(** The scaling loop of [HumanBytes]; it runs at most four times. *)
Fixpoint HumanBytes_loop (fuel : nat) (bytes : Q) (unit : Z) : Q * Z :=
  match fuel with
  | O => (bytes, unit)
  | S fuel' =>
      if Qle_bool 1024 bytes && (unit <? 4) then
        HumanBytes_loop fuel' (bytes / 1024)%Q (unit + 1)
      else (bytes, unit)
  end.

(** [HumanBytes], up to the rendering of the number by the stream: the
    number printed, the precision it is printed with ([std::fixed]) and the
    unit that follows it. *)
Definition HumanBytes (bytes : Q) : Q * Z * string :=
  let '(bytes, unit) := HumanBytes_loop 4 bytes 0 in
  let precision :=
    if Qle_bool 100 bytes then 0 else if Qle_bool 10 bytes then 1 else 2 in
  (bytes, precision, nth (Z.to_nat unit) kUnits ""%string).

(** The text [space_amp] is given for a list of block sizes: decimal
    numbers separated by commas. *)
Fixpoint join_csv (fields : list (list byte)) : list byte :=
  match fields with
  | [] => []
  | [field] => field
  | field :: fields' => field ++ Byte.x2c :: join_csv fields'
  end.

Definition is_int (x : Z) : Prop := - 2 ^ 31 <= x <= 2 ^ 31 - 1.

(** The arguments [ParseArguments] knows, [--help] apart. *)
Definition is_option (arg : list byte) : bool :=
  starts_with (flag "--block_sizes=") arg
  || starts_with (flag "--db_root=") arg
  || bytes_eqb arg (flag "--keep_dbs")
  || starts_with (flag "--read_ops=") arg.

Definition is_help (arg : list byte) : bool :=
  bytes_eqb arg (flag "--help") || bytes_eqb arg (flag "-h").

(** The defaulting step that ends [ParseArguments]. *)
Definition with_default_block_sizes (cfg : Config) : Config :=
  match block_sizes cfg with
  | [] =>
      mkConfig DefaultBlockSizes (db_root cfg) (keep_dbs cfg) (read_ops cfg)
  | _ :: _ => cfg
  end.

End SpaceAmpCli.

(** ** Vocabulary for the dataset *)

(** The order of [memcmp], which is the order of the engine's default
    comparator: byte by byte, unsigned, a proper prefix first. *)
Fixpoint bytewise_compare (a b : list byte) : comparison :=
  match a, b with
  | [], [] => Eq
  | [], _ :: _ => Lt
  | _ :: _, [] => Gt
  | x :: a', y :: b' =>
      match byte.unsigned x ?= byte.unsigned y with
      | Eq => bytewise_compare a' b'
      | Lt => Lt
      | Gt => Gt
      end
  end.

(** The bytes of keys and values in a batch. *)
Definition payload_bytes (entries : WriteBatch) : Z :=
  fold_right
    (fun entry total =>
       Z.of_nat (length (fst entry)) + Z.of_nat (length (snd entry)) + total)
    0 entries.

(** ** Vocabulary for whole runs of space_amp *)

(** [emits P m]: whatever the world and the history, [m] only appends
    events, all of them satisfying [P]. *)
Definition emits {A : Type} (P : Event -> Prop) (m : M A) : Prop :=
  forall w h, exists events,
    snd (m w h) = h ++ events /\ Forall P events.

(** Which database handle the process holds. *)
Inductive handle : Type := NoHandle | WriteHandle | ReadOnlyHandle.

(** The discipline of handle use, checked along a trace from a given
    state; [None] when an event is out of place.  A handle is opened only
    when none is held; writes, flushes, compactions and property queries
    need the handle of [DB::Open], point reads the read-only handle,
    directory operations no handle at all; the clock and the output
    streams are free. *)
Fixpoint protocol (state : handle) (events : Trace) : option handle :=
  match events with
  | [] => Some state
  | e :: rest =>
      match e, state with
      | EvOpen _ _ s, NoHandle =>
          protocol (if ok s then WriteHandle else NoHandle) rest
      | EvOpenForReadOnly _ _ s, NoHandle =>
          protocol (if ok s then ReadOnlyHandle else NoHandle) rest
      | EvWrite _ _ _, WriteHandle
      | EvFlush _ _, WriteHandle
      | EvCompactRange _ _ _, WriteHandle
      | EvGetAggregatedIntProperty _ _, WriteHandle => protocol state rest
      | EvGet _ _ _, ReadOnlyHandle => protocol state rest
      | EvClose, WriteHandle | EvClose, ReadOnlyHandle =>
          protocol NoHandle rest
      | EvCreateDirectories _ _, NoHandle
      | EvExists _ _, NoHandle
      | EvRemoveAll _ _, NoHandle => protocol state rest
      | EvNow _, _ | EvCout _, _ | EvCerr _, _ | EvReport _, _ =>
          protocol state rest
      | _, _ => None
      end
  end.

(** [m] leaves the handle state as it found it, in every outcome. *)
Definition keeps (state : handle) {A : Type} (m : M A) : Prop :=
  forall w h, exists events,
    snd (m w h) = h ++ events /\ protocol state events = Some state.

(** [m] takes the handle state from [before] to [after], in every
    outcome. *)
Definition transits (before after : handle) {A : Type} (m : M A) : Prop :=
  forall w h, exists events,
    snd (m w h) = h ++ events /\ protocol before events = Some after.




(** The three property queries of [RunOnce], with the answers given. *)
Definition property_queries (total keys mem : Z) : Trace :=
  [EvGetAggregatedIntProperty "rocksdb.total-sst-files-size" (Some total);
   EvGetAggregatedIntProperty "rocksdb.estimate-num-keys" (Some keys);
   EvGetAggregatedIntProperty "rocksdb.estimate-table-readers-mem" (Some mem)].

(** The directory that [RunOnce] uses for a block size. *)
Definition db_path_of (cfg : SpaceAmp.Config) (block_size : Z) : string :=
  SpaceAmp.path_append (SpaceAmp.db_root cfg)
    ("block_" ++ to_string block_size).

(** A world in which no call of the harness fails: the file system obeys,
    both ways of opening succeed, every engine call returns OK and every
    property is known. *)
Definition obliging (w : World) : Prop :=
  (forall h p, fs_create_directories w h p = None) /\
  (forall h p, exists present, fs_exists w h p = Returned present) /\
  (forall h p, fs_remove_all w h p = None) /\
  (forall h o p, ok (db_Open w h o p) = true) /\
  (forall h o p, ok (db_OpenForReadOnly w h o p) = true) /\
  (forall h o batch, ok (db_Write w h o batch) = true) /\
  (forall h o, ok (db_Flush w h o) = true) /\
  (forall h b e, ok (db_CompactRange w h b e) = true) /\
  (forall h p, exists v, db_GetAggregatedIntProperty w h p = Some v) /\
  (forall h o key, ok (db_Get w h o key) = true).

(** [space_amp --block_sizes=4096,16384 --read_ops=3]. *)
Definition config_two_sizes : SpaceAmp.Config :=
  SpaceAmp.mkConfig [4096; 16384] "./space_amp_runs" false 3.



(** What [RunOnce] does before it opens the database, when nothing fails:
    the root directory is created, and a directory left at the database
    path by an earlier run is removed. *)
Definition setup_events (cfg : SpaceAmp.Config) (block_size : Z)
    (present : bool) : Trace :=
  [EvCreateDirectories (SpaceAmp.db_root cfg) None;
   EvExists (db_path_of cfg block_size) (Returned present)]
  ++ (if present then [EvRemoveAll (db_path_of cfg block_size) None]
      else []).

(** [completes w m]: in the world [w] the computation [m] returns,
    whatever happened before. *)
Definition completes {A : Type} (w : World) (m : M A) : Prop :=
  forall h, exists a h', m w h = (Returned a, h').

(** ** merge_bench.cc: argument parsing and the run

    A run of merge_bench is modelled like a run of space_amp, against a
    world of its own: here the engine is used through [Put], [Merge] and
    [Get], and [Get] hands back a value. *)

Section Runs.
Context {W E : Type}.

Definition Run (A : Type) : Type := W -> list E -> outcome A * list E.

Definition run_ret {A : Type} (a : A) : Run A := fun _ h => (Returned a, h).

Definition run_throw {A : Type} (what : string) : Run A :=
  fun _ h => (Threw what, h).

Definition run_bind {A B : Type} (m : Run A) (k : A -> Run B) : Run B :=
  fun w h =>
    match m w h with
    | (Returned a, h1) => k a w h1
    | (Threw what, h1) => (Threw what, h1)
    end.

Definition run_call {A : Type} (oracle : W -> list E -> A) (ev : A -> E)
    : Run A :=
  fun w h => let answer := oracle w h in (Returned answer, h ++ [ev answer]).

Definition run_emit (e : E) : Run unit := fun _ h => (Returned tt, h ++ [e]).

Definition run_try_catch {A : Type} (body : Run A) (handler : string -> Run A)
    : Run A :=
  fun w h =>
    match body w h with
    | (Returned a, h1) => (Returned a, h1)
    | (Threw what, h1) => handler what w h1
    end.

Definition run_finally {A : Type} (body : Run A) (cleanup : Run unit) : Run A :=
  fun w h =>
    let (r, h1) := body w h in
    (r, snd (cleanup w h1)).

End Runs.
Arguments Run : clear implicits.

Declare Scope run_scope.
Delimit Scope run_scope with run.
Notation "x <- m ;; k" := (run_bind m (fun x => k))
  (at level 20, m at level 99, k at level 200, only parsing) : run_scope.
Notation "m ;;; k" := (run_bind m (fun _ => k))
  (at level 20, k at level 200, only parsing) : run_scope.

(** [std::uniform_real_distribution<double>], beside the generator and the
    integer distribution of [StdRandom]. *)
Class StdRandomReal (R : StdRandom) : Type := mkStdRandomReal {
  uniform_real_distribution : Q -> Q -> mt19937_64 -> Q * mt19937_64
}.

(** The standard's requirement on [uniform_real_distribution(a, b)]. *)
Definition reals_within_bounds {R : StdRandom} (D : StdRandomReal R) : Prop :=
  forall a b g,
    (a < b)%Q ->
    (a <= fst (uniform_real_distribution a b g))%Q /\
    (fst (uniform_real_distribution a b g) < b)%Q.

Module MergeBenchRun.
Import MergeBench.

Local Open Scope run_scope.

Record Config : Type := mkConfig {
  db_root : string;
  key_space : Z;
  threads : Z;
  seconds_per_phase : Z;
  mix_filter : string
}.

Definition default_Config : Config :=
  mkConfig "./merge_bench_runs" 10000 8 15 "".

Record Metrics : Type := mkMetrics {
  read_ops_per_sec : Q;
  write_ops_per_sec : Q;
  avg_merge_ops_per_key : Q
}.

Record ThreadStats : Type := mkThreadStats {
  reads : Z;
  writes : Z;
  merge_operands : Z
}.

Definition usage : string :=
  ("Usage: merge_bench [--db_root=dir] [--keys=N] [--threads=N] [--seconds=N] [--mix=ratio]"
   ++ newline)%string.

Definition option_value (prefix : string) (arg : list byte) : list byte :=
  skipn (length (list_byte_of_string prefix)) arg.

(** The loop of [ParseArguments] over [argv[1 .. argc - 1]]. *)
Fixpoint ParseArguments_loop (args : list (list byte)) (cfg : Config)
    : parsed Config :=
  match args with
  | [] => Parsed cfg
  | arg :: args' =>
      if starts_with (list_byte_of_string "--db_root=") arg then
        ParseArguments_loop args'
          (mkConfig (string_of_list_byte (option_value "--db_root=" arg))
             (key_space cfg) (threads cfg) (seconds_per_phase cfg)
             (mix_filter cfg))
      else if starts_with (list_byte_of_string "--keys=") arg then
        match stoull (option_value "--keys=" arg) with
        | inl e => Failed e
        | inr n =>
            ParseArguments_loop args'
              (mkConfig (db_root cfg) n (threads cfg)
                 (seconds_per_phase cfg) (mix_filter cfg))
        end
      else if starts_with (list_byte_of_string "--threads=") arg then
        match stoi (option_value "--threads=" arg) with
        | inl e => Failed e
        | inr n =>
            ParseArguments_loop args'
              (mkConfig (db_root cfg) (key_space cfg) n
                 (seconds_per_phase cfg) (mix_filter cfg))
        end
      else if starts_with (list_byte_of_string "--seconds=") arg then
        match stoi (option_value "--seconds=" arg) with
        | inl e => Failed e
        | inr n =>
            ParseArguments_loop args'
              (mkConfig (db_root cfg) (key_space cfg) (threads cfg) n
                 (mix_filter cfg))
        end
      else if starts_with (list_byte_of_string "--mix=") arg then
        ParseArguments_loop args'
          (mkConfig (db_root cfg) (key_space cfg) (threads cfg)
             (seconds_per_phase cfg)
             (string_of_list_byte (option_value "--mix=" arg)))
      else if bytes_eqb arg (list_byte_of_string "--help")
              || bytes_eqb arg (list_byte_of_string "-h") then
        Exited SpaceAmp.EXIT_SUCCESS usage ""
      else
        Exited SpaceAmp.EXIT_FAILURE ""
          ("Unknown argument: " ++ string_of_list_byte arg ++ newline)
  end.

Definition ParseArguments (args : list (list byte)) : parsed Config :=
  ParseArguments_loop args default_Config.

(** The external calls of merge_bench, each with its answer.  The options
    of [DB::Open] are those of [BuildOptions(use_merge)]; [PrintResults]
    is one event. *)
Inductive Event : Type :=
| DidExists (p : string) (answer : outcome bool)
| DidRemoveAll (p : string) (error : option string)
| DidCreateDirectories (p : string) (error : option string)
| DidOpen (use_merge : bool) (path : string) (s : Status)
| DidPut (write_options : WriteOptions) (key value : list byte) (s : Status)
| DidMerge (write_options : WriteOptions) (key operand : list byte)
    (s : Status)
| DidGet (read_options : ReadOptions) (key : list byte)
    (answer : Status * list byte)
| DidClose
| DidNow (ticks : Z)
| DidRandomDevice (seed : Z)
| DidPrintResults (title : string) (metrics : list Metrics)
    (workloads : list Workload)
| DidCerr (text : string).

Record World : Type := mkWorld {
  exists_answer : list Event -> string -> outcome bool;
  remove_all_answer : list Event -> string -> option string;
  create_directories_answer : list Event -> string -> option string;
  Open_answer : list Event -> bool -> string -> Status;
  Put_answer : list Event -> WriteOptions -> list byte -> list byte -> Status;
  Merge_answer :
    list Event -> WriteOptions -> list byte -> list byte -> Status;
  (* the status, and what [*value] holds after the call *)
  Get_answer : list Event -> ReadOptions -> list byte -> Status * list byte;
  now_answer : list Event -> Z;
  random_device_answer : list Event -> Z
}.

Definition M (A : Type) : Type := Run World Event A.

Definition exists_ (p : string) : M bool :=
  answer <- run_call (fun w h => exists_answer w h p) (DidExists p) ;;
  match answer with Threw what => run_throw what | Returned b => run_ret b end.

Definition remove_all (p : string) : M unit :=
  error <- run_call (fun w h => remove_all_answer w h p) (DidRemoveAll p) ;;
  match error with Some what => run_throw what | None => run_ret tt end.

Definition create_directories (p : string) : M unit :=
  error <- run_call (fun w h => create_directories_answer w h p)
             (DidCreateDirectories p) ;;
  match error with Some what => run_throw what | None => run_ret tt end.

Definition DB_Open (use_merge : bool) (path : string) : M Status :=
  run_call (fun w h => Open_answer w h use_merge path) (DidOpen use_merge path).

Definition DB_Put (write_options : WriteOptions) (key value : list byte)
    : M Status :=
  run_call (fun w h => Put_answer w h write_options key value)
    (DidPut write_options key value).

Definition DB_Merge (write_options : WriteOptions) (key operand : list byte)
    : M Status :=
  run_call (fun w h => Merge_answer w h write_options key operand)
    (DidMerge write_options key operand).

Definition DB_Get (read_options : ReadOptions) (key : list byte)
    : M (Status * list byte) :=
  run_call (fun w h => Get_answer w h read_options key)
    (DidGet read_options key).

Definition DB_Close : M unit := run_emit DidClose.

Definition now : M Z := run_call now_answer DidNow.

Definition random_device : M Z :=
  run_call random_device_answer DidRandomDevice.

(** The loop of [Prepopulate], at key [i] with [n] iterations left. *)
Fixpoint Prepopulate_loop (n : nat) (i : Z) (write_options : WriteOptions)
    : M unit :=
  match n with
  | O => run_ret tt
  | S n' =>
      status <- DB_Put write_options (to_decimal i) (Encode 0) ;;
      if negb (ok status) then
        run_throw ("Failed to prepopulate key " ++ to_string i ++ ": "
                   ++ ToString status)
      else Prepopulate_loop n' (i + 1) write_options
  end.

Definition Prepopulate (key_space : Z) : M unit :=
  let write_options := mkWriteOptions true in
  Prepopulate_loop (Z.to_nat key_space) 0 write_options.

(** [++counter] on a [uint64_t]. *)
Definition incr (counter : Z) : Z := wrap64 (counter + 1).

(** The loop of [RunWorker].  It runs until the clock says so: [fuel]
    bounds the number of clock readings, and the result is [None] when
    the bound is reached first. *)
Fixpoint RunWorker_loop {R : StdRandom} {D : StdRandomReal R} (fuel : nat)
    (use_merge : bool) (read_ratio : Q) (key_space : Z) (end_time : Z)
    (read_options : ReadOptions) (write_options : WriteOptions)
    (rng : mt19937_64) (stats : ThreadStats) : M (option ThreadStats) :=
  match fuel with
  | O => run_ret None
  | S fuel' =>
      t <- now ;;
      if t <? end_time then
        let (pick, rng) := uniform_real_distribution 0 1 rng in
        let (key_index, rng) :=
          uniform_int_distribution 0 (wrap64 (key_space - 1)) rng in
        let key := to_decimal key_index in
        if negb (Qle_bool read_ratio pick) then
          answer <- DB_Get read_options key ;;
          let status := fst answer in
          if negb (ok status) && negb (IsNotFound status) then
            run_throw ("Read failed: " ++ ToString status)
          else
            RunWorker_loop fuel' use_merge read_ratio key_space end_time
              read_options write_options rng
              (mkThreadStats (incr (reads stats)) (writes stats)
                 (merge_operands stats))
        else if use_merge then
          status <- DB_Merge write_options key (Encode 1) ;;
          if negb (ok status) then
            run_throw ("Merge failed: " ++ ToString status)
          else
            RunWorker_loop fuel' use_merge read_ratio key_space end_time
              read_options write_options rng
              (mkThreadStats (reads stats) (incr (writes stats))
                 (incr (merge_operands stats)))
        else
          answer <- DB_Get read_options key ;;
          let get_status := fst answer in
          if negb (ok get_status) && negb (IsNotFound get_status) then
            run_throw ("RMW read failed: " ++ ToString get_status)
          else
            let current :=
              if ok get_status then Decode (snd answer) else 0 in
            status <- DB_Put write_options key (Encode (wrap64 (current + 1))) ;;
            if negb (ok status) then
              run_throw ("Put failed: " ++ ToString status)
            else
              RunWorker_loop fuel' use_merge read_ratio key_space end_time
                read_options write_options rng
                (mkThreadStats (reads stats) (incr (writes stats))
                   (merge_operands stats))
      else run_ret (Some stats)
  end.

(** [RunWorker]; [verify_checksums] and [disableWAL] keep their defaults. *)
Definition RunWorker {R : StdRandom} {D : StdRandomReal R} (fuel : nat)
    (use_merge : bool) (read_ratio : Q) (key_space : Z) (end_time : Z)
    : M (option ThreadStats) :=
  let stats := mkThreadStats 0 0 0 in
  seed <- random_device ;;
  let rng := mt19937_64_seed seed in
  let read_options := mkReadOptions false true in
  let write_options := mkWriteOptions false in
  RunWorker_loop fuel use_merge read_ratio key_space end_time
    read_options write_options rng stats.

(** [RunBenchmark], over whatever [RunPhase] does with the open database;
    [PrintResults] writes one table. *)
Definition RunBenchmark
    (RunPhase : Config -> bool -> list Workload -> M (list Metrics))
    (cfg : Config) (use_merge : bool) (workloads : list Workload) : M unit :=
  let db_path :=
    SpaceAmp.path_append (db_root cfg) (if use_merge then "merge" else "rmw") in
  present <- exists_ db_path ;;
  (if present then remove_all db_path else run_ret tt) ;;;
  create_directories (db_root cfg) ;;;
  status <- DB_Open use_merge db_path ;;
  if negb (ok status) then
    run_throw ("Failed to open DB: " ++ ToString status)
  else
    run_finally
      (Prepopulate (key_space cfg) ;;;
       metrics <- RunPhase cfg use_merge workloads ;;
       run_emit
         (DidPrintResults (if use_merge then "Merge" else "Read-Modify-Write")
            metrics workloads))
      DB_Close ;;;
    remove_all db_path.

(** [main], from the configuration [ParseArguments] returned. *)
Definition main
    (RunPhase : Config -> bool -> list Workload -> M (list Metrics))
    (cfg : Config) : M Z :=
  run_try_catch
    (workloads <-
       match SelectWorkloads (mix_filter cfg) with
       | Returned workloads => run_ret workloads
       | Threw what => run_throw what
       end ;;
     RunBenchmark RunPhase cfg false workloads ;;;
     RunBenchmark RunPhase cfg true workloads ;;;
     run_ret SpaceAmp.EXIT_SUCCESS)
    (fun what =>
       run_emit (DidCerr ("Error: " ++ what ++ newline)) ;;;
       run_ret SpaceAmp.EXIT_FAILURE).

End MergeBenchRun.

(** ** Vocabulary for merge_bench *)

(** A command line that spells a configuration out in full. *)
Definition command_line (cfg : MergeBenchRun.Config) : list (list byte) :=
  [list_byte_of_string "--db_root="
     ++ list_byte_of_string (MergeBenchRun.db_root cfg);
   list_byte_of_string "--keys=" ++ to_decimal (MergeBenchRun.key_space cfg);
   list_byte_of_string "--threads=" ++ to_chars (MergeBenchRun.threads cfg);
   list_byte_of_string "--seconds="
     ++ to_chars (MergeBenchRun.seconds_per_phase cfg);
   list_byte_of_string "--mix="
     ++ list_byte_of_string (MergeBenchRun.mix_filter cfg)].

(** The [Put]s of [Prepopulate] from key [first] on, one per status
    obtained. *)
Fixpoint prepopulation (first : Z) (statuses : list Status)
    : list MergeBenchRun.Event :=
  match statuses with
  | [] => []
  | s :: rest =>
      MergeBenchRun.DidPut (mkWriteOptions true) (to_decimal first)
        (MergeBench.Encode 0) s
      :: prepopulation (first + 1) rest
  end.

(** How many events of a kind a trace holds. *)
Fixpoint count {E : Type} (kind : E -> bool) (events : list E) : Z :=
  match events with
  | [] => 0
  | e :: rest => (if kind e then 1 else 0) + count kind rest
  end.

Definition is_get (e : MergeBenchRun.Event) : bool :=
  match e with MergeBenchRun.DidGet _ _ _ => true | _ => false end.

Definition is_put (e : MergeBenchRun.Event) : bool :=
  match e with MergeBenchRun.DidPut _ _ _ _ => true | _ => false end.

Definition is_merge (e : MergeBenchRun.Event) : bool :=
  match e with MergeBenchRun.DidMerge _ _ _ _ => true | _ => false end.

(** The writes of a worker, read along its trace.  A [Put] comes right
    after a [Get] of the same key and stores one more than the counter
    that [Get] found, or 1 when it found none; a [Merge] hands the engine
    the operand 1.  [previous] is the event just before [events]. *)
Fixpoint increments (previous : option MergeBenchRun.Event)
    (events : list MergeBenchRun.Event) : Prop :=
  match events with
  | [] => True
  | e :: rest =>
      match e with
      | MergeBenchRun.DidPut write_options key value _ =>
          match previous with
          | Some (MergeBenchRun.DidGet _ key' (s, found)) =>
              key' = key /\
              disableWAL write_options = false /\
              value
              = MergeBench.Encode
                  (wrap64 ((if ok s then MergeBench.Decode found else 0) + 1))
          | _ => False
          end
      | MergeBenchRun.DidMerge write_options _ operand _ =>
          disableWAL write_options = false /\
          operand = MergeBench.Encode 1
      | _ => True
      end /\
      increments (Some e) rest
  end.

(** A world for merge_bench in which every call succeeds, no key holds a
    value that is not a counter, and the clock is the number of calls made
    so far. *)
Definition counting_world : MergeBenchRun.World :=
  MergeBenchRun.mkWorld
    (fun _ _ => Returned false) (fun _ _ => None) (fun _ _ => None)
    (fun _ _ _ => status_OK)
    (fun _ _ _ _ => status_OK) (fun _ _ _ _ => status_OK)
    (fun h _ _ => (status_OK, MergeBench.Encode (Z.of_nat (length h))))
    (fun h => Z.of_nat (length h))
    (fun _ => 42).

(** A stand-in real distribution over the generator of [lcg_random]: the
    thousandths of the state, scaled to [a, b). *)
Definition lcg_real : StdRandomReal lcg_random :=
  mkStdRandomReal lcg_random
    (fun a b g =>
       ((a + (b - a) * (g mod 1000 # 1000))%Q,
        wrap64 (6364136223846793005 * g + 1442695040888963407))).

(** The counters of a worker are [uint64_t]s. *)
Definition counters_in_range (stats : MergeBenchRun.ThreadStats) : Prop :=
  0 <= MergeBenchRun.reads stats < 2 ^ 64 /\
  0 <= MergeBenchRun.writes stats < 2 ^ 64 /\
  0 <= MergeBenchRun.merge_operands stats < 2 ^ 64.

(** The ideal world with a clock that stands still: every reading is 7. *)
Definition frozen_clock_world : World :=
  mkWorld
    (fun _ _ => None) (fun _ _ => Returned false) (fun _ _ => None)
    (fun _ _ _ => status_OK) (fun _ _ _ => status_OK)
    (fun _ _ _ => status_OK) (fun _ _ => status_OK)
    (fun _ _ _ => status_OK) (fun _ _ => Some 0)
    (fun _ _ _ => status_OK)
    (fun _ => 7).
(** * Properties of merge_bench.cc *)

Section MergeBenchFacts.
Import MergeBench.

Lemma skipn_repeat {A : Type} (x : A) (n m : nat) :
  skipn n (repeat x m) = repeat x (m - n).
Proof.
  revert m. induction n as [| n IH]; intros [| m]; simpl; auto.
Qed.

Lemma le_split_8_0 : le_split sizeof_uint64_t 0 = repeat Byte.x00 8.
Proof. reflexivity. Qed.

Lemma Decode_short (value : list byte) :
  (length value <= 8)%nat -> Decode value = le_combine value.
Proof.
  intros Hlen. unfold Decode, memcpy.
  rewrite Nat.min_l by exact Hlen.
  rewrite firstn_all, le_split_8_0, skipn_repeat.
  apply le_combine_app_0.
Qed.

Lemma Decode_long (value : list byte) :
  (8 <= length value)%nat -> Decode value = le_combine (firstn 8 value).
Proof.
  intros Hlen. unfold Decode, memcpy.
  rewrite Nat.min_r by exact Hlen.
  rewrite le_split_8_0. unfold sizeof_uint64_t.
  rewrite skipn_all2 by (rewrite repeat_length; lia).
  now rewrite app_nil_r.
Qed.

Lemma Decode_firstn (value : list byte) :
  Decode value = le_combine (firstn 8 value).
Proof.
  destruct (Nat.le_gt_cases (length value) 8) as [H | H].
  - rewrite firstn_all2 by exact H. now apply Decode_short.
  - apply Decode_long. lia.
Qed.

Lemma Decode_range (value : list byte) : 0 <= Decode value < 2 ^ 64.
Proof.
  rewrite Decode_firstn.
  pose proof (le_combine_bound (firstn 8 value)) as [Hlo Hhi].
  pose proof (firstn_le_length 8 value) as Hlen.
  split; [exact Hlo |].
  eapply Z.lt_le_trans; [exact Hhi |].
  apply Z.pow_le_mono_r; lia.
Qed.

Lemma Encode_le_split (v : Z) : Encode v = le_split 8 v.
Proof.
  unfold Encode, memcpy, sizeof_uint64_t.
  rewrite skipn_all2 by (rewrite repeat_length; lia).
  rewrite app_nil_r.
  apply firstn_all2. rewrite length_le_split. lia.
Qed.

Lemma Encode_length (v : Z) : length (Encode v) = 8%nat.
Proof. rewrite Encode_le_split. apply length_le_split. Qed.

Lemma Decode_Encode_wrap (v : Z) : Decode (Encode v) = wrap64 v.
Proof.
  rewrite Decode_short by (rewrite Encode_length; lia).
  rewrite Encode_le_split, le_combine_split. reflexivity.
Qed.

Lemma Encode_wrap64 (v : Z) : Encode (wrap64 v) = Encode v.
Proof.
  rewrite !Encode_le_split. symmetry. apply (le_split_mod v 8).
Qed.

Lemma Encode_Decode_short (value : list byte) :
  (length value <= 8)%nat ->
  Encode (Decode value) = value ++ repeat Byte.x00 (8 - length value).
Proof.
  intros Hlen. rewrite Encode_le_split, Decode_short by exact Hlen.
  rewrite <- (le_combine_app_0 value (8 - length value)).
  apply split_le_combine'.
  rewrite length_app, repeat_length. lia.
Qed.

End MergeBenchFacts.

Section MergeBenchClaims.
Import MergeBench.

Lemma wrap64_idem (x : Z) : wrap64 (wrap64 x) = wrap64 x.
Proof. unfold wrap64. apply Z.mod_mod. lia. Qed.

Lemma wrap64_small (x : Z) : 0 <= x < 2 ^ 64 -> wrap64 x = x.
Proof. intros H. unfold wrap64. now apply Z.mod_small. Qed.

Lemma wrap64_add_l (x y : Z) : wrap64 (wrap64 x + y) = wrap64 (x + y).
Proof. unfold wrap64. now rewrite Zplus_mod_idemp_l. Qed.

Lemma accumulate_wrap (operands : list (list byte)) (acc : Z) :
  wrap64
    (fold_left (fun accumulator operand => wrap64 (accumulator + Decode operand))
       operands acc)
  = wrap64 (acc + fold_right Z.add 0 (map Decode operands)).
Proof.
  revert acc. induction operands as [| o os IH]; intros acc; simpl.
  - now rewrite Z.add_0_r.
  - rewrite IH, wrap64_add_l. f_equal. lia.
Qed.

Lemma FullMergeV2_value (merge_in : MergeOperationInput)
    (merge_out : MergeOperationOutput) :
  FullMergeV2 merge_in merge_out
  = (true,
     mkMergeOut
       (Encode (decoded_sum (existing_value merge_in) (operand_list merge_in)))).
Proof.
  unfold FullMergeV2, decoded_sum. do 2 f_equal.
  rewrite <- Encode_wrap64, accumulate_wrap, Encode_wrap64.
  destruct (existing_value merge_in) as [v |]; [| reflexivity].
  rewrite <- Encode_wrap64, wrap64_add_l, Encode_wrap64. reflexivity.
Qed.

Lemma sum_of_ones (operands : list (list byte)) :
  Forall (fun operand => Decode operand = 1) operands ->
  fold_right Z.add 0 (map Decode operands) = Z.of_nat (length operands).
Proof.
  induction 1 as [| o os Ho _ IH]; [reflexivity |].
  cbn [map fold_right length]. rewrite Ho, IH. lia.
Qed.

Lemma decoded_sum_nonneg (base : option (list byte))
    (operands : list (list byte)) : 0 <= decoded_sum base operands.
Proof.
  unfold decoded_sum.
  assert (0 <= fold_right Z.add 0 (map Decode operands)).
  { induction operands as [| o os IH]; cbn [map fold_right]; [lia |].
    pose proof (Decode_range o). lia. }
  destruct base as [v |]; [pose proof (Decode_range v) |]; lia.
Qed.

(** C2. Full merge returns (with success) the encoding of the decoded base
    (0 when absent) plus all decoded operands; the stored counter is that
    sum in 64-bit arithmetic, hence the sum itself whenever it fits.  Partial
    merge refuses whatever its arguments and leaves its output untouched.
    With a base of 0 (or none) and operands that each decode to 1, the
    resolved value is the number of operands. *)
Theorem FullMergeV2_folds_all_operands
    (merge_in : MergeOperationInput) (merge_out : MergeOperationOutput)
    (key left_operand right_operand new_value0 : list byte) :
  let total := decoded_sum (existing_value merge_in) (operand_list merge_in) in
  let resolved := new_value (snd (FullMergeV2 merge_in merge_out)) in
  FullMergeV2 merge_in merge_out = (true, mkMergeOut (Encode total)) /\
  Decode resolved = wrap64 total /\
  (total < 2 ^ 64 -> Decode resolved = total) /\
  PartialMerge key left_operand right_operand new_value0 = (false, new_value0) /\
  ((existing_value merge_in = None \/
    exists base, existing_value merge_in = Some base /\ Decode base = 0) ->
   Forall (fun operand => Decode operand = 1) (operand_list merge_in) ->
   Z.of_nat (length (operand_list merge_in)) < 2 ^ 64 ->
   Decode resolved = Z.of_nat (length (operand_list merge_in))).
Proof.
  intros total resolved.
  assert (Hres : Decode resolved = wrap64 total).
  { subst resolved. rewrite FullMergeV2_value. cbn [snd new_value].
    apply Decode_Encode_wrap. }
  assert (Hnonneg : 0 <= total) by apply decoded_sum_nonneg.
  split; [apply FullMergeV2_value |].
  split; [exact Hres |].
  split; [intros Hlt; rewrite Hres; apply wrap64_small; lia |].
  split; [reflexivity |].
  intros Hbase Hones Hlen.
  assert (Htot : total = Z.of_nat (length (operand_list merge_in))).
  { subst total. unfold decoded_sum. rewrite (sum_of_ones _ Hones).
    destruct Hbase as [-> | (base & -> & Hb)]; cbn beta iota; lia. }
  rewrite Hres, Htot. apply wrap64_small. lia.
Qed.

Lemma FullMergeV2_folds_all_operands_witness :
  Decode
    (new_value
       (snd (FullMergeV2
               (mkMergeIn (Some (Encode 0)) [Encode 1; Encode 1; Encode 1])
               (mkMergeOut []))))
  = 3.
Proof.
  destruct (FullMergeV2_folds_all_operands
              (mkMergeIn (Some (Encode 0)) [Encode 1; Encode 1; Encode 1])
              (mkMergeOut []) [] [] [] [])
    as (_ & _ & _ & _ & H).
  apply H.
  - right. exists (Encode 0). split; reflexivity.
  - repeat constructor.
  - simpl. lia.
Defined.

(** C3. The filter "50/50" selects exactly the one entry of read ratio
    0.50; the empty filter selects the three catalogue entries in catalogue
    order; a non-empty filter that names no catalogue entry throws the
    unknown-mix error. *)
Theorem SelectWorkloads_lookup (filter : string) :
  SelectWorkloads "50/50" = Returned [mkWorkload "50/50" 0.50] /\
  SelectWorkloads ""
  = Returned [mkWorkload "10/90" 0.10; mkWorkload "50/50" 0.50;
              mkWorkload "90/10" 0.90] /\
  (filter <> ""%string -> ~ In filter (map name kWorkloads) ->
   SelectWorkloads filter
   = Threw ("Unknown workload mix filter: " ++ filter)).
Proof.
  split; [reflexivity |]. split; [reflexivity |].
  intros Hne Hnot. unfold SelectWorkloads.
  destruct (String.eqb_spec filter "") as [-> | _]; [now elim Hne |].
  cbn [kWorkloads fold_left name].
  destruct (String.eqb_spec "10/90" filter) as [<- | _];
    [elim Hnot; simpl; auto |].
  destruct (String.eqb_spec "50/50" filter) as [<- | _];
    [elim Hnot; simpl; auto |].
  destruct (String.eqb_spec "90/10" filter) as [<- | _];
    [elim Hnot; simpl; auto |].
  reflexivity.
Qed.

Lemma SelectWorkloads_lookup_witness :
  SelectWorkloads "not-a-mix"
  = Threw "Unknown workload mix filter: not-a-mix".
Proof.
  destruct (SelectWorkloads_lookup "not-a-mix") as (_ & _ & H).
  apply H.
  - discriminate.
  - simpl. intros [H1 | [H1 | [H1 | []]]]; discriminate H1.
Defined.

(** C10. Encoding then decoding a 64-bit value gives it back; an encoding
    has exactly 8 bytes; decoding is defined on every slice and yields a
    64-bit value; on a slice shorter than 8 bytes it reads the bytes that
    are there as the low-order bytes and takes the missing high-order bytes
    to be zero (re-encoding pads the slice with NULs); on a longer slice it
    reads the first 8 bytes. *)
Theorem Decode_Encode_roundtrip (v : Z) (value : list byte) :
  (0 <= v < 2 ^ 64 -> Decode (Encode v) = v) /\
  length (Encode v) = 8%nat /\
  0 <= Decode value < 2 ^ 64 /\
  ((length value < 8)%nat ->
   Decode value = Decode (value ++ repeat Byte.x00 (8 - length value)) /\
   Decode value < 2 ^ (8 * Z.of_nat (length value)) /\
   Encode (Decode value) = value ++ repeat Byte.x00 (8 - length value)) /\
  Decode value = Decode (firstn 8 value).
Proof.
  split; [intros Hv; rewrite Decode_Encode_wrap; now apply wrap64_small |].
  split; [apply Encode_length |].
  split; [apply Decode_range |].
  split.
  - intros Hlen. split; [| split].
    + rewrite (Decode_short value) by lia.
      rewrite Decode_short by (rewrite length_app, repeat_length; lia).
      symmetry. apply le_combine_app_0.
    + rewrite Decode_short by lia. apply le_combine_bound.
    + apply Encode_Decode_short. lia.
  - rewrite (Decode_firstn value), (Decode_firstn (firstn 8 value)).
    now rewrite firstn_firstn, Nat.min_id.
Qed.

Lemma Decode_Encode_roundtrip_witness :
  Decode (Encode 258) = 258 /\
  Encode (Decode [Byte.x02; Byte.x01])
  = [Byte.x02; Byte.x01] ++ repeat Byte.x00 6.
Proof.
  destruct (Decode_Encode_roundtrip 258 [Byte.x02; Byte.x01])
    as (H1 & _ & _ & H4 & _).
  split; [apply H1; lia | apply H4; simpl; lia].
Defined.

End MergeBenchClaims.

(** * Properties of space_amp.cc *)

(** ** Decimal rendering *)

Section DecimalFacts.

Lemma unsigned_digit_char (d : Z) :
  0 <= d < 10 -> byte.unsigned (digit_char d) = 48 + d.
Proof.
  intros Hd. unfold digit_char.
  rewrite byte.unsigned_of_Z. unfold byte.wrap.
  apply Z.mod_small. lia.
Qed.

Lemma decimal_value_app (front back : list byte) :
  decimal_value (front ++ back)
  = fold_left (fun acc c => 10 * acc + (byte.unsigned c - 48)) back
      (decimal_value front).
Proof. unfold decimal_value. apply fold_left_app. Qed.

Lemma decimal_value_snoc (front : list byte) (c : byte) :
  decimal_value (front ++ [c])
  = 10 * decimal_value front + (byte.unsigned c - 48).
Proof. now rewrite decimal_value_app. Qed.

Lemma decimal_value_zeros (n : nat) (text : list byte) :
  decimal_value (repeat (digit_char 0) n ++ text) = decimal_value text.
Proof.
  induction n as [| n IH]; [reflexivity |].
  cbn [repeat app]. unfold decimal_value in *. cbn [fold_left].
  rewrite unsigned_digit_char by lia. exact IH.
Qed.

(** The digits pushed in front of [acc] denote [x]; there are between one
    and [fuel] of them. *)
Lemma decimal_digits_spec (fuel : nat) :
  forall x acc, 0 <= x < 10 ^ Z.of_nat fuel -> (0 < fuel)%nat ->
  exists digits,
    decimal_digits fuel x acc = digits ++ acc /\
    Forall is_decimal_digit digits /\
    decimal_value digits = x /\
    (1 <= length digits <= fuel)%nat.
Proof.
  induction fuel as [| fuel IH]; intros x acc Hx Hfuel; [lia |].
  cbn [decimal_digits].
  assert (Hd : 0 <= x mod 10 < 10) by (apply Z.mod_pos_bound; lia).
  assert (Hdigit : is_decimal_digit (digit_char (x mod 10))).
  { unfold is_decimal_digit. rewrite unsigned_digit_char by exact Hd. lia. }
  destruct (Z.eqb_spec (x / 10) 0) as [Hq | Hq].
  - exists [digit_char (x mod 10)]. repeat split.
    + now constructor.
    + unfold decimal_value. cbn [fold_left].
      rewrite unsigned_digit_char by exact Hd.
      pose proof (Z.div_mod x 10). lia.
    + simpl. lia.
    + simpl. lia.
  - assert (Hfuel' : (0 < fuel)%nat).
    { destruct fuel; [| lia]. change (10 ^ Z.of_nat 1) with 10 in Hx.
      elim Hq. apply Z.div_small. lia. }
    assert (Hx' : 0 <= x / 10 < 10 ^ Z.of_nat fuel).
    { split; [apply Z.div_pos; lia |].
      apply Z.div_lt_upper_bound; [lia |].
      rewrite Nat2Z.inj_succ, Z.pow_succ_r in Hx by lia. lia. }
    destruct (IH (x / 10) (digit_char (x mod 10) :: acc) Hx' Hfuel')
      as (digits & Heq & Hall & Hval & Hlen).
    exists (digits ++ [digit_char (x mod 10)]). repeat split.
    + rewrite Heq, <- app_assoc. reflexivity.
    + apply Forall_app. split; [exact Hall | now constructor].
    + rewrite decimal_value_snoc, Hval, unsigned_digit_char by exact Hd.
      pose proof (Z.div_mod x 10). lia.
    + rewrite length_app. simpl. lia.
    + rewrite length_app. simpl. lia.
Qed.

(** Whatever the argument, the rendering has at most [fuel] characters. *)
Lemma decimal_digits_length (fuel : nat) :
  forall x acc,
    (length (decimal_digits fuel x acc) <= fuel + length acc)%nat.
Proof.
  induction fuel as [| fuel IH]; intros x acc; cbn [decimal_digits]; [lia |].
  destruct (x / 10 =? 0).
  - simpl. lia.
  - specialize (IH (x / 10) (digit_char (x mod 10) :: acc)).
    simpl in IH. lia.
Qed.

Lemma to_decimal_spec (x : Z) :
  0 <= x < 2 ^ 64 ->
  Forall is_decimal_digit (to_decimal x) /\
  decimal_value (to_decimal x) = x /\
  (1 <= length (to_decimal x) <= 20)%nat.
Proof.
  intros Hx. unfold to_decimal.
  destruct (decimal_digits_spec 20 x []) as (digits & Heq & Hall & Hval & Hlen);
    [change (10 ^ Z.of_nat 20) with 100000000000000000000; lia | lia |].
  rewrite Heq, app_nil_r. auto.
Qed.

Lemma to_decimal_length (x : Z) : (length (to_decimal x) <= 20)%nat.
Proof.
  unfold to_decimal. pose proof (decimal_digits_length 20 x []) as H.
  cbn [length] in H. lia.
Qed.

End DecimalFacts.

(** ** The generators *)

Section GeneratorFacts.
Import SpaceAmp.

Lemma format_032llu_length (x : Z) : length (format_032llu x) = 32%nat.
Proof.
  unfold format_032llu. pose proof (to_decimal_length x).
  rewrite length_app, repeat_length. lia.
Qed.

(** On a 33-byte buffer [FormatKey] overwrites everything: 32 characters
    and the terminating NUL. *)
Lemma FormatKey_full (index : Z) (buffer : list byte) :
  length buffer = S kKeySize ->
  FormatKey index buffer = format_032llu index ++ [Byte.x00].
Proof.
  intros Hlen. unfold FormatKey, snprintf. rewrite Hlen.
  rewrite firstn_all2 by (rewrite format_032llu_length; unfold kKeySize; lia).
  rewrite skipn_all2; [apply app_nil_r |].
  rewrite length_app, format_032llu_length, Hlen. simpl. unfold kKeySize. lia.
Qed.

Lemma FormatKey_length (index : Z) (buffer : list byte) :
  length buffer = S kKeySize -> length (FormatKey index buffer) = S kKeySize.
Proof.
  intros Hlen. rewrite FormatKey_full by exact Hlen.
  rewrite length_app, format_032llu_length. reflexivity.
Qed.

Lemma FormatKey_slice (index : Z) (buffer : list byte) :
  length buffer = S kKeySize ->
  firstn kKeySize (FormatKey index buffer) = format_032llu index.
Proof.
  intros Hlen. rewrite FormatKey_full by exact Hlen.
  rewrite firstn_app, format_032llu_length.
  replace (kKeySize - 32)%nat with 0%nat by reflexivity.
  rewrite firstn_all2 by (rewrite format_032llu_length; unfold kKeySize; lia).
  apply app_nil_r.
Qed.

Lemma Key_eq (index : Z) : Key index = format_032llu index.
Proof. unfold Key. apply FormatKey_slice. apply repeat_length. Qed.

Lemma kEntryCount_value : kEntryCount = 33554432.
Proof. reflexivity. Qed.

(** The [static_assert] of the source. *)
Lemma payload_divisible : kRawPayloadBytes mod Z.of_nat kEntryBytes = 0.
Proof. reflexivity. Qed.

End GeneratorFacts.

Section FillValueFacts.
Import SpaceAmp Plans.

(** After [n] iterations from offset [i] the offsets [i .. i+n-1] hold the
    pattern and the rest of the buffer is as it was. *)
Lemma FillValue_loop_spec (n : nat) :
  forall i index (buffer : list byte),
    (i + n <= length buffer)%nat ->
    FillValue_loop n i index buffer
    = firstn i buffer ++ map (value_char index) (seq i n)
      ++ skipn (i + n) buffer.
Proof.
  induction n as [| n IH]; intros i index buffer Hlen; cbn [FillValue_loop].
  - rewrite Nat.add_0_r. cbn [seq map app]. symmetry. apply firstn_skipn.
  - rewrite IH by (rewrite length_insert; lia).
    fold (value_char index i).
    rewrite (take_S_r _ _ (value_char index i))
      by (apply list_lookup_insert_eq; lia).
    rewrite take_insert_ge by lia.
    rewrite drop_insert_lt by lia.
    cbn [seq map]. rewrite <- app_assoc. cbn [app].
    replace (S i + n)%nat with (i + S n)%nat by lia. reflexivity.
Qed.

Lemma FillValue_full (index : Z) (buffer : list byte) :
  length buffer = kValueSize ->
  FillValue index buffer = map (value_char index) (seq 0 kValueSize).
Proof.
  intros Hlen. unfold FillValue.
  rewrite FillValue_loop_spec by lia.
  rewrite skipn_all2 by lia. cbn [firstn app]. apply app_nil_r.
Qed.

Lemma FillValue_length (index : Z) (buffer : list byte) :
  length buffer = kValueSize -> length (FillValue index buffer) = kValueSize.
Proof.
  intros Hlen. rewrite FillValue_full by exact Hlen.
  now rewrite length_map, length_seq.
Qed.

Lemma FillValue_slice (index : Z) (buffer : list byte) :
  length buffer = kValueSize ->
  firstn kValueSize (FillValue index buffer) = Value index.
Proof.
  intros Hlen. unfold Value.
  rewrite (FillValue_full index buffer) by exact Hlen.
  rewrite (FillValue_full index (repeat Byte.x00 kValueSize))
    by apply repeat_length.
  reflexivity.
Qed.

End FillValueFacts.

Section GeneratorClaims.
Import SpaceAmp Plans.

(** C6. For every 64-bit index, so for every index below [kEntryCount],
    the key is 32 characters long, is the decimal rendering of the index
    behind a run of ['0'] characters, consists of decimal digits only and
    denotes the index; this holds whatever the key buffer held before. *)
Theorem FormatKey_renders_index (index : Z) (buffer : list byte) :
  0 <= index < 2 ^ 64 ->
  length buffer = S kKeySize ->
  let key := firstn kKeySize (FormatKey index buffer) in
  length key = 32%nat /\
  key = repeat (digit_char 0) (32 - length (to_decimal index))
        ++ to_decimal index /\
  decimal_value (to_decimal index) = index /\
  Forall is_decimal_digit key /\
  decimal_value key = index.
Proof.
  intros Hindex Hlen key. subst key.
  rewrite FormatKey_slice by exact Hlen.
  destruct (to_decimal_spec index Hindex) as (Hall & Hval & Hdigits).
  split; [apply format_032llu_length |].
  split; [reflexivity |].
  split; [exact Hval |].
  unfold format_032llu. split.
  - apply Forall_app. split; [| exact Hall].
    apply Forall_forall. intros c Hc. apply list_elem_of_In, repeat_spec in Hc. subst c.
    unfold is_decimal_digit. rewrite unsigned_digit_char; lia.
  - rewrite decimal_value_zeros. exact Hval.
Qed.

Lemma FormatKey_renders_index_witness :
  let key := firstn kKeySize
               (FormatKey (kEntryCount - 1) (repeat Byte.xff (S kKeySize))) in
  length key = 32%nat /\ decimal_value key = kEntryCount - 1.
Proof.
  destruct (FormatKey_renders_index (kEntryCount - 1)
              (repeat Byte.xff (S kKeySize)))
    as (H1 & _ & _ & _ & H5).
  - rewrite kEntryCount_value. lia.
  - reflexivity.
  - split; [exact H1 | exact H5].
Defined.

(** C7. For an index below [kEntryCount] and an offset below 96, the byte
    of the generated value at that offset is ['a' + ((index + offset) mod
    26)]; the generated value has 96 bytes and does not depend on what the
    value buffer held before, so it is the same at every call. *)
Theorem FillValue_pattern (index : Z) (j : nat) (buffer buffer' : list byte) :
  0 <= index < kEntryCount ->
  (j < 96)%nat ->
  length buffer = kValueSize ->
  length buffer' = kValueSize ->
  FillValue index buffer !! j
  = Some (byte.of_Z (97 + (index + Z.of_nat j) mod 26)) /\
  byte.unsigned (byte.of_Z (97 + (index + Z.of_nat j) mod 26))
  = 97 + (index + Z.of_nat j) mod 26 /\
  length (FillValue index buffer) = 96%nat /\
  FillValue index buffer' = FillValue index buffer.
Proof.
  intros Hindex Hj Hlen Hlen'.
  rewrite kEntryCount_value in Hindex.
  assert (Hmod : 0 <= (index + Z.of_nat j) mod 26 < 26)
    by (apply Z.mod_pos_bound; lia).
  split; [| split; [| split]].
  - rewrite FillValue_full by exact Hlen.
    rewrite list_lookup_fmap, lookup_seq_lt by (unfold kValueSize; lia).
    cbn [fmap option_fmap option_map Nat.add]. unfold value_char.
    rewrite wrap64_small by lia. reflexivity.
  - rewrite byte.unsigned_of_Z. unfold byte.wrap. apply Z.mod_small. lia.
  - now rewrite FillValue_length.
  - now rewrite !FillValue_full.
Qed.

Lemma FillValue_pattern_witness :
  FillValue 3 (repeat Byte.x00 kValueSize) !! 25%nat
  = Some (byte.of_Z (97 + (3 + Z.of_nat 25) mod 26)) /\
  FillValue 3 (repeat Byte.xff kValueSize)
  = FillValue 3 (repeat Byte.x00 kValueSize).
Proof.
  destruct (FillValue_pattern 3 25 (repeat Byte.x00 kValueSize)
              (repeat Byte.xff kValueSize))
    as (H1 & _ & _ & H4).
  - rewrite kEntryCount_value. lia.
  - lia.
  - reflexivity.
  - reflexivity.
  - split; [exact H1 | exact H4].
Defined.

End GeneratorClaims.

(** ** Throughput *)

Section ThroughputFacts.
Import SpaceAmp Plans.

Lemma effective_seconds_floor (start_ticks end_ticks : Z) :
  (1 # 1000000000 <= effective_seconds start_ticks end_ticks)%Q.
Proof.
  unfold effective_seconds. cbv zeta.
  destruct (Qle_bool _ 0) eqn:Hle.
  - apply Qle_refl.
  - assert (Hpos : ~ ((end_ticks - start_ticks) # steady_clock_ticks_per_second
                      <= 0)%Q).
    { intros H. apply Qle_bool_iff in H. congruence. }
    unfold Qle, steady_clock_ticks_per_second in *. cbn in *. lia.
Qed.

(** The closing arithmetic on two clock readings: the divisor is the
    elapsed time when that is positive and the floor of one nanosecond
    otherwise, so it is never below the floor, and for a positive read-op
    count the quotient is positive and at most the count times 10^9. *)
Lemma throughput_bounds (read_ops start_ticks end_ticks : Z) :
  0 < read_ops ->
  let seconds := effective_seconds start_ticks end_ticks in
  let ops_per_sec := throughput read_ops start_ticks end_ticks in
  (ops_per_sec == inject_Z read_ops / seconds)%Q /\
  (end_ticks - start_ticks <= 0 -> seconds = (1 # 1000000000)%Q) /\
  (0 < end_ticks - start_ticks ->
   seconds = (end_ticks - start_ticks) # steady_clock_ticks_per_second) /\
  (1 # 1000000000 <= seconds)%Q /\
  (0 < ops_per_sec)%Q /\
  (ops_per_sec <= inject_Z (read_ops * 10 ^ 9))%Q.
Proof.
  intros Hops seconds ops_per_sec.
  pose proof (effective_seconds_floor start_ticks end_ticks) as Hfloor.
  fold seconds in Hfloor.
  assert (Hsec : (0 < seconds)%Q).
  { eapply Qlt_le_trans; [| exact Hfloor]. reflexivity. }
  assert (Heq : (ops_per_sec == inject_Z read_ops / seconds)%Q)
    by reflexivity.
  split; [exact Heq |].
  split.
  { intros Hle. subst seconds. unfold effective_seconds. cbv zeta.
    destruct (Qle_bool _ 0) eqn:Hb; [reflexivity |].
    assert (((end_ticks - start_ticks) # steady_clock_ticks_per_second
             <= 0)%Q) as H by (unfold Qle; cbn; lia).
    apply Qle_bool_iff in H. congruence. }
  split.
  { intros Hlt. subst seconds. unfold effective_seconds. cbv zeta.
    destruct (Qle_bool _ 0) eqn:Hb; [| reflexivity].
    apply Qle_bool_iff in Hb. unfold Qle in Hb. cbn in Hb. lia. }
  split; [exact Hfloor |].
  assert (Hr : (0 < inject_Z read_ops)%Q) by (unfold Qlt; cbn; lia).
  split.
  - rewrite Heq. apply Qlt_shift_div_l; [exact Hsec |].
    rewrite Qmult_0_l. exact Hr.
  - rewrite Heq. apply Qle_shift_div_r; [exact Hsec |].
    apply Qle_trans with (inject_Z (read_ops * 10 ^ 9) * (1 # 1000000000))%Q.
    + unfold Qle. cbn. lia.
    + apply Qmult_le_l; [unfold Qlt; cbn; lia | exact Hfloor].
Qed.

End ThroughputFacts.

(** ** Computations and plans *)

Section MonadFacts.

Lemma bind_bind {A B C : Type} (m : M A) (k : A -> M B) (k' : B -> M C) w h :
  bind (bind m k) k' w h = bind m (fun a => bind (k a) k') w h.
Proof. unfold bind. destruct (m w h) as [[a | what] h1]; reflexivity. Qed.

Lemma bind_ext_l {A B : Type} (m m' : M A) (k : A -> M B) w h :
  m w h = m' w h -> bind m k w h = bind m' k w h.
Proof. unfold bind. now intros ->. Qed.

Lemma bind_ext_r {A B : Type} (m : M A) (k k' : A -> M B) w h :
  (forall a h1, k a w h1 = k' a w h1) -> bind m k w h = bind m k' w h.
Proof.
  intros Hk. unfold bind. destruct (m w h) as [[a | what] h1]; auto.
Qed.

Lemma bind_call {A B : Type} (oracle : World -> Trace -> A) (ev : A -> Event)
    (k : A -> M B) w h :
  bind (call oracle ev) k w h = k (oracle w h) w (h ++ [ev (oracle w h)]).
Proof. reflexivity. Qed.

Lemma perform_app (p1 p2 : list Op) w :
  forall h,
    perform (p1 ++ p2) w h = bind (perform p1) (fun _ => perform p2) w h.
Proof.
  induction p1 as [| op rest IH]; intros h; [reflexivity |].
  cbn [app perform]. rewrite bind_bind, !bind_call.
  destruct (ok (ask op w h)); cbn [negb]; [apply IH | reflexivity].
Qed.

Lemma perform_carried (plan : list Op) w :
  forall h, exists events r,
    perform plan w h = (result_of r tt, h ++ events) /\
    carried_out plan events r.
Proof.
  induction plan as [| op rest IH]; intros h.
  - exists [], None. split; [| constructor].
    cbn. now rewrite app_nil_r.
  - cbn [perform]. rewrite bind_call.
    destruct (ok (ask op w h)) eqn:Hok; cbn [negb].
    + destruct (IH (h ++ [event_of op (ask op w h)]))
        as (events & r & Heq & Hcarried).
      exists (event_of op (ask op w h) :: events), r. split.
      * rewrite Heq, <- app_assoc. reflexivity.
      * now constructor.
    + exists [event_of op (ask op w h)], (Some (failure op (ask op w h))).
      split; [reflexivity | now constructor].
Qed.

(** When the world answers every call of the plan with success, the whole
    plan is carried out. *)
Lemma perform_succeeds (plan : list Op) w :
  (forall op h, In op plan -> ok (ask op w h) = true) ->
  forall h, exists events,
    perform plan w h = (Returned tt, h ++ events) /\
    carried_out plan events None.
Proof.
  induction plan as [| op rest IH]; intros Hall h.
  - exists []. split; [| constructor]. cbn. now rewrite app_nil_r.
  - cbn [perform]. rewrite bind_call.
    assert (Hok : ok (ask op w h) = true) by (apply Hall; now left).
    rewrite Hok. cbn [negb].
    destruct (IH (fun op' h' Hin => Hall op' h' (or_intror Hin))
                (h ++ [event_of op (ask op w h)]))
      as (events & Heq & Hcarried).
    exists (event_of op (ask op w h) :: events). split.
    + rewrite Heq, <- app_assoc. reflexivity.
    + now constructor.
Qed.

(** What [carried_out] says, call by call: the events are the plan's calls
    in plan order, one per status obtained, and only the last status can be
    a failure. *)
Lemma carried_out_statuses (plan : list Op) events r :
  carried_out plan events r ->
  exists statuses,
    events = zip_with event_of plan statuses /\
    (length statuses <= length plan)%nat /\
    match r with
    | None =>
        length statuses = length plan /\
        Forall (fun s => ok s = true) statuses
    | Some what =>
        exists before s op,
          statuses = before ++ [s] /\
          Forall (fun s => ok s = true) before /\
          ok s = false /\
          nth_error plan (length before) = Some op /\
          what = failure op s
    end.
Proof.
  induction 1 as [| op s rest events r Hok _ IH | op s rest Hok].
  - exists []. repeat split; constructor.
  - destruct IH as (statuses & Hev & Hlen & Hr).
    exists (s :: statuses). split; [cbn; now rewrite Hev |].
    split; [cbn; lia |].
    destruct r as [what |].
    + destruct Hr as (before & s' & op' & -> & Hall & Hfail & Hnth & ->).
      exists (s :: before), s', op'. repeat split; auto.
    + destruct Hr as [Hl Hall]. split; [cbn; lia | now constructor].
  - exists [s]. split; [now destruct rest |]. split; [cbn; lia |].
    exists [], s, op. repeat split; auto.
Qed.

End MonadFacts.

(** ** The bulk load *)

Section BulkLoadFacts.
Import SpaceAmp Plans.

(** The loop followed by the final write carries out the writes of the
    batches cut from the pending batch and the entries still to come. *)
Lemma RunOnce_loop_perform (n : nat) :
  forall i write_options key_buffer value_buffer batch w h,
    length key_buffer = S kKeySize ->
    length value_buffer = kValueSize ->
    bind (RunOnce_loop n i write_options key_buffer value_buffer batch)
      (final_write write_options) w h
    = perform
        (map (write_op write_options)
           (List.chunk' batch_size (dataset n i) batch)) w h.
Proof.
  induction n as [| n IH];
    intros i write_options key_buffer value_buffer batch w h Hkb Hvb.
  - cbn [RunOnce_loop dataset List.chunk'].
    destruct batch as [| e batch]; reflexivity.
  - cbn [RunOnce_loop dataset List.chunk'].
    rewrite FormatKey_slice, FillValue_slice by assumption.
    rewrite <- Key_eq.
    destruct (Nat.ltb_spec (length (batch ++ [(Key i, Value i)])) batch_size)
      as [Hlt | Hge].
    + destruct (Nat.leb_spec batch_size
                  (length (batch ++ [(Key i, Value i)]))) as [Hle | _];
        [lia |].
      apply IH; [now apply FormatKey_length | now apply FillValue_length].
    + destruct (Nat.leb_spec batch_size
                  (length (batch ++ [(Key i, Value i)]))) as [_ | Hgt];
        [| lia].
      cbn [map perform]. rewrite bind_bind. unfold DB_Write.
      rewrite !bind_call. cbn [ask write_op event_of failure].
      destruct (ok (db_Write w h write_options
                      (batch ++ [(Key i, Value i)]))); cbn [negb];
        [| reflexivity].
      apply IH; [now apply FormatKey_length | now apply FillValue_length].
Qed.

Lemma RunOnce_load_perform (entry_count : Z) w h :
  RunOnce_load entry_count w h = perform (load_plan entry_count) w h.
Proof.
  unfold RunOnce_load, load_plan, batches, List.chunk.
  rewrite perform_app.
  rewrite <- (bind_ext_l _ _ _ w h
                (RunOnce_loop_perform (Z.to_nat entry_count) 0
                   (mkWriteOptions true) (repeat Byte.x00 (kKeySize + 1))
                   (repeat Byte.x00 kValueSize) [] w h
                   (repeat_length _ _) (repeat_length _ _))).
  rewrite bind_bind. reflexivity.
Qed.






End BulkLoadFacts.

Section BulkLoadClaims.
Import SpaceAmp Plans.



Lemma load_plan_unfold (entry_count : Z) :
  load_plan entry_count
  = map (write_op (mkWriteOptions true)) (batches entry_count)
    ++ [flush_op (mkFlushOptions true); compact_op None None].
Proof. reflexivity. Qed.



End BulkLoadClaims.

(** ** The read prober *)

Section ProberFacts.
Import SpaceAmp Plans.
Context {R : StdRandom}.

Lemma BenchmarkReads_loop_perform (n : nat) :
  forall read_options rng key_buffer w h,
    length key_buffer = S kKeySize ->
    BenchmarkReads_loop n read_options rng key_buffer w h
    = perform (map (get_op read_options) (map Key (draws n rng))) w h.
Proof.
  induction n as [| n IH]; intros read_options rng key_buffer w h Hkb;
    [reflexivity |].
  cbn [BenchmarkReads_loop draws].
  destruct (uniform_int_distribution 0 (kEntryCount - 1) rng)
    as [key_index rng'].
  cbn [map perform]. rewrite FormatKey_slice, <- Key_eq by exact Hkb.
  unfold DB_Get. rewrite !bind_call. cbn [ask get_op event_of failure].
  destruct (ok (db_Get w h read_options (Key key_index))); cbn [negb];
    [| reflexivity].
  apply IH. now apply FormatKey_length.
Qed.

(** [BenchmarkReads] with a non-zero count, call by call. *)
Lemma BenchmarkReads_unfold db_path template_options read_ops w h :
  read_ops <> 0 ->
  let options := read_only_options template_options in
  let s := db_OpenForReadOnly w h options db_path in
  let h0 := h ++ [EvOpenForReadOnly options db_path s] in
  let t0 := steady_clock_now w h0 in
  let plan :=
    map (get_op (mkReadOptions false false))
      (map Key (probe_indices read_ops)) in
  BenchmarkReads db_path template_options read_ops w h
  = if ok s then
      match perform plan w (h0 ++ [EvNow t0]) with
      | (Returned _, h2) =>
          (Returned (mkReadStats
                       (throughput read_ops t0 (steady_clock_now w h2))),
           (h2 ++ [EvNow (steady_clock_now w h2)]) ++ [EvClose])
      | (Threw what, h2) => (Threw what, h2 ++ [EvClose])
      end
    else
      (Threw ("Failed to reopen RocksDB for reads at " ++ db_path ++ ": "
              ++ ToString s), h0).
Proof.
  intros Hops. cbv zeta. unfold BenchmarkReads.
  destruct (Z.eqb_spec read_ops 0) as [H0 | _]; [contradiction |].
  unfold DB_OpenForReadOnly. rewrite bind_call.
  destruct (ok (db_OpenForReadOnly w h (read_only_options template_options)
                  db_path)); cbn [negb]; [| reflexivity].
  unfold finally, now. rewrite bind_call.
  unfold bind at 1.
  rewrite BenchmarkReads_loop_perform by apply repeat_length.
  fold (probe_indices read_ops).
  destruct (perform _ w _) as [[[] | what] h2]; reflexivity.
Qed.

Lemma draws_length (n : nat) : forall rng, length (draws n rng) = n.
Proof.
  induction n as [| n IH]; intros rng; [reflexivity |].
  cbn [draws]. destruct (uniform_int_distribution _ _ rng) as [i rng'].
  cbn [length]. now rewrite IH.
Qed.

Lemma draws_in_range (n : nat) :
  draws_within_bounds R ->
  forall rng, Forall (fun i => 0 <= i < kEntryCount) (draws n rng).
Proof.
  intros Hdist. induction n as [| n IH]; intros rng; [constructor |].
  cbn [draws].
  pose proof (Hdist 0 (kEntryCount - 1) rng) as Hrange.
  destruct (uniform_int_distribution 0 (kEntryCount - 1) rng) as [i rng'].
  cbn [fst] in Hrange. constructor; [| apply IH].
  rewrite kEntryCount_value in *. lia.
Qed.

(** The point reads recorded by a carried-out read plan. *)
Lemma carried_out_reads read_options (keys : list (list byte)) :
  forall events r,
    carried_out (map (get_op read_options) keys) events r ->
    map fst (reads events) = firstn (length (reads events)) keys /\
    (length (reads events) <= length keys)%nat /\
    Forall inner_event events /\
    match r with
    | None =>
        length (reads events) = length keys /\
        Forall (fun ks => ok (snd ks) = true) (reads events)
    | Some what =>
        exists before k s,
          reads events = before ++ [(k, s)] /\
          Forall (fun ks => ok (snd ks) = true) before /\
          ok s = false /\
          what = ("Read failed: " ++ ToString s)%string
    end.
Proof.
  induction keys as [| key keys IH]; intros events r Hc; cbn [map] in Hc.
  - inversion Hc; subst. cbn. repeat split; constructor.
  - inversion Hc as [| op s rest events' r' Hok Hc' | op s rest Hok]; subst.
    + destruct (IH _ _ Hc') as (Hkeys & Hlen & Hinner & Hr).
      cbn [event_of get_op reads flat_map app length map fst firstn].
      fold (reads events').
      split; [now rewrite Hkeys at 1 |].
      split; [lia |].
      split; [constructor; [exact I | exact Hinner] |].
      destruct r as [what |].
      * destruct Hr as (before & k & s' & Heq & Hall & Hfail & ->).
        exists ((key, s) :: before), k, s'. rewrite Heq.
        repeat split; auto.
      * destruct Hr as [Hl Hall]. split; [lia | now constructor].
    + cbn. split; [reflexivity |]. split; [lia |].
      split; [repeat constructor |].
      exists [], key, s. repeat split; auto.
Qed.

Lemma reads_app (front back : Trace) :
  reads (front ++ back) = reads front ++ reads back.
Proof. unfold reads. apply flat_map_app. Qed.

End ProberFacts.

Section ProberClaims.
Import SpaceAmp Plans.
Context {R : StdRandom}.

(** What one call of [BenchmarkReads] with a non-zero count does. *)
Lemma BenchmarkReads_spec db_path template_options read_ops w h :
  read_ops <> 0 ->
  exists events out,
    BenchmarkReads db_path template_options read_ops w h
    = (out, h ++ events) /\
    Forall inner_event events /\
    map fst (reads events)
    = firstn (length (reads events)) (map Key (probe_indices read_ops)) /\
    (length (reads events) <= length (probe_indices read_ops))%nat /\
    (forall stats,
       out = Returned stats ->
       length (reads events) = length (probe_indices read_ops) /\
       Forall (fun ks => ok (snd ks) = true) (reads events)) /\
    (forall what,
       out = Threw what ->
       reads events = [] \/
       exists before k s,
         reads events = before ++ [(k, s)] /\
         Forall (fun ks => ok (snd ks) = true) before /\
         ok s = false /\
         what = ("Read failed: " ++ ToString s)%string) /\
    (ok (db_OpenForReadOnly w h (read_only_options template_options) db_path)
     = true ->
     (forall h' key,
        In key (map Key (probe_indices read_ops)) ->
        ok (db_Get w h' (mkReadOptions false false) key) = true) ->
     exists stats, out = Returned stats).
Proof.
  intros Hops.
  rewrite (BenchmarkReads_unfold db_path template_options read_ops w h Hops).
  cbv zeta.
  set (options := read_only_options template_options).
  set (s := db_OpenForReadOnly w h options db_path).
  set (h0 := h ++ [EvOpenForReadOnly options db_path s]).
  set (t0 := steady_clock_now w h0).
  set (keys := map Key (probe_indices read_ops)).
  set (plan := map (get_op (mkReadOptions false false)) keys).
  destruct (ok s) eqn:Hs.
  - destruct (perform_carried plan w (h0 ++ [EvNow t0]))
      as (gets & r & Heq & Hcarried).
    destruct (carried_out_reads _ _ _ _ Hcarried)
      as (Hkeys & Hlen & Hinner & Hr).
    assert (Hklen : length keys = length (probe_indices read_ops))
      by apply length_map.
    destruct r as [what |]; cbn [result_of] in Heq; rewrite Heq.
    + exists ([EvOpenForReadOnly options db_path s; EvNow t0] ++ gets
              ++ [EvClose]), (Threw what).
      assert (Hreads : reads ([EvOpenForReadOnly options db_path s; EvNow t0]
                              ++ gets ++ [EvClose]) = reads gets).
      { rewrite !reads_app. cbn. apply app_nil_r. }
      rewrite Hreads.
      split; [subst h0; now rewrite <- !app_assoc |].
      split.
      { repeat (apply Forall_app; split); auto; repeat constructor. }
      split; [exact Hkeys |]. split; [lia |].
      split; [discriminate |].
      split.
      { intros what' [= <-]. right. exact Hr. }
      intros _ Hall.
      destruct (perform_succeeds plan w) with (h := h0 ++ [EvNow t0])
        as (gets' & Heq' & _).
      { intros op h' Hin. subst plan.
        apply in_map_iff in Hin. destruct Hin as (key & <- & Hkey).
        cbn [ask get_op]. now apply Hall. }
      rewrite Heq' in Heq. discriminate.
    + exists ([EvOpenForReadOnly options db_path s; EvNow t0] ++ gets
              ++ [EvNow (steady_clock_now w ((h0 ++ [EvNow t0]) ++ gets));
                  EvClose]),
        (Returned (mkReadStats
                     (throughput read_ops t0
                        (steady_clock_now w ((h0 ++ [EvNow t0]) ++ gets))))).
      assert (Hreads :
                reads ([EvOpenForReadOnly options db_path s; EvNow t0] ++ gets
                       ++ [EvNow (steady_clock_now w
                                    ((h0 ++ [EvNow t0]) ++ gets)); EvClose])
                = reads gets).
      { rewrite !reads_app. cbn. apply app_nil_r. }
      rewrite Hreads.
      split; [subst h0; now rewrite <- !app_assoc |].
      split.
      { repeat (apply Forall_app; split); auto; repeat constructor. }
      split; [exact Hkeys |]. split; [lia |].
      split; [intros stats _; destruct Hr; split; [lia | assumption] |].
      split; [discriminate |].
      intros _ _. eexists. reflexivity.
  - exists [EvOpenForReadOnly options db_path s],
      (Threw ("Failed to reopen RocksDB for reads at " ++ db_path ++ ": "
              ++ ToString s)).
    split; [reflexivity |].
    split; [repeat constructor |].
    split; [reflexivity |]. split; [cbn; lia |].
    split; [discriminate |].
    split; [intros what _; now left |].
    discriminate.
Qed.

Lemma IsNotFound_not_ok (s : Status) : IsNotFound s = true -> ok s = false.
Proof. unfold IsNotFound, ok. destruct (code s); congruence. Qed.

Lemma probe_indices_length (read_ops : Z) :
  0 <= read_ops -> Z.of_nat (length (probe_indices read_ops)) = read_ops.
Proof.
  intros Hops. unfold probe_indices. rewrite draws_length. now apply Z2Nat.id.
Qed.

(** C4. With a positive read-op count R the prober issues at most R point
    reads, and exactly R when it returns, every one of them successful (so
    none not-found).  A read whose status is not OK, not-found included, is
    the last one issued and makes the prober throw "Read failed: " and the
    status text.  When the reopen succeeds and every key of the key space
    [Key 0 .. Key (kEntryCount - 1)] is found, the prober returns. *)
Theorem BenchmarkReads_every_read_must_succeed
    db_path template_options read_ops w h :
  0 < read_ops ->
  exists events out,
    BenchmarkReads db_path template_options read_ops w h
    = (out, h ++ events) /\
    Z.of_nat (length (reads events)) <= read_ops /\
    (forall stats,
       out = Returned stats ->
       Z.of_nat (length (reads events)) = read_ops /\
       Forall (fun ks => ok (snd ks) = true /\ IsNotFound (snd ks) = false)
         (reads events)) /\
    (forall k s,
       In (k, s) (reads events) ->
       ok s = false \/ IsNotFound s = true ->
       out = Threw ("Read failed: " ++ ToString s) /\
       exists before,
         reads events = before ++ [(k, s)] /\
         Forall (fun ks => ok (snd ks) = true) before) /\
    (draws_within_bounds R ->
     (forall h' o p, ok (db_OpenForReadOnly w h' o p) = true) ->
     (forall h' read_options i,
        0 <= i < kEntryCount ->
        ok (db_Get w h' read_options (Key i)) = true) ->
     exists stats, out = Returned stats).
Proof.
  intros Hops.
  destruct (BenchmarkReads_spec db_path template_options read_ops w h)
    as (events & out & Heq & _ & _ & Hlen & Hret & Hthrow & Hsucc); [lia |].
  pose proof (probe_indices_length read_ops ltac:(lia)) as Hn.
  exists events, out.
  split; [exact Heq |].
  split; [lia |].
  split.
  { intros stats Hout. destruct (Hret stats Hout) as [Hl Hall].
    split; [lia |].
    eapply Forall_impl; [exact Hall |].
    intros [k s] Hok. cbn [snd] in *. split; [exact Hok |].
    destruct (IsNotFound s) eqn:Hnf; [| reflexivity].
    apply IsNotFound_not_ok in Hnf. congruence. }
  split.
  { intros k s Hin Hbad.
    assert (Hfail : ok s = false).
    { destruct Hbad as [Hbad | Hbad];
        [exact Hbad | now apply IsNotFound_not_ok]. }
    destruct out as [stats | what].
    - destruct (Hret stats eq_refl) as [_ Hall].
      rewrite List.Forall_forall in Hall. specialize (Hall (k, s) Hin).
      cbn [snd] in Hall. congruence.
    - destruct (Hthrow what eq_refl)
        as [Hnil | (before & k' & s' & Hreads & Hall & Hfail' & ->)].
      + rewrite Hnil in Hin. destruct Hin.
      + rewrite Hreads in Hin. apply in_app_or in Hin.
        destruct Hin as [Hin | [[= <- <-] | []]].
        * rewrite List.Forall_forall in Hall. specialize (Hall (k, s) Hin).
          cbn [snd] in Hall. congruence.
        * split; [reflexivity |]. exists before. split; assumption. }
  intros Hdist Hopen Hfound.
  apply Hsucc; [apply Hopen |].
  intros h' key Hkey.
  apply in_map_iff in Hkey. destruct Hkey as (i & <- & Hi).
  apply Hfound.
  pose proof (draws_in_range (Z.to_nat read_ops) Hdist
                (mt19937_64_seed 0xC0FFEE)) as Hrange.
  rewrite List.Forall_forall in Hrange. apply Hrange. exact Hi.
Qed.

(** C9. The indices probed are drawn, one per read, by
    [uniform_int_distribution(0, kEntryCount - 1)] from the engine seeded
    with the constant 0xC0FFEE.  So two runs with the same read-op count,
    against any two engines, paths and options, probe prefixes of one and
    the same key sequence, and the same full sequence when both return;
    and every index lies in [0, kEntryCount) when the distribution keeps
    within its bounds. *)
Theorem BenchmarkReads_same_probe_sequence
    path1 path2 options1 options2 read_ops w1 w2 h1 h2 :
  exists events1 out1 events2 out2,
    BenchmarkReads path1 options1 read_ops w1 h1 = (out1, h1 ++ events1) /\
    BenchmarkReads path2 options2 read_ops w2 h2 = (out2, h2 ++ events2) /\
    map fst (reads events1)
    = map Key (firstn (length (reads events1)) (probe_indices read_ops)) /\
    map fst (reads events2)
    = map Key (firstn (length (reads events2)) (probe_indices read_ops)) /\
    (forall stats1 stats2,
       out1 = Returned stats1 -> out2 = Returned stats2 ->
       map fst (reads events1) = map Key (probe_indices read_ops) /\
       map fst (reads events2) = map fst (reads events1)) /\
    probe_indices read_ops
    = draws (Z.to_nat read_ops) (mt19937_64_seed 0xC0FFEE) /\
    (forall n rng,
       draws (S n) rng
       = let (key_index, rng') :=
           uniform_int_distribution 0 (kEntryCount - 1) rng in
         key_index :: draws n rng') /\
    (draws_within_bounds R ->
     Forall (fun i => 0 <= i < kEntryCount) (probe_indices read_ops)).
Proof.
  assert (Hrun : forall path options w h,
             exists events out,
               BenchmarkReads path options read_ops w h = (out, h ++ events) /\
               map fst (reads events)
               = map Key (firstn (length (reads events))
                            (probe_indices read_ops)) /\
               (forall stats, out = Returned stats ->
                  map fst (reads events) = map Key (probe_indices read_ops))).
  { intros path options w h.
    destruct (Z.eq_dec read_ops 0) as [-> | Hops].
    - exists [], (Returned (mkReadStats 0)).
      split; [cbn; now rewrite app_nil_r |]. split; reflexivity.
    - destruct (BenchmarkReads_spec path options read_ops w h Hops)
        as (events & out & Heq & _ & Hkeys & _ & Hret & _).
      exists events, out. split; [exact Heq |].
      rewrite firstn_map in Hkeys. split; [exact Hkeys |].
      intros stats Hout. destruct (Hret stats Hout) as [Hl _].
      rewrite Hkeys, Hl. now rewrite firstn_all. }
  destruct (Hrun path1 options1 w1 h1) as (events1 & out1 & Heq1 & Hk1 & Hr1).
  destruct (Hrun path2 options2 w2 h2) as (events2 & out2 & Heq2 & Hk2 & Hr2).
  exists events1, out1, events2, out2.
  split; [exact Heq1 |]. split; [exact Heq2 |].
  split; [exact Hk1 |]. split; [exact Hk2 |].
  split.
  { intros stats1 stats2 Ho1 Ho2.
    rewrite (Hr1 stats1 Ho1), (Hr2 stats2 Ho2). split; reflexivity. }
  split; [reflexivity |].
  split; [reflexivity |].
  intros Hdist. apply draws_in_range. exact Hdist.
Qed.

End ProberClaims.

Section ProberWitnesses.
Import SpaceAmp Plans.

Lemma lcg_random_within_bounds : draws_within_bounds lcg_random.
Proof.
  intros a b g Hab. cbn [uniform_int_distribution lcg_random fst].
  pose proof (Z.mod_pos_bound g (b - a + 1) ltac:(lia)). lia.
Qed.

Lemma BenchmarkReads_every_read_must_succeed_witness :
  exists events stats,
    @BenchmarkReads lcg_random "db" (BuildOptions 4096) 3 ideal_world []
    = (Returned stats, [] ++ events) /\
    Z.of_nat (length (reads events)) = 3.
Proof.
  destruct (@BenchmarkReads_every_read_must_succeed lcg_random "db"
              (BuildOptions 4096) 3 ideal_world [])
    as (events & out & Heq & _ & Hret & _ & Hsucc); [lia |].
  destruct Hsucc as [stats ->].
  - exact lcg_random_within_bounds.
  - reflexivity.
  - reflexivity.
  - exists events, stats. split; [exact Heq |].
    apply (Hret stats eq_refl).
Defined.

End ProberWitnesses.

(** ** Quiet computations *)

Section QuietFacts.
Import SpaceAmp Plans.

Lemma quiet_ret {A : Type} (a : A) : quiet (ret a).
Proof. intros w h. exists []. split; [cbn; now rewrite app_nil_r | constructor]. Qed.

Lemma quiet_throw {A : Type} (what : string) : quiet (@throw A what).
Proof. intros w h. exists []. split; [cbn; now rewrite app_nil_r | constructor]. Qed.

Lemma quiet_call {A : Type} (oracle : World -> Trace -> A) (ev : A -> Event) :
  (forall a, inner_event (ev a)) -> quiet (call oracle ev).
Proof.
  intros Hev w h. exists [ev (oracle w h)]. split; [reflexivity |].
  constructor; [apply Hev | constructor].
Qed.

Lemma quiet_emit (e : Event) : inner_event e -> quiet (emit e).
Proof.
  intros He w h. exists [e]. split; [reflexivity |].
  constructor; [exact He | constructor].
Qed.

Lemma quiet_bind {A B : Type} (m : M A) (k : A -> M B) :
  quiet m -> (forall a, quiet (k a)) -> quiet (bind m k).
Proof.
  intros Hm Hk w h. unfold bind.
  destruct (Hm w h) as (e1 & H1 & F1).
  destruct (m w h) as [[a | what] h1]; cbn [snd] in H1; subst h1.
  - destruct (Hk a w (h ++ e1)) as (e2 & H2 & F2).
    exists (e1 ++ e2). rewrite H2, app_assoc. split; [reflexivity |].
    apply Forall_app. now split.
  - exists e1. now split.
Qed.

Lemma quiet_finally {A : Type} (body : M A) (cleanup : M unit) :
  quiet body -> quiet cleanup -> quiet (finally body cleanup).
Proof.
  intros Hb Hc w h. unfold finally.
  destruct (Hb w h) as (e1 & H1 & F1).
  destruct (body w h) as [r h1]; cbn [snd] in H1; subst h1.
  destruct (Hc w (h ++ e1)) as (e2 & H2 & F2).
  exists (e1 ++ e2). cbn [snd]. rewrite H2, app_assoc.
  split; [reflexivity |]. apply Forall_app. now split.
Qed.

(** One step of a sequence whose first part is quiet. *)
Lemma bind_quiet_step {A B : Type} (m : M A) (k : A -> M B) w h :
  quiet m ->
  (exists what events,
     m w h = (Threw what, h ++ events) /\ Forall inner_event events /\
     bind m k w h = (Threw what, h ++ events)) \/
  (exists a events,
     m w h = (Returned a, h ++ events) /\ Forall inner_event events /\
     bind m k w h = k a w (h ++ events)).
Proof.
  intros Hm. destruct (Hm w h) as (e1 & H1 & F1). unfold bind.
  destruct (m w h) as [[a | what] h1]; cbn [snd] in H1; subst h1.
  - right. exists a, e1. auto.
  - left. exists what, e1. auto.
Qed.


End QuietFacts.

Ltac quiet_step :=
  first
    [ apply quiet_ret
    | apply quiet_throw
    | apply quiet_emit; exact I
    | apply quiet_call; intros; exact I
    | apply quiet_finally
    | apply quiet_bind; [| intros ]
    | match goal with
      | |- quiet (if ?b then _ else _) => destruct b
      | |- quiet (match ?x with _ => _ end) => destruct x
      end ].

Section QuietHarness.
Import SpaceAmp Plans.

Lemma quiet_create_directories p : quiet (create_directories p).
Proof. unfold create_directories. repeat quiet_step. Qed.

Lemma quiet_exists_ p : quiet (exists_ p).
Proof. unfold exists_. repeat quiet_step. Qed.

Lemma quiet_remove_all p : quiet (remove_all p).
Proof. unfold remove_all. repeat quiet_step. Qed.

Lemma quiet_get_property property : quiet (get_property property).
Proof.
  unfold get_property, DB_GetAggregatedIntProperty. repeat quiet_step.
Qed.

Lemma quiet_RunOnce_loop (n : nat) :
  forall i write_options key_buffer value_buffer batch,
    quiet (RunOnce_loop n i write_options key_buffer value_buffer batch).
Proof.
  induction n as [| n IH]; intros; cbn [RunOnce_loop].
  - apply quiet_ret.
  - unfold DB_Write. repeat quiet_step; apply IH.
Qed.

Lemma quiet_RunOnce_load (entry_count : Z) : quiet (RunOnce_load entry_count).
Proof.
  unfold RunOnce_load. cbv zeta.
  apply quiet_bind; [apply quiet_RunOnce_loop | intros batch].
  unfold DB_Write, DB_Flush, DB_CompactRange. repeat quiet_step.
Qed.

Lemma quiet_BenchmarkReads_loop {R : StdRandom} (n : nat) :
  forall read_options rng key_buffer,
    quiet (BenchmarkReads_loop n read_options rng key_buffer).
Proof.
  induction n as [| n IH]; intros; cbn [BenchmarkReads_loop].
  - apply quiet_ret.
  - destruct (uniform_int_distribution _ _ rng) as [key_index rng'].
    unfold DB_Get. repeat quiet_step; apply IH.
Qed.

Lemma quiet_BenchmarkReads {R : StdRandom} db_path template_options read_ops :
  quiet (BenchmarkReads db_path template_options read_ops).
Proof.
  unfold BenchmarkReads. cbv zeta.
  destruct (read_ops =? 0); [apply quiet_ret |].
  unfold DB_OpenForReadOnly, DB_Close, now.
  repeat quiet_step. apply quiet_BenchmarkReads_loop.
Qed.

End QuietHarness.

(** ** The driver *)

Section DriverFacts.
Import SpaceAmp Plans.
Context {R : StdRandom}.

Lemma created_app (front back : Trace) :
  created (front ++ back) = created front ++ created back.
Proof. unfold created. apply flat_map_app. Qed.

Lemma created_inner (events : Trace) :
  Forall inner_event events -> created events = [].
Proof.
  induction 1 as [| e events He _ IH]; [reflexivity |].
  change (e :: events) with ([e] ++ events).
  rewrite created_app, IH.
  destruct e; cbn in He |- *; try reflexivity; contradiction.
Qed.

Lemma inner_not_report (events : Trace) :
  Forall inner_event events -> Forall (fun e => ~ is_report e) events.
Proof.
  intros H. eapply Forall_impl; [exact H |].
  intros e He. destruct e; cbn in *; tauto.
Qed.

Lemma quiet_RunOnce_opened cfg block_size db_path options :
  quiet (RunOnce_opened cfg block_size db_path options).
Proof.
  unfold RunOnce_opened. generalize kEntryCount. intros entry_count.
  apply quiet_bind.
  - apply quiet_finally; [| apply quiet_emit; exact I].
    apply quiet_bind; [apply quiet_RunOnce_load | intros _].
    apply quiet_bind; [apply quiet_get_property | intros total].
    apply quiet_bind; [apply quiet_get_property | intros keys].
    apply quiet_bind; [apply quiet_get_property | intros mem].
    apply quiet_ret.
  - intros result. apply quiet_bind.
    + destruct (read_ops cfg >? 0); [| apply quiet_ret].
      apply quiet_bind; [apply quiet_emit; exact I | intros _].
      apply quiet_bind; [apply quiet_BenchmarkReads | intros stats].
      apply quiet_ret.
    + intros result'. apply quiet_bind; [| intros _; apply quiet_ret].
      destruct (negb (keep_dbs cfg));
        [apply quiet_remove_all | apply quiet_ret].
Qed.

(** One call of [RunOnce]: at most one instance is created, of the block
    size asked for; it is created whenever [RunOnce] returns, and whenever
    the directory calls and [DB::Open] succeed. *)
Lemma RunOnce_created cfg block_size w h :
  exists events out,
    RunOnce cfg block_size w h = (out, h ++ events) /\
    Forall (fun e => ~ is_report e) events /\
    (created events = [block_size] \/
     created events = [] /\ exists what, out = Threw what) /\
    ((forall h' p, fs_create_directories w h' p = None) ->
     (forall h' p, fs_exists w h' p = Returned false) ->
     (forall h' o p, ok (db_Open w h' o p) = true) ->
     created events = [block_size]).
Proof.
  unfold RunOnce. cbv zeta.
  set (db_path := path_append (db_root cfg) ("block_" ++ to_string block_size)).
  (* create_directories *)
  destruct (bind_quiet_step (create_directories (db_root cfg))
              (fun _ =>
                 bind (exists_ db_path)
                   (fun present =>
                      bind (if present then remove_all db_path else ret tt)
                        (fun _ =>
                           bind (DB_Open (BuildOptions block_size) db_path)
                             (fun status =>
                                if negb (ok status) then
                                  throw ("Failed to open RocksDB at "
                                         ++ db_path ++ ": " ++ ToString status)
                                else RunOnce_opened cfg block_size db_path
                                       (BuildOptions block_size)))))
              w h (quiet_create_directories _))
    as [(what & e1 & Hm1 & F1 & ->) | (a1 & e1 & Hm1 & F1 & ->)].
  { exists e1, (Threw what). split; [reflexivity |].
    split; [now apply inner_not_report |].
    split; [right; split; [now apply created_inner | now exists what] |].
    intros Hcd _ _. exfalso. revert Hm1.
    unfold create_directories. rewrite bind_call, Hcd. discriminate. }
  (* exists *)
  destruct (bind_quiet_step (exists_ db_path)
              (fun present =>
                 bind (if present then remove_all db_path else ret tt)
                   (fun _ =>
                      bind (DB_Open (BuildOptions block_size) db_path)
                        (fun status =>
                           if negb (ok status) then
                             throw ("Failed to open RocksDB at "
                                    ++ db_path ++ ": " ++ ToString status)
                           else RunOnce_opened cfg block_size db_path
                                  (BuildOptions block_size))))
              w (h ++ e1) (quiet_exists_ _))
    as [(what & e2 & Hm2 & F2 & ->) | (present & e2 & Hm2 & F2 & ->)].
  { exists (e1 ++ e2), (Threw what). split; [now rewrite app_assoc |].
    assert (F12 : Forall inner_event (e1 ++ e2)) by (apply Forall_app; now split).
    split; [now apply inner_not_report |].
    split; [right; split; [now apply created_inner | now exists what] |].
    intros _ Hex _. exfalso. revert Hm2.
    unfold exists_. rewrite bind_call, Hex. discriminate. }
  (* remove_all, when the directory exists *)
  assert (Hquiet3 : quiet (if present then remove_all db_path else ret tt))
    by (destruct present; [apply quiet_remove_all | apply quiet_ret]).
  destruct (bind_quiet_step (if present then remove_all db_path else ret tt)
              (fun _ =>
                 bind (DB_Open (BuildOptions block_size) db_path)
                   (fun status =>
                      if negb (ok status) then
                        throw ("Failed to open RocksDB at "
                               ++ db_path ++ ": " ++ ToString status)
                      else RunOnce_opened cfg block_size db_path
                             (BuildOptions block_size)))
              w ((h ++ e1) ++ e2) Hquiet3)
    as [(what & e3 & Hm3 & F3 & ->) | (a3 & e3 & Hm3 & F3 & ->)].
  { exists (e1 ++ e2 ++ e3), (Threw what).
    split; [now rewrite !app_assoc |].
    assert (F123 : Forall inner_event (e1 ++ e2 ++ e3))
      by (repeat (apply Forall_app; split); assumption).
    split; [now apply inner_not_report |].
    split; [right; split; [now apply created_inner | now exists what] |].
    intros _ Hex _. exfalso. revert Hm2 Hm3.
    unfold exists_. rewrite bind_call, Hex. intros [= <- _].
    discriminate. }
  (* DB::Open *)
  unfold DB_Open. rewrite bind_call.
  set (h3 := ((h ++ e1) ++ e2) ++ e3).
  set (s := db_Open w h3 (BuildOptions block_size) db_path).
  assert (F123 : Forall inner_event (e1 ++ e2 ++ e3))
    by (repeat (apply Forall_app; split); assumption).
  assert (Hh3 : h3 = h ++ e1 ++ e2 ++ e3)
    by (subst h3; now rewrite <- !app_assoc).
  destruct (ok s) eqn:Hs; cbn [negb].
  - destruct (quiet_RunOnce_opened cfg block_size db_path
                (BuildOptions block_size) w
                (h3 ++ [EvOpen (BuildOptions block_size) db_path s]))
      as (e4 & H4 & F4).
    destruct (RunOnce_opened cfg block_size db_path (BuildOptions block_size)
                w (h3 ++ [EvOpen (BuildOptions block_size) db_path s]))
      as [out h4].
    cbn [snd] in H4. subst h4.
    exists ((e1 ++ e2 ++ e3)
            ++ [EvOpen (BuildOptions block_size) db_path s] ++ e4), out.
    split; [rewrite Hh3; now rewrite <- !app_assoc |].
    assert (Hcreated :
              created ((e1 ++ e2 ++ e3)
                       ++ [EvOpen (BuildOptions block_size) db_path s] ++ e4)
              = [block_size]).
    { rewrite created_app, (created_inner _ F123), created_app,
        (created_inner _ F4).
      cbn [created flat_map app]. rewrite Hs. reflexivity. }
    split.
    { apply Forall_app. split; [now apply inner_not_report |].
      constructor; [intros [] | now apply inner_not_report]. }
    split; [now left | intros _ _ _; exact Hcreated].
  - exists ((e1 ++ e2 ++ e3)
            ++ [EvOpen (BuildOptions block_size) db_path s]),
      (Threw ("Failed to open RocksDB at " ++ db_path ++ ": " ++ ToString s)).
    split; [rewrite Hh3; now rewrite <- !app_assoc |].
    split.
    { apply Forall_app. split; [now apply inner_not_report |].
      constructor; [intros [] | constructor]. }
    split.
    { right. split; [| eexists; reflexivity].
      rewrite created_app, (created_inner _ F123).
      cbn [created flat_map app]. rewrite Hs. reflexivity. }
    intros _ _ Hopen. subst s. rewrite Hopen in Hs. discriminate.
Qed.

End DriverFacts.

Section DriverClaims.
Import SpaceAmp Plans.
Context {R : StdRandom}.






End DriverClaims.

Section DriverWitnesses.
Import SpaceAmp Plans.



End DriverWitnesses.

(** * Concrete runs *)

Section ConcreteRuns.
Import MergeBench SpaceAmp Plans.

Example Encode_258 :
  Encode 258
  = [Byte.x02; Byte.x01; Byte.x00; Byte.x00;
     Byte.x00; Byte.x00; Byte.x00; Byte.x00].
Proof. reflexivity. Qed.

Example Decode_three_bytes : Decode [Byte.x01; Byte.x02; Byte.x03] = 197121.
Proof. reflexivity. Qed.

Example FullMergeV2_wraps :
  Decode
    (new_value
       (snd (FullMergeV2 (mkMergeIn (Some (Encode (2 ^ 64 - 1))) [Encode 1])
               (mkMergeOut []))))
  = 0.
Proof. reflexivity. Qed.

Example SelectWorkloads_90_10 :
  SelectWorkloads "90/10" = Returned [mkWorkload "90/10" 0.90].
Proof. reflexivity. Qed.

Example Key_1234567 :
  string_of_list_byte (Key 1234567) = "00000000000000000000000001234567"%string.
Proof. vm_compute. reflexivity. Qed.

Example Value_3 :
  string_of_list_byte (Value 3)
  = ("defghijklmnopqrstuvwxyzabcdefghijklmnopqrstuvwxyz"
     ++ "abcdefghijklmnopqrstuvwxyzabcdefghijklmnopqrstu")%string.
Proof. vm_compute. reflexivity. Qed.

Example to_string_negative : to_string (-45) = "-45"%string.
Proof. vm_compute. reflexivity. Qed.

(** 2500 entries are loaded as batches of 1000, 1000 and 500, then the
    flush and the compaction. *)
Example RunOnce_load_2500 :
  map (fun e =>
         match e with
         | EvWrite _ batch _ => Z.of_nat (length batch)
         | EvFlush _ _ => -1
         | EvCompactRange _ _ _ => -2
         | _ => -3
         end)
    (snd (RunOnce_load 2500 ideal_world []))
  = [1000; 1000; 500; -1; -2].
Proof. vm_compute. reflexivity. Qed.

(** Three reads against the ideal world: reopen, clock, three [Get]s,
    clock, close. *)
Example BenchmarkReads_3 :
  map (fun e =>
         match e with
         | EvOpenForReadOnly _ _ _ => 0
         | EvNow _ => 1
         | EvGet _ _ _ => 2
         | EvClose => 3
         | _ => -1
         end)
    (snd (@BenchmarkReads lcg_random "db" (BuildOptions 4096) 3
            ideal_world []))
  = [0; 1; 2; 2; 2; 1; 3].
Proof. vm_compute. reflexivity. Qed.

(** The third read is not found: it is the last, and fatal. *)
Example BenchmarkReads_not_found :
  let run := @BenchmarkReads lcg_random "db" (BuildOptions 4096) 5
               two_reads_world [] in
  fst run = Threw "Read failed: NotFound: " /\
  map (fun ks => ok (snd ks)) (reads (snd run)) = [true; true; false] /\
  map fst (reads (snd run))
  = map Key (firstn 3 (@probe_indices lcg_random 5)).
Proof. vm_compute. repeat split. Qed.

(** [operator/] adds a separator only after a filename, and an absolute
    right operand replaces the left one. *)
Example path_append_cases :
  path_append "./space_amp_runs" "block_4096" = "./space_amp_runs/block_4096"%string /\
  path_append "runs/" "block_4096" = "runs/block_4096"%string /\
  path_append "" "rmw" = "rmw"%string /\
  path_append "/" "merge" = "/merge"%string /\
  path_append "runs" "/tmp/x" = "/tmp/x"%string.
Proof. repeat split. Qed.

(** A zero elapsed time is replaced by the floor of one nanosecond. *)
Example throughput_zero_elapsed :
  (throughput 200000 7 7 == inject_Z 200000000000000)%Q.
Proof. reflexivity. Qed.

End ConcreteRuns.
From Stdlib Require Import Lqa.

(** * Further properties of space_amp.cc *)

(** ** Text conversions *)

Section ConversionFacts.

Lemma isdigit_iff (c : byte) : isdigit c = true <-> is_decimal_digit c.
Proof.
  unfold isdigit, is_decimal_digit. cbv zeta.
  rewrite andb_true_iff, !Z.leb_le. tauto.
Qed.

Lemma digit_not_space (c : byte) : is_decimal_digit c -> isspace c = false.
Proof.
  unfold is_decimal_digit, isspace. cbv zeta. intros H.
  destruct (Z.leb_spec 9 (byte.unsigned c)), (Z.leb_spec (byte.unsigned c) 13),
    (Z.eqb_spec (byte.unsigned c) 32); cbn; try reflexivity; lia.
Qed.

Lemma digit_not_char (c d : byte) :
  is_decimal_digit c -> ~ is_decimal_digit d -> Byte.eqb c d = false.
Proof.
  intros Hc Hd. destruct (Byte.eqb c d) eqn:Heq; [| reflexivity].
  apply Byte.byte_dec_bl in Heq. subst d. contradiction.
Qed.

Lemma leading_digits_all (digits rest : list byte) :
  Forall is_decimal_digit digits ->
  match rest with [] => True | c :: _ => isdigit c = false end ->
  leading_digits (digits ++ rest) = digits.
Proof.
  intros Hall Hrest. induction Hall as [| d digits Hd _ IH]; cbn [app].
  - destruct rest as [| c rest]; [reflexivity |]. cbn. now rewrite Hrest.
  - cbn [leading_digits]. apply isdigit_iff in Hd. rewrite Hd. now f_equal.
Qed.

Lemma to_decimal_shape (x : Z) :
  0 <= x < 2 ^ 64 ->
  exists d digits,
    to_decimal x = d :: digits /\
    Forall is_decimal_digit (d :: digits) /\
    decimal_value (d :: digits) = x.
Proof.
  intros Hx. destruct (to_decimal_spec x Hx) as (Hall & Hval & Hlen).
  destruct (to_decimal x) as [| d digits]; [cbn in Hlen; lia |].
  now exists d, digits.
Qed.

Lemma not_digit_minus : ~ is_decimal_digit Byte.x2d.
Proof. unfold is_decimal_digit. cbn. lia. Qed.

Lemma not_digit_plus : ~ is_decimal_digit Byte.x2b.
Proof. unfold is_decimal_digit. cbn. lia. Qed.

Lemma not_digit_comma : ~ is_decimal_digit Byte.x2c.
Proof. unfold is_decimal_digit. cbn. lia. Qed.

(** Reading the digits of a number, whatever follows them. *)
Lemma parse_signed_digits_decimal (x : Z) (rest : list byte) :
  0 <= x < 2 ^ 64 ->
  match rest with [] => True | c :: _ => isdigit c = false end ->
  parse_signed_digits (to_decimal x ++ rest) = Some (false, x).
Proof.
  intros Hx Hrest.
  destruct (to_decimal_shape x Hx) as (d & digits & Heq & Hall & Hval).
  rewrite Heq. unfold parse_signed_digits.
  assert (Hd : is_decimal_digit d) by now inversion Hall.
  cbn [app skip_spaces]. rewrite (digit_not_space d Hd).
  rewrite (digit_not_char d _ Hd not_digit_minus).
  rewrite (digit_not_char d _ Hd not_digit_plus).
  change (d :: digits ++ rest) with ((d :: digits) ++ rest).
  rewrite (leading_digits_all _ _ Hall Hrest). now rewrite Hval.
Qed.

Lemma parse_signed_digits_negative (x : Z) (rest : list byte) :
  0 <= x < 2 ^ 64 ->
  match rest with [] => True | c :: _ => isdigit c = false end ->
  parse_signed_digits (Byte.x2d :: to_decimal x ++ rest) = Some (true, x).
Proof.
  intros Hx Hrest.
  destruct (to_decimal_shape x Hx) as (d & digits & Heq & Hall & Hval).
  rewrite Heq. unfold parse_signed_digits.
  cbn [skip_spaces]. change (isspace Byte.x2d) with false. cbv iota.
  change (Byte.eqb Byte.x2d Byte.x2d) with true. cbv iota.
  change (d :: digits ++ rest) with ((d :: digits) ++ rest).
  rewrite (leading_digits_all _ _ Hall Hrest). now rewrite Hval.
Qed.

(** [stoi] reads back the decimal text of an [int], ignoring what follows
    the digits. *)
Lemma stoi_to_chars (x : Z) (rest : list byte) :
  - 2 ^ 31 <= x <= 2 ^ 31 - 1 ->
  match rest with [] => True | c :: _ => isdigit c = false end ->
  stoi (to_chars x ++ rest) = inr x.
Proof.
  intros Hx Hrest. unfold stoi, to_chars.
  destruct (Z.ltb_spec x 0) as [Hneg | Hpos].
  - cbn [app]. rewrite parse_signed_digits_negative by (auto; lia).
    cbv zeta iota. rewrite Z.opp_involutive.
    destruct (Z.leb_spec (- 2 ^ 31) x), (Z.leb_spec x (2 ^ 31 - 1));
      cbn [andb]; [reflexivity | lia | lia | lia].
  - rewrite parse_signed_digits_decimal by (auto; lia).
    cbv zeta iota.
    destruct (Z.leb_spec (- 2 ^ 31) x), (Z.leb_spec x (2 ^ 31 - 1));
      cbn [andb]; [reflexivity | lia | lia | lia].
Qed.

Lemma stoull_to_decimal (x : Z) :
  0 <= x < 2 ^ 64 -> stoull (to_decimal x) = inr x.
Proof.
  intros Hx. unfold stoull.
  rewrite <- (app_nil_r (to_decimal x)).
  rewrite parse_signed_digits_decimal by (auto; lia).
  destruct (Z.leb_spec x (2 ^ 64 - 1)); [reflexivity | lia].
Qed.

(** The characters of the decimal text of an [int]: a minus sign or
    digits, so neither commas nor white space. *)
Lemma to_chars_plain (x : Z) :
  - 2 ^ 64 < x < 2 ^ 64 ->
  to_chars x <> [] /\
  Forall (fun c => Byte.eqb c Byte.x2c = false /\ isspace c = false)
    (to_chars x).
Proof.
  intros Hx. unfold to_chars.
  assert (Hdigits : forall y, 0 <= y < 2 ^ 64 ->
            Forall (fun c => Byte.eqb c Byte.x2c = false /\ isspace c = false)
              (to_decimal y)).
  { intros y Hy. destruct (to_decimal_spec y Hy) as (Hall & _ & _).
    eapply Forall_impl; [exact Hall |]. intros c Hc. split.
    - now apply digit_not_char, not_digit_comma.
    - now apply digit_not_space. }
  destruct (Z.ltb_spec x 0).
  - split; [discriminate |]. constructor; [split; reflexivity |].
    apply Hdigits. lia.
  - split; [| apply Hdigits; lia].
    destruct (to_decimal_shape x ltac:(lia)) as (d & digits & -> & _).
    discriminate.
Qed.

End ConversionFacts.

(** ** Block-size lists *)

Section BlockSizeFacts.
Import SpaceAmp SpaceAmpCli.

(** A run of characters that are neither commas nor white space is taken
    into the pending field. *)
Lemma ParseBlockSizes_loop_field (field : list byte) :
  Forall (fun c => Byte.eqb c Byte.x2c = false /\ isspace c = false) field ->
  forall rest current values,
    ParseBlockSizes_loop (field ++ rest) current values
    = ParseBlockSizes_loop rest (current ++ field) values.
Proof.
  induction 1 as [| c field [Hcomma Hspace] _ IH]; intros rest current values.
  - now rewrite app_nil_r.
  - cbn [app ParseBlockSizes_loop]. rewrite Hcomma, Hspace. cbn [negb].
    rewrite IH, <- app_assoc. reflexivity.
Qed.

Lemma ParseBlockSizes_loop_join (sizes : list Z) :
  Forall is_int sizes ->
  forall x values,
    is_int x ->
    exists front last_size,
      x :: sizes = front ++ [last_size] /\
      ParseBlockSizes_loop (join_csv (map to_chars (x :: sizes))) [] values
      = inr (to_chars last_size, values ++ front).
Proof.
  induction 1 as [| y sizes Hy _ IH]; intros x values Hx.
  - exists [], x. split; [reflexivity |].
    cbn [map join_csv]. rewrite <- (app_nil_r (to_chars x)) at 1.
    rewrite ParseBlockSizes_loop_field
      by (apply to_chars_plain; unfold is_int in Hx; lia).
    cbn. now rewrite app_nil_r.
  - destruct (IH y (values ++ [x]) Hy) as (front & last_size & Heq & Hloop).
    exists (x :: front), last_size. split; [now rewrite Heq |].
    change (join_csv (map to_chars (x :: y :: sizes)))
      with (to_chars x ++ Byte.x2c :: join_csv (map to_chars (y :: sizes))).
    rewrite ParseBlockSizes_loop_field
      by (apply to_chars_plain; unfold is_int in Hx; lia).
    cbn [app ParseBlockSizes_loop]. change (Byte.eqb Byte.x2c Byte.x2c) with true.
    cbv iota.
    destruct (to_chars_plain x ltac:(unfold is_int in Hx; lia)) as [Hne _].
    destruct (to_chars x) as [| c cs] eqn:Hchars; [contradiction |].
    rewrite <- Hchars, <- (app_nil_r (to_chars x)).
    rewrite stoi_to_chars by (auto; exact Hx).
    rewrite Hloop, <- app_assoc. reflexivity.
Qed.

(** The loop does not see white space. *)
Lemma ParseBlockSizes_loop_spaces (csv : list byte) :
  forall current values,
    ParseBlockSizes_loop csv current values
    = ParseBlockSizes_loop (List.filter (fun c => negb (isspace c)) csv)
        current values.
Proof.
  induction csv as [| c csv IH]; intros current values; [reflexivity |].
  cbn [List.filter ParseBlockSizes_loop].
  destruct (Byte.eqb c Byte.x2c) eqn:Hcomma.
  - apply Byte.byte_dec_bl in Hcomma. subst c.
    change (negb (isspace Byte.x2c)) with true. cbv iota.
    cbn [ParseBlockSizes_loop]. change (Byte.eqb Byte.x2c Byte.x2c) with true.
    cbv iota. destruct current as [| c0 current0]; [apply IH |].
    destruct (stoi (c0 :: current0)); [reflexivity | apply IH].
  - destruct (isspace c) eqn:Hspace; cbn [negb].
    + apply IH.
    + cbn [ParseBlockSizes_loop]. rewrite Hcomma, Hspace. cbn [negb].
      apply IH.
Qed.

Lemma ParseBlockSizes_loop_nil (current : list byte) (values : list Z) :
  ParseBlockSizes_loop [] current values = inr (current, values).
Proof. reflexivity. Qed.

Lemma ParseBlockSizes_loop_app (front back : list byte) :
  forall current values,
    ParseBlockSizes_loop (front ++ back) current values
    = match ParseBlockSizes_loop front current values with
      | inl e => inl e
      | inr (current', values') => ParseBlockSizes_loop back current' values'
      end.
Proof.
  induction front as [| c front IH]; intros current values; [reflexivity |].
  cbn [app ParseBlockSizes_loop].
  destruct (Byte.eqb c Byte.x2c).
  - destruct current as [| c0 current0]; [apply IH |].
    destruct (stoi (c0 :: current0)); [reflexivity | apply IH].
  - destruct (negb (isspace c)); apply IH.
Qed.

(** The text of a list of [int] values reads back as that list. *)
Lemma ParseBlockSizes_decimal_list (x : Z) (sizes : list Z) :
  is_int x ->
  Forall is_int sizes ->
  ParseBlockSizes (join_csv (map to_chars (x :: sizes))) = inr (x :: sizes).
Proof.
  intros Hx Hsizes.
  destruct (ParseBlockSizes_loop_join sizes Hsizes x [] Hx)
    as (front & last_size & Heq & Hloop).
  assert (Hlast : is_int last_size).
  { assert (Hall : Forall is_int (x :: sizes)) by now constructor.
    rewrite Heq in Hall. apply Forall_app in Hall.
    destruct Hall as [_ Hall]. now inversion Hall. }
  unfold ParseBlockSizes.
  destruct (join_csv (map to_chars (x :: sizes))) as [| c csv] eqn:Hcsv.
  { cbn in Hloop. injection Hloop as Hc _.
    destruct (to_chars_plain last_size
                ltac:(unfold is_int in Hlast; lia)) as [Hne _].
    now rewrite <- Hc in Hne. }
  rewrite Hloop. cbn [app].
  destruct (to_chars_plain last_size ltac:(unfold is_int in Hlast; lia))
    as [Hne _].
  destruct (to_chars last_size) as [| c0 cs] eqn:Hchars; [contradiction |].
  rewrite <- Hchars, <- (app_nil_r (to_chars last_size)).
  rewrite stoi_to_chars by (auto; exact Hlast).
  rewrite <- Heq. reflexivity.
Qed.

End BlockSizeFacts.

Section BlockSizeProperties.
Import SpaceAmp SpaceAmpCli.

(** X1. Parsing the comma-separated decimal text of a non-empty list of
    [int] values gives the list back, and so does the same text with a
    comma after the last value. *)
Theorem ParseBlockSizes_join_csv (x : Z) (sizes : list Z) :
  is_int x ->
  Forall is_int sizes ->
  ParseBlockSizes (join_csv (map to_chars (x :: sizes))) = inr (x :: sizes) /\
  ParseBlockSizes (join_csv (map to_chars (x :: sizes)) ++ [Byte.x2c])
  = inr (x :: sizes).
Proof.
  intros Hx Hsizes.
  split; [now apply ParseBlockSizes_decimal_list |].
  destruct (ParseBlockSizes_loop_join sizes Hsizes x [] Hx)
    as (front & last_size & Heq & Hloop).
  assert (Hlast : is_int last_size).
  { assert (Hall : Forall is_int (x :: sizes)) by now constructor.
    rewrite Heq in Hall. apply Forall_app in Hall.
    destruct Hall as [_ Hall]. now inversion Hall. }
  unfold ParseBlockSizes.
  destruct (join_csv (map to_chars (x :: sizes)) ++ [Byte.x2c])
    as [| c csv] eqn:Hcsv.
  { now apply app_eq_nil in Hcsv as [_ Hcsv]. }
  rewrite <- Hcsv, ParseBlockSizes_loop_app, Hloop.
  cbn [app ParseBlockSizes_loop].
  change (Byte.eqb Byte.x2c Byte.x2c) with true. cbv iota.
  destruct (to_chars_plain last_size ltac:(unfold is_int in Hlast; lia))
    as [Hne _].
  destruct (to_chars last_size) as [| c0 cs] eqn:Hchars; [contradiction |].
  rewrite <- Hchars, <- (app_nil_r (to_chars last_size)).
  rewrite stoi_to_chars by (auto; exact Hlast).
  rewrite <- Heq. reflexivity.
Qed.

Lemma ParseBlockSizes_join_csv_witness :
  ParseBlockSizes (join_csv (map to_chars [4096; -7; 65536]))
  = inr [4096; -7; 65536] /\
  ParseBlockSizes (join_csv (map to_chars [4096; -7; 65536]) ++ [Byte.x2c])
  = inr [4096; -7; 65536].
Proof.
  apply (ParseBlockSizes_join_csv 4096 [-7; 65536]).
  - unfold is_int. lia.
  - repeat constructor; unfold is_int; lia.
Defined.

(** X2. [ParseBlockSizes] never returns an empty list: a text with no
    field at all, such as an empty one or one made of commas and white
    space only, gives the default block sizes. *)
Theorem ParseBlockSizes_never_empty (csv : list byte) :
  (forall sizes, ParseBlockSizes csv = inr sizes -> sizes <> []) /\
  (Forall (fun c => Byte.eqb c Byte.x2c = true \/ isspace c = true) csv ->
   ParseBlockSizes csv = inr DefaultBlockSizes).
Proof.
  split.
  - intros sizes. unfold ParseBlockSizes.
    destruct csv as [| c csv]; [intros [= <-]; discriminate |].
    destruct (ParseBlockSizes_loop (c :: csv) [] []) as [e | [current values]];
      [discriminate |].
    destruct current as [| c0 current].
    + destruct values; intros [= <-]; discriminate.
    + destruct (stoi (c0 :: current)) as [e | v]; [discriminate |].
      destruct (values ++ [v]) eqn:Happ; intros [= <-]; discriminate.
  - intros Hall. unfold ParseBlockSizes.
    destruct csv as [| c csv]; [reflexivity |].
    assert (Hloop : forall text values,
               Forall (fun c => Byte.eqb c Byte.x2c = true \/ isspace c = true)
                 text ->
               ParseBlockSizes_loop text [] values = inr ([], values)).
    { induction text as [| c1 text IH]; intros values Htext; [reflexivity |].
      inversion Htext as [| ? ? Hc Hrest]; subst.
      cbn [ParseBlockSizes_loop].
      destruct (Byte.eqb c1 Byte.x2c); [now apply IH |].
      destruct Hc as [Hc | Hc]; [discriminate |].
      rewrite Hc. cbn [negb]. now apply IH. }
    now rewrite (Hloop (c :: csv) [] Hall).
Qed.

(** X3. White space anywhere in the text, also inside a number, is
    ignored. *)
Theorem ParseBlockSizes_ignores_spaces (csv : list byte) :
  ParseBlockSizes csv
  = ParseBlockSizes (List.filter (fun c => negb (isspace c)) csv).
Proof.
  unfold ParseBlockSizes.
  destruct csv as [| c csv]; [reflexivity |].
  rewrite (ParseBlockSizes_loop_spaces (c :: csv)).
  destruct (List.filter (fun c0 => negb (isspace c0)) (c :: csv))
    as [| c' csv']; reflexivity.
Qed.

(** X4. A field is read by [stoi]: characters after its leading number
    are dropped without an error, so a single field such as "4k" gives the
    block size 4. *)
Theorem ParseBlockSizes_drops_trailing_text (x : Z) (c : byte)
    (suffix : list byte) :
  is_int x ->
  isdigit c = false ->
  Forall (fun c => Byte.eqb c Byte.x2c = false /\ isspace c = false)
    (c :: suffix) ->
  ParseBlockSizes (to_chars x ++ c :: suffix) = inr [x].
Proof.
  intros Hx Hc Hsuffix. unfold ParseBlockSizes.
  destruct (to_chars_plain x ltac:(unfold is_int in Hx; lia)) as [Hne Hplain].
  destruct (to_chars x ++ c :: suffix) as [| c0 csv] eqn:Hcsv.
  { destruct (to_chars x); [contradiction | discriminate]. }
  rewrite <- Hcsv. rewrite <- (app_nil_r (to_chars x ++ c :: suffix)).
  rewrite ParseBlockSizes_loop_field by (apply Forall_app; now split).
  rewrite ParseBlockSizes_loop_nil. cbn [app].
  rewrite Hcsv, <- Hcsv.
  destruct (to_chars x ++ c :: suffix) as [| c1 cs] eqn:Hcsv'; [discriminate |].
  rewrite <- Hcsv', stoi_to_chars by (auto; exact Hx). reflexivity.
Qed.

Lemma ParseBlockSizes_drops_trailing_text_witness :
  ParseBlockSizes (to_chars 4 ++ list_byte_of_string "k") = inr [4].
Proof.
  apply (ParseBlockSizes_drops_trailing_text 4 Byte.x6b []).
  - unfold is_int. lia.
  - reflexivity.
  - repeat constructor.
Defined.

End BlockSizeProperties.

(** ** Command line of space_amp *)

Section ArgumentFacts.
Import SpaceAmp SpaceAmpCli.

Lemma ParseArguments_loop_app (front rest : list (list byte)) :
  forall cfg,
    ParseArguments_loop (front ++ rest) cfg
    = match ParseArguments_loop front cfg with
      | Parsed cfg' => ParseArguments_loop rest cfg'
      | Exited code out err => Exited code out err
      | Failed e => Failed e
      end.
Proof.
  induction front as [| arg front IH]; intros cfg; [reflexivity |].
  cbn [app ParseArguments_loop].
  repeat match goal with
         | |- context [if ?b then _ else _] => destruct b
         | |- context [match ParseBlockSizes ?t with _ => _ end] =>
             destruct (ParseBlockSizes t)
         | |- context [match stoull ?t with _ => _ end] => destruct (stoull t)
         end; try reflexivity; apply IH.
Qed.

Lemma ParseArguments_loop_options (args : list (list byte)) :
  forall cfg cfg',
    ParseArguments_loop args cfg = Parsed cfg' ->
    forallb is_option args = true.
Proof.
  induction args as [| arg args IH]; intros cfg cfg' Hparsed; [reflexivity |].
  cbn [ParseArguments_loop forallb] in *. unfold is_option at 1.
  destruct (starts_with (flag "--block_sizes=") arg).
  { destruct (ParseBlockSizes _); [discriminate |]. cbn. eauto. }
  destruct (starts_with (flag "--db_root=") arg); [cbn; eauto |].
  destruct (bytes_eqb arg (flag "--keep_dbs")); [cbn; eauto |].
  destruct (starts_with (flag "--read_ops=") arg).
  { destruct (stoull _); [discriminate |]. cbn. eauto. }
  destruct (_ || _); discriminate.
Qed.

Lemma ParseArguments_eq (args : list (list byte)) :
  ParseArguments args
  = match ParseArguments_loop args default_Config with
    | Parsed cfg => Parsed (with_default_block_sizes cfg)
    | Exited code out err => Exited code out err
    | Failed e => Failed e
    end.
Proof.
  unfold ParseArguments, with_default_block_sizes.
  destruct (ParseArguments_loop args default_Config) as [cfg | |];
    [| reflexivity | reflexivity].
  destruct (block_sizes cfg); reflexivity.
Qed.

End ArgumentFacts.

Section ArgumentProperties.
Import SpaceAmp SpaceAmpCli.

(** X5. [ParseArguments] hands back a configuration only when every
    argument is one of the four options, and that configuration always has
    at least one block size. *)
Theorem ParseArguments_returns_usable_config (args : list (list byte))
    (cfg : Config) :
  ParseArguments args = Parsed cfg ->
  forallb is_option args = true /\ block_sizes cfg <> [].
Proof.
  unfold ParseArguments.
  destruct (ParseArguments_loop args default_Config) as [cfg0 | |] eqn:Hloop;
    [| discriminate | discriminate].
  intros Hcfg. split; [eapply ParseArguments_loop_options; exact Hloop |].
  destruct (block_sizes cfg0) eqn:Hsizes; injection Hcfg as <-.
  - discriminate.
  - rewrite Hsizes. discriminate.
Qed.

Lemma ParseArguments_returns_usable_config_witness :
  forallb is_option [flag "--keep_dbs"; flag "--read_ops=5"] = true /\
  block_sizes (mkConfig DefaultBlockSizes "./space_amp_runs" true 5) <> [].
Proof.
  apply (ParseArguments_returns_usable_config
           [flag "--keep_dbs"; flag "--read_ops=5"]).
  reflexivity.
Defined.

(** X6. Once the arguments before it have been accepted, an argument that
    is neither an option nor a help flag ends the process with the failure
    code and a message that names it, and a help flag ends it with the
    success code and the usage text; what follows is not looked at, so an
    invalid later argument raises nothing. *)
Theorem ParseArguments_stops_at_first_stranger
    (front rest : list (list byte)) (arg : list byte) (cfg : Config) :
  ParseArguments_loop front default_Config = Parsed cfg ->
  is_option arg = false ->
  ParseArguments (front ++ arg :: rest)
  = if is_help arg then Exited EXIT_SUCCESS usage ""
    else Exited EXIT_FAILURE ""
           ("Unknown argument: " ++ string_of_list_byte arg ++ newline).
Proof.
  intros Hfront Harg.
  rewrite ParseArguments_eq, ParseArguments_loop_app, Hfront.
  cbn [ParseArguments_loop]. unfold is_option in Harg.
  destruct (starts_with (flag "--block_sizes=") arg); [discriminate |].
  destruct (starts_with (flag "--db_root=") arg); [discriminate |].
  destruct (bytes_eqb arg (flag "--keep_dbs")); [discriminate |].
  destruct (starts_with (flag "--read_ops=") arg); [discriminate |].
  unfold is_help.
  destruct (bytes_eqb arg (flag "--help") || bytes_eqb arg (flag "-h"));
    reflexivity.
Qed.

Lemma ParseArguments_stops_at_first_stranger_witness :
  ParseArguments
    ([flag "--keep_dbs"] ++ flag "--bogus" :: [flag "--read_ops=zz"])
  = Exited EXIT_FAILURE ""
      ("Unknown argument: " ++ string_of_list_byte (flag "--bogus")
       ++ newline).
Proof.
  apply (ParseArguments_stops_at_first_stranger [flag "--keep_dbs"]
           [flag "--read_ops=zz"] (flag "--bogus")
           (mkConfig [] "./space_amp_runs" true 200000)).
  - reflexivity.
  - reflexivity.
Defined.

(** X7. The last [--block_sizes=] and [--read_ops=] arguments decide:
    after arguments that were accepted, the decimal list of block sizes
    and the decimal read-op count given last are the ones of the
    configuration, and the other fields are as the earlier arguments left
    them. *)
Theorem ParseArguments_last_value_wins (front : list (list byte))
    (cfg : Config) (x : Z) (sizes : list Z) (n : Z) :
  ParseArguments_loop front default_Config = Parsed cfg ->
  is_int x -> Forall is_int sizes ->
  0 <= n < 2 ^ 64 ->
  ParseArguments
    (front ++ [flag "--block_sizes=" ++ join_csv (map to_chars (x :: sizes));
               flag "--read_ops=" ++ to_decimal n])
  = Parsed (mkConfig (x :: sizes) (db_root cfg) (keep_dbs cfg) n) /\
  ParseArguments
    (front ++ [flag "--read_ops=" ++ to_decimal n;
               flag "--block_sizes=" ++ join_csv (map to_chars (x :: sizes))])
  = Parsed (mkConfig (x :: sizes) (db_root cfg) (keep_dbs cfg) n).
Proof.
  intros Hfront Hx Hsizes Hn.
  pose proof (ParseBlockSizes_decimal_list x sizes Hx Hsizes) as Hparse.
  pose proof (stoull_to_decimal n Hn) as Hstoull.
  assert (Hb : forall rest cfg0,
             ParseArguments_loop
               ((flag "--block_sizes=" ++ join_csv (map to_chars (x :: sizes)))
                :: rest) cfg0
             = ParseArguments_loop rest
                 (mkConfig (x :: sizes) (db_root cfg0) (keep_dbs cfg0)
                    (read_ops cfg0))).
  { intros rest cfg0. cbn [ParseArguments_loop].
    change (starts_with (flag "--block_sizes=")
              (flag "--block_sizes=" ++ join_csv (map to_chars (x :: sizes))))
      with true. cbv iota.
    change (skipn (length (flag "--block_sizes="))
              (flag "--block_sizes=" ++ join_csv (map to_chars (x :: sizes))))
      with (join_csv (map to_chars (x :: sizes))).
    now rewrite Hparse. }
  assert (Hr : forall rest cfg0,
             ParseArguments_loop ((flag "--read_ops=" ++ to_decimal n) :: rest)
               cfg0
             = ParseArguments_loop rest
                 (mkConfig (block_sizes cfg0) (db_root cfg0) (keep_dbs cfg0)
                    n)).
  { intros rest cfg0. cbn [ParseArguments_loop].
    change (starts_with (flag "--block_sizes=")
              (flag "--read_ops=" ++ to_decimal n)) with false. cbv iota.
    change (starts_with (flag "--db_root=")
              (flag "--read_ops=" ++ to_decimal n)) with false. cbv iota.
    assert (Hkeep : bytes_eqb (flag "--read_ops=" ++ to_decimal n)
                      (flag "--keep_dbs") = false).
    { unfold bytes_eqb. apply andb_false_intro2.
      generalize (to_decimal n). intros t. reflexivity. }
    rewrite Hkeep.
    change (starts_with (flag "--read_ops=")
              (flag "--read_ops=" ++ to_decimal n)) with true. cbv iota.
    change (skipn (length (flag "--read_ops="))
              (flag "--read_ops=" ++ to_decimal n)) with (to_decimal n).
    now rewrite Hstoull. }
  split; rewrite ParseArguments_eq, ParseArguments_loop_app, Hfront.
  - rewrite Hb, Hr. reflexivity.
  - rewrite Hr, Hb. reflexivity.
Qed.

Lemma ParseArguments_last_value_wins_witness :
  ParseArguments
    ([flag "--read_ops=7"; flag "--keep_dbs"]
     ++ [flag "--block_sizes=" ++ join_csv (map to_chars [4096; 0]);
         flag "--read_ops=" ++ to_decimal 0])
  = Parsed (mkConfig [4096; 0] "./space_amp_runs" true 0).
Proof.
  apply (ParseArguments_last_value_wins [flag "--read_ops=7"; flag "--keep_dbs"]
           (mkConfig [] "./space_amp_runs" true 7) 4096 [0] 0).
  - reflexivity.
  - unfold is_int. lia.
  - repeat constructor; unfold is_int; lia.
  - lia.
Defined.

End ArgumentProperties.

(** ** Sizes in the report *)

Section HumanBytesProperties.
Import SpaceAmp SpaceAmpCli.

Lemma inject_Z_pow_succ (k : nat) :
  (inject_Z (1024 ^ Z.of_nat (S k)) == 1024 * inject_Z (1024 ^ Z.of_nat k))%Q.
Proof.
  rewrite Nat2Z.inj_succ, Z.pow_succ_r by lia.
  rewrite inject_Z_mult. reflexivity.
Qed.

Lemma HumanBytes_loop_spec (fuel : nat) :
  forall bytes unit value unit',
    HumanBytes_loop fuel bytes unit = (value, unit') ->
    exists k : nat,
      (k <= fuel)%nat /\
      unit' = unit + Z.of_nat k /\
      (value * inject_Z (1024 ^ Z.of_nat k) == bytes)%Q /\
      ((0 < k)%nat -> (1 <= value)%Q /\ unit' <= 4) /\
      ((k < fuel)%nat -> ~ ((1024 <= value)%Q /\ unit' < 4)).
Proof.
  induction fuel as [| fuel IH]; intros bytes unit value unit' Hloop;
    cbn [HumanBytes_loop] in Hloop.
  - injection Hloop as <- <-. exists 0%nat.
    repeat split; try lia.
    change (inject_Z (1024 ^ Z.of_nat 0)) with 1%Q. ring.
  - destruct (Qle_bool 1024 bytes) eqn:Hle; cbn [andb] in Hloop.
    + destruct (Z.ltb_spec unit 4) as [Hunit | Hunit].
      * destruct (IH _ _ _ _ Hloop) as (k & Hk & -> & Hval & Hpos & Hexit).
        exists (S k). split; [lia |]. split; [lia |].
        apply Qle_bool_iff in Hle.
        split.
        { rewrite inject_Z_pow_succ.
          setoid_replace (value * (1024 * inject_Z (1024 ^ Z.of_nat k)))%Q
            with (value * inject_Z (1024 ^ Z.of_nat k) * 1024)%Q
            using relation Qeq by ring.
          rewrite Hval. field. }
        split; [| intros Hlt; apply Hexit; lia].
        intros _. destruct k as [| k].
        -- change (inject_Z (1024 ^ Z.of_nat 0)) with 1%Q in Hval.
           rewrite Qmult_1_r in Hval. split; [| lia].
           rewrite Hval. apply Qle_shift_div_l; [reflexivity | lra].
        -- destruct Hpos as [Hv Hu]; [lia |]. split; [exact Hv | lia].
      * injection Hloop as <- <-. exists 0%nat.
        split; [lia |]. split; [lia |].
        split; [change (inject_Z (1024 ^ Z.of_nat 0)) with 1%Q; ring |].
        split; [lia |]. intros _ [_ H]. lia.
    + injection Hloop as <- <-. exists 0%nat.
      split; [lia |]. split; [lia |].
      split; [change (inject_Z (1024 ^ Z.of_nat 0)) with 1%Q; ring |].
      split; [lia |]. intros _ [H _].
      apply Qle_bool_iff in H. congruence.
Qed.

(** X8. [HumanBytes] prints the size divided by 1024^k next to the k-th
    unit of B, KB, MB, GB, TB, for a k between 0 and 4; the number printed
    is below 1024 unless the unit is TB, and at least 1 once the unit is
    not B; it is printed with no decimals from 100 up, one from 10 up and
    two below 10. *)
Theorem HumanBytes_scales_by_1024 (bytes value : Q) (precision : Z)
    (unit : string) :
  HumanBytes bytes = (value, precision, unit) ->
  exists k : nat,
    (k <= 4)%nat /\
    nth_error kUnits k = Some unit /\
    (value * inject_Z (1024 ^ Z.of_nat k) == bytes)%Q /\
    ((k < 4)%nat -> (value < 1024)%Q) /\
    ((0 < k)%nat -> (1 <= value)%Q) /\
    ((100 <= value)%Q -> precision = 0) /\
    ((10 <= value)%Q -> (value < 100)%Q -> precision = 1) /\
    ((value < 10)%Q -> precision = 2).
Proof.
  unfold HumanBytes.
  destruct (HumanBytes_loop 4 bytes 0) as [v u] eqn:Hloop.
  intros [= <- <- <-].
  destruct (HumanBytes_loop_spec 4 _ _ _ _ Hloop)
    as (k & Hk & -> & Hval & Hpos & Hexit).
  exists k. split; [exact Hk |].
  split.
  { rewrite Z.add_0_l, Nat2Z.id.
    do 5 (destruct k as [| k]; [reflexivity |]). lia. }
  split; [exact Hval |].
  split.
  { intros Hlt. destruct (Qlt_le_dec v 1024) as [H | H]; [exact H |].
    exfalso. apply (Hexit Hlt). split; [exact H | lia]. }
  split; [intros Hk0; now apply Hpos |].
  destruct (Qle_bool 100 v) eqn:H100.
  - apply Qle_bool_iff in H100.
    split; [reflexivity |]. split; intros; lra.
  - assert (H100' : (v < 100)%Q).
    { destruct (Qlt_le_dec v 100) as [H | H]; [exact H |].
      apply Qle_bool_iff in H. congruence. }
    destruct (Qle_bool 10 v) eqn:H10.
    + apply Qle_bool_iff in H10.
      split; [intros; lra |]. split; [reflexivity | intros; lra].
    + assert (H10' : (v < 10)%Q).
      { destruct (Qlt_le_dec v 10) as [H | H]; [exact H |].
        apply Qle_bool_iff in H. congruence. }
      split; [intros; lra |]. split; [intros; lra | reflexivity].
Qed.

Lemma HumanBytes_scales_by_1024_witness :
  exists k : nat,
    (k <= 4)%nat /\
    nth_error kUnits k = Some "GB"%string /\
    ((4294967296 # 1073741824) * inject_Z (1024 ^ Z.of_nat k)
     == inject_Z 4294967296)%Q.
Proof.
  destruct (HumanBytes_scales_by_1024 (inject_Z 4294967296)
              (4294967296 # 1073741824) 2 "GB")
    as (k & Hk & Hunit & Hval & _); [reflexivity |].
  exists k. auto.
Defined.

End HumanBytesProperties.

(** ** The dataset *)

Section DatasetFacts.
Import SpaceAmp Plans.

Lemma decimal_value_cons (c : byte) (text : list byte) :
  decimal_value (c :: text)
  = (byte.unsigned c - 48) * 10 ^ Z.of_nat (length text) + decimal_value text.
Proof.
  unfold decimal_value. cbn [fold_left]. rewrite Z.mul_0_r, Z.add_0_l.
  generalize (byte.unsigned c - 48) as acc.
  induction text as [| d text IH]; intros acc.
  - cbn. lia.
  - cbn [fold_left length]. rewrite IH, (IH (10 * 0 + _)).
    rewrite Nat2Z.inj_succ, Z.pow_succ_r by lia. lia.
Qed.

Lemma decimal_value_bound (text : list byte) :
  Forall is_decimal_digit text ->
  0 <= decimal_value text < 10 ^ Z.of_nat (length text).
Proof.
  induction 1 as [| c text Hc _ IH]; [cbn; lia |].
  rewrite decimal_value_cons. cbn [length].
  rewrite Nat2Z.inj_succ, Z.pow_succ_r by lia.
  unfold is_decimal_digit in Hc. nia.
Qed.

(** On digit strings of one length, the order of [memcmp] is the order of
    the numbers. *)
Lemma bytewise_compare_digits (a : list byte) :
  forall b,
    length a = length b ->
    Forall is_decimal_digit a -> Forall is_decimal_digit b ->
    bytewise_compare a b = (decimal_value a ?= decimal_value b).
Proof.
  induction a as [| x a IH]; intros [| y b] Hlen Ha Hb;
    try discriminate Hlen; [reflexivity |].
  inversion Ha as [| ? ? Hx Ha']; inversion Hb as [| ? ? Hy Hb']; subst.
  injection Hlen as Hlen.
  cbn [bytewise_compare]. rewrite !decimal_value_cons, <- Hlen.
  pose proof (decimal_value_bound a Ha') as Hra.
  pose proof (decimal_value_bound b Hb') as Hrb. rewrite <- Hlen in Hrb.
  assert (Hp : 0 < 10 ^ Z.of_nat (length a)) by (apply Z.pow_pos_nonneg; lia).
  destruct (Z.compare_spec (byte.unsigned x) (byte.unsigned y)) as [He | Hl | Hg].
  - rewrite He, (IH b Hlen Ha' Hb').
    destruct (Z.compare_spec (decimal_value a) (decimal_value b));
      symmetry; [apply Z.compare_eq_iff | apply Z.compare_lt_iff
                | apply Z.compare_gt_iff]; lia.
  - symmetry. apply Z.compare_lt_iff. nia.
  - symmetry. apply Z.compare_gt_iff. nia.
Qed.

Lemma Key_digits (i : Z) :
  0 <= i < 2 ^ 64 ->
  length (Key i) = 32%nat /\ Forall is_decimal_digit (Key i) /\
  decimal_value (Key i) = i.
Proof.
  intros Hi. rewrite Key_eq.
  destruct (to_decimal_spec i Hi) as (Hall & Hval & _).
  split; [apply format_032llu_length |].
  unfold format_032llu. split.
  - apply Forall_app. split; [| exact Hall].
    apply Forall_forall. intros c Hc.
    apply list_elem_of_In, repeat_spec in Hc. subst c.
    unfold is_decimal_digit. rewrite unsigned_digit_char; lia.
  - rewrite decimal_value_zeros. exact Hval.
Qed.

End DatasetFacts.

Section DatasetProperties.
Import SpaceAmp Plans.

(** X9. On 64-bit indices the keys are ordered, byte by byte, as their
    indices are, and distinct indices give distinct keys. *)
Theorem Key_order (i j : Z) :
  0 <= i < 2 ^ 64 ->
  0 <= j < 2 ^ 64 ->
  bytewise_compare (Key i) (Key j) = (i ?= j) /\
  (Key i = Key j -> i = j).
Proof.
  intros Hi Hj.
  destruct (Key_digits i Hi) as (Hli & Hdi & Hvi).
  destruct (Key_digits j Hj) as (Hlj & Hdj & Hvj).
  split.
  - rewrite bytewise_compare_digits by (auto; congruence).
    now rewrite Hvi, Hvj.
  - intros Heq. rewrite <- Hvi, <- Hvj. now rewrite Heq.
Qed.

Lemma Key_order_witness :
  bytewise_compare (Key 9) (Key 10) = (9 ?= 10).
Proof. apply (Key_order 9 10); lia. Defined.

Lemma value_char_range (index : Z) (j : nat) :
  97 <= byte.unsigned (value_char index j) <= 122.
Proof.
  unfold value_char. rewrite byte.unsigned_of_Z. unfold byte.wrap.
  pose proof (Z.mod_pos_bound (wrap64 (index + Z.of_nat j)) 26 ltac:(lia)).
  rewrite Z.mod_small; lia.
Qed.

Lemma Value_eq (index : Z) :
  Value index = map (value_char index) (seq 0 kValueSize).
Proof.
  unfold Value. rewrite FillValue_full by apply repeat_length.
  apply firstn_all2. rewrite length_map, length_seq. lia.
Qed.

(** X10. Whatever the index, a generated value is 96 lower-case letters;
    and as long as the 64-bit sums do not wrap, indices that differ by 26
    have the same value. *)
Theorem Value_alphabet_and_period (index : Z) :
  length (Value index) = 96%nat /\
  Forall (fun c => 97 <= byte.unsigned c <= 122) (Value index) /\
  (0 <= index -> index + 26 + 96 <= 2 ^ 64 ->
   Value (index + 26) = Value index).
Proof.
  rewrite !Value_eq. split; [now rewrite length_map, length_seq |].
  split.
  - apply Forall_forall. intros c Hc.
    apply list_elem_of_In, in_map_iff in Hc.
    destruct Hc as (j & <- & _). apply value_char_range.
  - intros Hlo Hhi. apply map_ext_in. intros j Hj.
    apply in_seq in Hj. unfold value_char, kValueSize in *.
    rewrite !wrap64_small by lia.
    replace (index + 26 + Z.of_nat j) with (index + Z.of_nat j + 1 * 26)
      by lia.
    now rewrite Z.mod_add by lia.
Qed.

Lemma Value_alphabet_and_period_witness : Value (7 + 26) = Value 7.
Proof.
  destruct (Value_alphabet_and_period 7) as (_ & _ & H). apply H; lia.
Defined.

Lemma payload_bytes_app (front back : WriteBatch) :
  payload_bytes (front ++ back) = payload_bytes front + payload_bytes back.
Proof.
  induction front as [| e front IH]; [reflexivity |].
  cbn [app payload_bytes fold_right] in *. fold (payload_bytes (front ++ back)).
  fold (payload_bytes front). lia.
Qed.

Lemma payload_bytes_dataset (n : nat) :
  forall first,
    payload_bytes (dataset n first) = Z.of_nat kEntryBytes * Z.of_nat n.
Proof.
  induction n as [| n IH]; intros first; [cbn; lia |].
  cbn [dataset payload_bytes fold_right fst snd].
  fold (payload_bytes (dataset n (first + 1))). rewrite IH.
  rewrite Key_eq, format_032llu_length, Value_eq, length_map, length_seq.
  unfold kEntryBytes, kKeySize, kValueSize. lia.
Qed.

Lemma payload_bytes_batches (entry_count : Z) :
  0 <= entry_count ->
  payload_bytes (concat (batches entry_count))
  = Z.of_nat kEntryBytes * entry_count.
Proof.
  intros Hn. unfold batches.
  rewrite List.concat_chunk, payload_bytes_dataset, Z2Nat.id by exact Hn.
  reflexivity.
Qed.

(** X11. The keys and values of the batches the bulk load writes add up
    to [kRawPayloadBytes], the 4 GiB the amplification is measured
    against: [kEntryCount] entries of 32 + 96 bytes. *)
Theorem load_writes_the_raw_payload :
  payload_bytes (concat (batches kEntryCount)) = kRawPayloadBytes /\
  Forall (fun entry => length (fst entry) = 32%nat /\
                       length (snd entry) = 96%nat)
    (concat (batches kEntryCount)).
Proof.
  split.
  - rewrite payload_bytes_batches by (rewrite kEntryCount_value; lia).
    generalize kEntryCount_value. generalize kEntryCount. intros n ->.
    reflexivity.
  - unfold batches. rewrite List.concat_chunk.
    generalize (Z.to_nat kEntryCount) as n. generalize 0 as first.
    intros first n. revert first.
    induction n as [| n IH]; intros first; [constructor |].
    cbn [dataset]. constructor; [| apply IH].
    cbn [fst snd]. split.
    + rewrite Key_eq. apply format_032llu_length.
    + rewrite Value_eq. now rewrite length_map, length_seq.
Qed.

End DatasetProperties.

(** ** The discipline of handle use *)

Section ProtocolFacts.
Import SpaceAmp Plans.

Lemma protocol_app (front back : Trace) :
  forall state,
    protocol state (front ++ back)
    = match protocol state front with
      | Some state' => protocol state' back
      | None => None
      end.
Proof.
  induction front as [| e front IH]; intros state; [reflexivity |].
  cbn [app protocol].
  destruct e, state; try reflexivity; apply IH.
Qed.

Lemma transits_ret {A : Type} (a : A) state : transits state state (ret a).
Proof. intros w h. exists []. split; [cbn; now rewrite app_nil_r | reflexivity]. Qed.

Lemma transits_throw {A : Type} (what : string) state :
  transits state state (@throw A what).
Proof. intros w h. exists []. split; [cbn; now rewrite app_nil_r | reflexivity]. Qed.

Lemma transits_call {A : Type} (oracle : World -> Trace -> A)
    (ev : A -> Event) state :
  (forall a, protocol state [ev a] = Some state) ->
  transits state state (call oracle ev).
Proof. intros Hev w h. exists [ev (oracle w h)]. split; [reflexivity | apply Hev]. Qed.

Lemma transits_emit (e : Event) state :
  protocol state [e] = Some state -> transits state state (emit e).
Proof. intros He w h. exists [e]. split; [reflexivity | exact He]. Qed.

(** A computation followed by one that keeps the state it reached. *)
Lemma transits_seq {A B : Type} (m : M A) (k : A -> M B) before after :
  transits before after m ->
  (forall a, transits after after (k a)) ->
  transits before after (bind m k).
Proof.
  intros Hm Hk w h. unfold bind.
  destruct (Hm w h) as (e1 & H1 & P1).
  destruct (m w h) as [[a | what] h1]; cbn [snd] in H1; subst h1.
  - destruct (Hk a w (h ++ e1)) as (e2 & H2 & P2).
    exists (e1 ++ e2). rewrite H2, app_assoc. split; [reflexivity |].
    now rewrite protocol_app, P1.
  - exists e1. now split.
Qed.

(** A scope whose body keeps the state: the clean-up runs in every
    outcome. *)
Lemma transits_finally {A : Type} (body : M A) (cleanup : M unit)
    before after :
  transits before before body ->
  transits before after cleanup ->
  transits before after (finally body cleanup).
Proof.
  intros Hb Hc w h. unfold finally.
  destruct (Hb w h) as (e1 & H1 & P1).
  destruct (body w h) as [r h1]; cbn [snd] in H1; subst h1.
  destruct (Hc w (h ++ e1)) as (e2 & H2 & P2).
  exists (e1 ++ e2). cbn [snd]. rewrite H2, app_assoc.
  split; [reflexivity |]. now rewrite protocol_app, P1.
Qed.

Lemma transits_try_catch {A : Type} (body : M A) (handler : string -> M A)
    state :
  transits state state body ->
  (forall what, transits state state (handler what)) ->
  transits state state (try_catch body handler).
Proof.
  intros Hb Hh w h. unfold try_catch.
  destruct (Hb w h) as (e1 & H1 & P1).
  destruct (body w h) as [[a | what] h1]; cbn [snd] in H1; subst h1.
  - exists e1. now split.
  - destruct (Hh what w (h ++ e1)) as (e2 & H2 & P2).
    exists (e1 ++ e2). rewrite H2, app_assoc. split; [reflexivity |].
    now rewrite protocol_app, P1.
Qed.

(** Opening for writing, then a continuation that ends with the handle
    closed. *)
Lemma transits_Open {A : Type} options path (message : Status -> string)
    (rest : M A) :
  transits WriteHandle NoHandle rest ->
  transits NoHandle NoHandle
    (bind (DB_Open options path)
       (fun status =>
          if negb (ok status) then throw (message status) else rest)).
Proof.
  intros Hrest w h. unfold DB_Open. rewrite bind_call.
  set (s := db_Open w h options path).
  destruct (ok s) eqn:Hs; cbn [negb].
  - destruct (Hrest w (h ++ [EvOpen options path s])) as (e & He & Pe).
    exists ([EvOpen options path s] ++ e). rewrite He, app_assoc.
    split; [reflexivity |]. cbn [app protocol]. now rewrite Hs.
  - exists [EvOpen options path s]. split; [reflexivity |].
    cbn [protocol]. now rewrite Hs.
Qed.

Lemma transits_OpenForReadOnly {A : Type} options path
    (message : Status -> string) (rest : M A) :
  transits ReadOnlyHandle NoHandle rest ->
  transits NoHandle NoHandle
    (bind (DB_OpenForReadOnly options path)
       (fun status =>
          if negb (ok status) then throw (message status) else rest)).
Proof.
  intros Hrest w h. unfold DB_OpenForReadOnly. rewrite bind_call.
  set (s := db_OpenForReadOnly w h options path).
  destruct (ok s) eqn:Hs; cbn [negb].
  - destruct (Hrest w (h ++ [EvOpenForReadOnly options path s]))
      as (e & He & Pe).
    exists ([EvOpenForReadOnly options path s] ++ e). rewrite He, app_assoc.
    split; [reflexivity |]. cbn [app protocol]. now rewrite Hs.
  - exists [EvOpenForReadOnly options path s]. split; [reflexivity |].
    cbn [protocol]. now rewrite Hs.
Qed.

End ProtocolFacts.

Ltac keeps_step :=
  first
    [ apply transits_ret
    | apply transits_throw
    | apply transits_emit; reflexivity
    | apply transits_call; intros; reflexivity
    | apply transits_seq; [| intros ]
    | match goal with
      | |- transits _ _ (if ?b then _ else _) => destruct b
      | |- transits _ _ (match ?x with _ => _ end) => destruct x
      end ].

Section ProtocolHarness.
Import SpaceAmp Plans.
Context {R : StdRandom}.

Lemma transits_Close_write : transits WriteHandle NoHandle DB_Close.
Proof. intros w h. exists [EvClose]. split; reflexivity. Qed.

Lemma transits_Close_read : transits ReadOnlyHandle NoHandle DB_Close.
Proof. intros w h. exists [EvClose]. split; reflexivity. Qed.

Lemma keeps_create_directories p :
  transits NoHandle NoHandle (create_directories p).
Proof. unfold create_directories. repeat keeps_step. Qed.

Lemma keeps_exists_ p : transits NoHandle NoHandle (exists_ p).
Proof. unfold exists_. repeat keeps_step. Qed.

Lemma keeps_remove_all p : transits NoHandle NoHandle (remove_all p).
Proof. unfold remove_all. repeat keeps_step. Qed.

Lemma keeps_get_property property :
  transits WriteHandle WriteHandle (get_property property).
Proof.
  unfold get_property, DB_GetAggregatedIntProperty. repeat keeps_step.
Qed.

Lemma keeps_RunOnce_loop (n : nat) :
  forall i write_options key_buffer value_buffer batch,
    transits WriteHandle WriteHandle
      (RunOnce_loop n i write_options key_buffer value_buffer batch).
Proof.
  induction n as [| n IH]; intros; cbn [RunOnce_loop].
  - apply transits_ret.
  - unfold DB_Write. repeat keeps_step; apply IH.
Qed.

Lemma keeps_RunOnce_load (entry_count : Z) :
  transits WriteHandle WriteHandle (RunOnce_load entry_count).
Proof.
  unfold RunOnce_load. cbv zeta.
  apply transits_seq; [apply keeps_RunOnce_loop | intros batch].
  unfold DB_Write, DB_Flush, DB_CompactRange. repeat keeps_step.
Qed.

Lemma keeps_BenchmarkReads_loop (n : nat) :
  forall read_options rng key_buffer,
    transits ReadOnlyHandle ReadOnlyHandle
      (BenchmarkReads_loop n read_options rng key_buffer).
Proof.
  induction n as [| n IH]; intros; cbn [BenchmarkReads_loop].
  - apply transits_ret.
  - destruct (uniform_int_distribution _ _ rng) as [key_index rng'].
    unfold DB_Get. repeat keeps_step; apply IH.
Qed.

Lemma keeps_BenchmarkReads db_path template_options read_ops :
  transits NoHandle NoHandle
    (BenchmarkReads db_path template_options read_ops).
Proof.
  unfold BenchmarkReads. cbv zeta.
  destruct (read_ops =? 0); [apply transits_ret |].
  apply transits_OpenForReadOnly.
  apply transits_finally.
  - unfold now.
    apply transits_seq; [apply transits_call; intros; reflexivity | intros].
    apply transits_seq; [apply keeps_BenchmarkReads_loop | intros].
    apply transits_seq; [apply transits_call; intros; reflexivity | intros].
    apply transits_ret.
  - apply transits_Close_read.
Qed.

Lemma transits_RunOnce_opened cfg block_size db_path options :
  transits WriteHandle NoHandle
    (RunOnce_opened cfg block_size db_path options).
Proof.
  unfold RunOnce_opened. generalize kEntryCount. intros entry_count.
  apply transits_seq.
  - apply transits_finally; [| apply transits_Close_write].
    apply transits_seq; [apply keeps_RunOnce_load | intros _].
    apply transits_seq; [apply keeps_get_property | intros total].
    apply transits_seq; [apply keeps_get_property | intros keys].
    apply transits_seq; [apply keeps_get_property | intros mem].
    apply transits_ret.
  - intros result. apply transits_seq.
    + destruct (read_ops cfg >? 0); [| apply transits_ret].
      apply transits_seq; [apply transits_emit; reflexivity | intros _].
      apply transits_seq; [apply keeps_BenchmarkReads | intros stats].
      apply transits_ret.
    + intros result'. apply transits_seq; [| intros _; apply transits_ret].
      destruct (negb (keep_dbs cfg));
        [apply keeps_remove_all | apply transits_ret].
Qed.

Lemma keeps_RunOnce cfg block_size :
  transits NoHandle NoHandle (RunOnce cfg block_size).
Proof.
  unfold RunOnce. cbv zeta.
  apply transits_seq; [apply keeps_create_directories | intros _].
  apply transits_seq; [apply keeps_exists_ | intros present].
  apply transits_seq.
  { destruct present; [apply keeps_remove_all | apply transits_ret]. }
  intros _. apply transits_Open. apply transits_RunOnce_opened.
Qed.

Lemma keeps_main_loop cfg (remaining : list Z) :
  forall results,
    transits NoHandle NoHandle (main_loop cfg remaining results).
Proof.
  induction remaining as [| b remaining IH]; intros results;
    cbn [main_loop].
  - apply transits_ret.
  - destruct (b <=? 0).
    + unfold cerr.
      apply transits_seq; [apply transits_emit; reflexivity | intros _].
      apply transits_ret.
    + apply transits_seq; [apply keeps_RunOnce | intros r]. apply IH.
Qed.

(** X12. Against any engine and for any configuration, the whole run
    keeps to the discipline of handle use: one handle at a time; writes,
    flushes, compactions and property queries only on the handle of
    [DB::Open]; point reads only on the read-only handle; directories
    created, tested and removed only while no handle is held; and no
    handle left open at the end, whether the run succeeds or fails. *)
Theorem main_handle_discipline (cfg : Config) (w : World) :
  protocol NoHandle (snd (main cfg w [])) = Some NoHandle.
Proof.
  assert (Hmain : transits NoHandle NoHandle (main cfg)).
  { unfold main. apply transits_try_catch.
    - apply transits_seq; [apply keeps_main_loop | intros r].
      destruct r as [code | results]; [apply transits_ret |].
      apply transits_seq; [apply transits_emit; reflexivity | intros _].
      apply transits_ret.
    - intros what. unfold cerr.
      apply transits_seq; [apply transits_emit; reflexivity | intros _].
      apply transits_ret. }
  destruct (Hmain w []) as (events & -> & Hp). exact Hp.
Qed.

End ProtocolHarness.

(** ** The events of one run *)

Section EmitsFacts.
Import SpaceAmp Plans.







(** The outcome of a computation whose events are all in [P]. *)
Lemma emits_run {A : Type} P (m : M A) w h :
  emits P m ->
  exists events out, m w h = (out, h ++ events) /\ Forall P events.
Proof.
  intros Hm. destruct (Hm w h) as (events & H1 & F1).
  destruct (m w h) as [out h1]. cbn [snd] in H1. subst h1.
  now exists events, out.
Qed.





Lemma get_property_unfold property w h :
  get_property property w h
  = match db_GetAggregatedIntProperty w h property with
    | Some v =>
        (Returned v, h ++ [EvGetAggregatedIntProperty property (Some v)])
    | None =>
        (Threw ("Failed to get " ++ property),
         h ++ [EvGetAggregatedIntProperty property None])
    end.
Proof.
  unfold get_property, DB_GetAggregatedIntProperty. rewrite bind_call.
  destruct (db_GetAggregatedIntProperty w h property); reflexivity.
Qed.

Lemma remove_all_unfold p w h :
  remove_all p w h
  = match fs_remove_all w h p with
    | Some what => (Threw what, h ++ [EvRemoveAll p (Some what)])
    | None => (Returned tt, h ++ [EvRemoveAll p None])
    end.
Proof.
  unfold remove_all. rewrite bind_call.
  destruct (fs_remove_all w h p); reflexivity.
Qed.

Lemma create_directories_unfold p w h :
  create_directories p w h
  = match fs_create_directories w h p with
    | Some what => (Threw what, h ++ [EvCreateDirectories p (Some what)])
    | None => (Returned tt, h ++ [EvCreateDirectories p None])
    end.
Proof.
  unfold create_directories. rewrite bind_call.
  destruct (fs_create_directories w h p); reflexivity.
Qed.

Lemma exists__unfold p w h :
  exists_ p w h
  = match fs_exists w h p with
    | Threw what => (Threw what, h ++ [EvExists p (Threw what)])
    | Returned b => (Returned b, h ++ [EvExists p (Returned b)])
    end.
Proof.
  unfold exists_. rewrite bind_call.
  destruct (fs_exists w h p); reflexivity.
Qed.

(** A plan that was carried out to its end: one successful call per
    operation. *)
Lemma carried_out_all_ok (plan : list Op) events :
  carried_out plan events None ->
  Forall2 (fun e op => exists s, e = event_of op s /\ ok s = true)
    events plan.
Proof.
  intros Hc. remember None as r eqn:Hr.
  induction Hc as [| op s rest events r Hok _ IH |]; subst.
  - constructor.
  - constructor; [now exists s | now apply IH].
  - discriminate.
Qed.

End EmitsFacts.

Section ProbeShape.
Import SpaceAmp Plans.
Context {R : StdRandom}.

Lemma BenchmarkReads_returned db_path template_options read_ops w h stats h' :
  read_ops <> 0 ->
  BenchmarkReads db_path template_options read_ops w h
  = (Returned stats, h') ->
  exists s t0 gets t1,
    h' = h ++ [EvOpenForReadOnly (read_only_options template_options)
                 db_path s; EvNow t0]
           ++ gets ++ [EvNow t1; EvClose] /\
    ok s = true /\
    Forall2
      (fun e key =>
         exists st, e = EvGet (mkReadOptions false false) key st /\
                    ok st = true)
      gets (map Key (probe_indices read_ops)) /\
    stats = mkReadStats (throughput read_ops t0 t1).
Proof.
  intros Hops Hrun.
  rewrite (BenchmarkReads_unfold db_path template_options read_ops w h Hops)
    in Hrun.
  cbv zeta in Hrun.
  set (options := read_only_options template_options) in *.
  set (s := db_OpenForReadOnly w h options db_path) in *.
  set (h0 := h ++ [EvOpenForReadOnly options db_path s]) in *.
  set (t0 := steady_clock_now w h0) in *.
  set (keys := map Key (probe_indices read_ops)) in *.
  set (plan := map (get_op (mkReadOptions false false)) keys) in *.
  destruct (ok s) eqn:Hs; [| discriminate].
  destruct (perform_carried plan w (h0 ++ [EvNow t0]))
    as (gets & r & Heq & Hcarried).
  rewrite Heq in Hrun. destruct r as [what |]; cbn [result_of] in Hrun;
    [discriminate |].
  injection Hrun as <- <-.
  exists s, t0, gets, (steady_clock_now w ((h0 ++ [EvNow t0]) ++ gets)).
  split; [subst h0; now rewrite <- !app_assoc |].
  split; [exact Hs |]. split; [| reflexivity].
  apply carried_out_all_ok in Hcarried. subst plan.
  apply Forall2_fmap_r in Hcarried.
  eapply Forall2_impl; [exact Hcarried |].
  intros e key (st & -> & Hst). now exists st.
Qed.

(** C5. For a positive read-op count, the figure [BenchmarkReads] reports
    when it returns is the count divided by a divisor taken from the two
    clock readings of the run, the one before the first read and the one
    after the last: the elapsed time between them when that is positive,
    and the floor of one nanosecond otherwise.  The divisor is never below
    the floor, so whatever the clock says the reported value is positive
    and at most the count times 10^9, hence finite. *)
Theorem BenchmarkReads_throughput_positive_and_bounded
    db_path template_options read_ops w h stats h' :
  0 < read_ops ->
  BenchmarkReads db_path template_options read_ops w h
  = (Returned stats, h') ->
  exists s start_ticks gets end_ticks,
    h' = h ++ [EvOpenForReadOnly (read_only_options template_options)
                 db_path s; EvNow start_ticks]
           ++ gets ++ [EvNow end_ticks; EvClose] /\
    Forall2
      (fun e key =>
         exists st, e = EvGet (mkReadOptions false false) key st /\
                    ok st = true)
      gets (map Key (probe_indices read_ops)) /\
    let seconds := effective_seconds start_ticks end_ticks in
    (ops_per_sec stats == inject_Z read_ops / seconds)%Q /\
    (end_ticks - start_ticks <= 0 -> seconds = (1 # 1000000000)%Q) /\
    (0 < end_ticks - start_ticks ->
     seconds = (end_ticks - start_ticks) # steady_clock_ticks_per_second) /\
    (1 # 1000000000 <= seconds)%Q /\
    (0 < ops_per_sec stats)%Q /\
    (ops_per_sec stats <= inject_Z (read_ops * 10 ^ 9))%Q.
Proof.
  intros Hops Hrun.
  assert (Hnz : read_ops <> 0) by lia.
  destruct (BenchmarkReads_returned _ _ _ _ _ _ _ Hnz Hrun)
    as (s & start_ticks & gets & end_ticks & Hh & _ & Hgets & ->).
  exists s, start_ticks, gets, end_ticks.
  split; [exact Hh |]. split; [exact Hgets |].
  cbn [ops_per_sec].
  exact (throughput_bounds read_ops start_ticks end_ticks Hops).
Qed.

(** X13. With a read-op count of zero [BenchmarkReads] touches nothing and
    reports 0.  When it returns for a non-zero count, what it did is: the
    read-only reopen with the template options but [create_if_missing] and
    [error_if_exists] cleared, one clock reading, one successful [Get] per
    probed key with cache filling and checksum verification off, a second
    clock reading, and the close; the throughput reported is computed from
    these two clock readings. *)
Theorem BenchmarkReads_shape db_path template_options read_ops w h :
  (read_ops = 0 ->
   BenchmarkReads db_path template_options read_ops w h
   = (Returned (mkReadStats 0), h)) /\
  (read_ops <> 0 ->
   forall stats h',
     BenchmarkReads db_path template_options read_ops w h
     = (Returned stats, h') ->
     exists s t0 gets t1,
       h' = h ++ [EvOpenForReadOnly (read_only_options template_options)
                    db_path s; EvNow t0]
              ++ gets ++ [EvNow t1; EvClose] /\
       ok s = true /\
       create_if_missing (read_only_options template_options) = false /\
       error_if_exists (read_only_options template_options) = false /\
       table_factory (read_only_options template_options)
       = table_factory template_options /\
       Forall2
         (fun e key =>
            exists st, e = EvGet (mkReadOptions false false) key st /\
                       ok st = true)
         gets (map Key (probe_indices read_ops)) /\
       ops_per_sec stats = throughput read_ops t0 t1).
Proof.
  split.
  - intros ->. reflexivity.
  - intros Hops stats h' Hrun.
    destruct (BenchmarkReads_returned _ _ _ _ _ _ _ Hops Hrun)
      as (s & t0 & gets & t1 & Hh & Hs & Hgets & ->).
    exists s, t0, gets, t1. repeat split; auto.
Qed.

End ProbeShape.

Section ProbeWitnesses.
Import SpaceAmp Plans.

Lemma BenchmarkReads_throughput_positive_and_bounded_witness :
  exists stats h',
    @BenchmarkReads lcg_random "db" (BuildOptions 4096) 3
      frozen_clock_world []
    = (Returned stats, h') /\
    (0 < ops_per_sec stats)%Q /\
    (ops_per_sec stats <= inject_Z (3 * 10 ^ 9))%Q.
Proof.
  destruct (@BenchmarkReads lcg_random "db" (BuildOptions 4096) 3
              frozen_clock_world [])
    as [[stats | what] h'] eqn:Hrun.
  - exists stats, h'. split; [reflexivity |].
    destruct (@BenchmarkReads_throughput_positive_and_bounded lcg_random
                "db" (BuildOptions 4096) 3 frozen_clock_world [] stats h'
                ltac:(lia) Hrun)
      as (s & start_ticks & gets & end_ticks & _ & _ & _ & _ & _ & _
          & Hpos & Hle).
    split; [exact Hpos | exact Hle].
  - exfalso. vm_compute in Hrun. discriminate.
Defined.

End ProbeWitnesses.

(** ** Whole runs of space_amp *)

Section OutcomeFacts.

Lemma bind_returned {A B : Type} (m : M A) (k : A -> M B) w h b h' :
  bind m k w h = (Returned b, h') ->
  exists a h1, m w h = (Returned a, h1) /\ k a w h1 = (Returned b, h').
Proof.
  unfold bind. destruct (m w h) as [[a | what] h1]; [| discriminate].
  intros Hk. now exists a, h1.
Qed.

Lemma bind_threw {A B : Type} (m : M A) (k : A -> M B) w h what h' :
  bind m k w h = (Threw what, h') ->
  m w h = (Threw what, h') \/
  exists a h1, m w h = (Returned a, h1) /\ k a w h1 = (Threw what, h').
Proof.
  unfold bind. destruct (m w h) as [[a | what0] h1].
  - intros Hk. right. now exists a, h1.
  - intros [= <- <-]. now left.
Qed.

Lemma finally_inv {A : Type} (body : M A) (cleanup : M unit) w h out h' :
  finally body cleanup w h = (out, h') ->
  exists h1, body w h = (out, h1) /\ h' = snd (cleanup w h1).
Proof.
  unfold finally. destruct (body w h) as [r h1].
  intros [= <- <-]. now exists h1.
Qed.

(** [if (!status.ok()) throw ...; rest], by the status. *)
Lemma unless_ok {A : Type} (s : Status) (failed rest : M A) w h :
  (if negb (ok s) then failed else rest) w h
  = if ok s then rest w h else failed w h.
Proof. destruct (ok s); reflexivity. Qed.

End OutcomeFacts.

Section RunShape.
Import SpaceAmp Plans.
Context {R : StdRandom}.

(** [RunOnce] from the open on, when it returns. *)
Lemma RunOnce_opened_returned cfg b db_path options w h result h' :
  RunOnce_opened cfg b db_path options w h = (Returned result, h') ->
  exists load total keys mem probe,
    h' = h ++ load ++ property_queries total keys mem ++ [EvClose]
           ++ probe
           ++ (if keep_dbs cfg then [] else [EvRemoveAll db_path None]) /\
    carried_out (load_plan kEntryCount) load None /\
    block_size result = b /\
    total_sst_bytes result = total /\
    estimated_keys result = keys /\
    table_readers_mem result = mem /\
    amplification result
    = (inject_Z total / inject_Z kRawPayloadBytes)%Q /\
    if read_ops cfg >? 0 then
      exists s t0 gets t1,
        probe
        = EvCout ("[block=" ++ to_string b
                  ++ "] ingest complete, starting read benchmark ("
                  ++ to_string (read_ops cfg) ++ " ops)..." ++ newline)
          :: EvOpenForReadOnly (read_only_options options) db_path s
          :: EvNow t0 :: gets ++ [EvNow t1; EvClose] /\
        ok s = true /\
        Forall2
          (fun e key =>
             exists st, e = EvGet (mkReadOptions false false) key st /\
                        ok st = true)
          gets (map Key (probe_indices (read_ops cfg))) /\
        read_ops_per_sec result = throughput (read_ops cfg) t0 t1
    else probe = [] /\ read_ops_per_sec result = 0%Q.
Proof.
  unfold RunOnce_opened. generalize kEntryCount. intros entry_count Hrun.
  apply bind_returned in Hrun as (r0 & h1 & Hfin & Hrun).
  apply finally_inv in Hfin as (h0 & Hbody & ->).
  apply bind_returned in Hbody as (u & hl & Hload & Hbody).
  rewrite RunOnce_load_perform in Hload.
  destruct (perform_carried (load_plan entry_count) w h)
    as (load & r & Heq & Hcarried).
  rewrite Heq in Hload. destruct r as [what |]; cbn [result_of] in Hload;
    [discriminate |].
  injection Hload as _ <-.
  apply bind_returned in Hbody as (total & h2 & Hq1 & Hbody).
  rewrite get_property_unfold in Hq1.
  destruct (db_GetAggregatedIntProperty w (h ++ load) _) as [v1 |];
    [| discriminate].
  injection Hq1 as <- <-.
  apply bind_returned in Hbody as (keys & h3 & Hq2 & Hbody).
  rewrite get_property_unfold in Hq2.
  destruct (db_GetAggregatedIntProperty w _ _) as [v2 |] in Hq2;
    [| discriminate].
  injection Hq2 as <- <-.
  apply bind_returned in Hbody as (mem & h4 & Hq3 & Hbody).
  rewrite get_property_unfold in Hq3.
  destruct (db_GetAggregatedIntProperty w _ _) as [v3 |] in Hq3;
    [| discriminate].
  injection Hq3 as <- <-.
  unfold ret in Hbody. injection Hbody as <- <-.
  unfold DB_Close, emit in Hrun. cbn [snd] in Hrun.
  apply bind_returned in Hrun as (r1 & h5 & Hprobe & Hrun).
  apply bind_returned in Hrun as (u' & h6 & Hremove & Hret).
  unfold ret in Hret. injection Hret as <- <-.
  assert (Hcleanup :
            h6 = h5 ++ (if keep_dbs cfg then []
                        else [EvRemoveAll db_path None])).
  { destruct (keep_dbs cfg); cbn [negb] in Hremove.
    - unfold ret in Hremove. injection Hremove as _ <-.
      now rewrite app_nil_r.
    - rewrite remove_all_unfold in Hremove.
      destruct (fs_remove_all w h5 db_path); [discriminate |].
      now injection Hremove as _ <-. }
  subst h6.
  destruct (read_ops cfg >? 0) eqn:Hops.
  - apply bind_returned in Hprobe as (u'' & h7 & Hcout & Hprobe).
    unfold cout, emit in Hcout. injection Hcout as _ <-.
    apply bind_returned in Hprobe as (stats & h8 & Hbench & Hret).
    unfold ret in Hret. injection Hret as <- <-.
    assert (Hnz : read_ops cfg <> 0) by lia.
    destruct (BenchmarkReads_returned _ _ _ _ _ _ _ Hnz Hbench)
      as (s & t0 & gets & t1 & -> & Hs & Hgets & ->).
    exists load, v1, v2, v3.
    exists (EvCout ("[block=" ++ to_string b
                    ++ "] ingest complete, starting read benchmark ("
                    ++ to_string (read_ops cfg) ++ " ops)..." ++ newline)
            :: EvOpenForReadOnly (read_only_options options) db_path s
            :: EvNow t0 :: gets ++ [EvNow t1; EvClose]).
    split.
    { unfold property_queries. rewrite <- !app_assoc. cbn [app].
      rewrite <- !app_assoc. cbn [app]. reflexivity. }
    repeat (split; [first [exact Hcarried | reflexivity] |]).
    exists s, t0, gets, t1. repeat split; auto.
  - unfold ret in Hprobe. injection Hprobe as <- <-.
    exists load, v1, v2, v3, []. split.
    { unfold property_queries. rewrite <- !app_assoc. cbn [app].
      reflexivity. }
    repeat (split; [first [exact Hcarried | reflexivity] |]).
    split; reflexivity.
Qed.

End RunShape.

Section RunCases.
Import SpaceAmp Plans.
Context {R : StdRandom}.

(** The three ways [RunOnce] can go up to [DB::Open]: a directory call
    throws, the open fails, or the open succeeds and the rest follows. *)
Lemma RunOnce_cases cfg b w h :
  (exists pre what,
     RunOnce cfg b w h = (Threw what, h ++ pre) /\
     Forall inner_event pre /\
     ((exists h' p, fs_create_directories w h' p <> None) \/
      (exists h' p what', fs_exists w h' p = Threw what') \/
      (exists h' p, fs_remove_all w h' p <> None))) \/
  (exists present s,
     ok s = false /\
     s = db_Open w (h ++ setup_events cfg b present) (BuildOptions b)
           (db_path_of cfg b) /\
     RunOnce cfg b w h
     = (Threw ("Failed to open RocksDB at " ++ db_path_of cfg b ++ ": "
               ++ ToString s),
        h ++ setup_events cfg b present
          ++ [EvOpen (BuildOptions b) (db_path_of cfg b) s])) \/
  (exists present s,
     ok s = true /\
     RunOnce cfg b w h
     = RunOnce_opened cfg b (db_path_of cfg b) (BuildOptions b) w
         (h ++ setup_events cfg b present
            ++ [EvOpen (BuildOptions b) (db_path_of cfg b) s])).
Proof.
  remember (RunOnce cfg b w h) as run eqn:Hrun.
  unfold RunOnce in Hrun. cbv zeta in Hrun.
  change (path_append (db_root cfg) ("block_" ++ to_string b))
    with (db_path_of cfg b) in Hrun.
  unfold setup_events.
  set (db_path := db_path_of cfg b) in *.
  unfold bind at 1 in Hrun. rewrite create_directories_unfold in Hrun.
  destruct (fs_create_directories w h (db_root cfg)) as [what |] eqn:Hcd.
  { left. exists [EvCreateDirectories (db_root cfg) (Some what)], what.
    split; [exact Hrun |]. split; [repeat constructor |].
    left. exists h, (db_root cfg). congruence. }
  unfold bind at 1 in Hrun. rewrite exists__unfold in Hrun.
  destruct (fs_exists w _ db_path) as [present | what] eqn:Hex.
  2:{ left. exists [EvCreateDirectories (db_root cfg) None;
                    EvExists db_path (Threw what)], what.
      split; [now rewrite <- app_assoc in Hrun |].
      split; [repeat constructor |]. right. left. eauto. }
  rewrite <- app_assoc in Hrun. cbn [app] in Hrun.
  unfold bind at 1 in Hrun.
  set (h2 := h ++ [EvCreateDirectories (db_root cfg) None;
                   EvExists db_path (Returned present)]) in *.
  assert (Hsetup :
            (exists what,
               (if present then remove_all db_path else ret tt) w h2
               = (Threw what, h2 ++ [EvRemoveAll db_path (Some what)]) /\
               exists h' p, fs_remove_all w h' p <> None) \/
            (if present then remove_all db_path else ret tt) w h2
            = (Returned tt,
               h2 ++ (if present then [EvRemoveAll db_path None] else []))).
  { destruct present.
    - rewrite remove_all_unfold.
      destruct (fs_remove_all w h2 db_path) as [what |] eqn:Hrm.
      + left. exists what. split; [reflexivity |].
        exists h2, db_path. rewrite Hrm. discriminate.
      + now right.
    - right. unfold ret. now rewrite app_nil_r. }
  destruct Hsetup as [(what & Heq & Hrm) | Heq]; rewrite Heq in Hrun.
  { left.
    exists [EvCreateDirectories (db_root cfg) None;
            EvExists db_path (Returned present);
            EvRemoveAll db_path (Some what)], what.
    split; [subst h2; now rewrite <- app_assoc in Hrun |].
    split; [repeat constructor |]. right. right. exact Hrm. }
  unfold DB_Open in Hrun. rewrite bind_call in Hrun.
  assert (Hh3 :
            h2 ++ (if present then [EvRemoveAll db_path None] else [])
            = h ++ [EvCreateDirectories (db_root cfg) None;
                    EvExists db_path (Returned present)]
                ++ (if present then [EvRemoveAll db_path None] else []))
    by (subst h2; now rewrite <- app_assoc).
  rewrite Hh3 in Hrun.
  set (h3 := h ++ [EvCreateDirectories (db_root cfg) None;
                   EvExists db_path (Returned present)]
               ++ (if present then [EvRemoveAll db_path None] else []))
    in *.
  set (s := db_Open w h3 (BuildOptions b) db_path) in *.
  assert (Hh4 :
            h3 ++ [EvOpen (BuildOptions b) db_path s]
            = h ++ ([EvCreateDirectories (db_root cfg) None;
                     EvExists db_path (Returned present)]
                    ++ (if present then [EvRemoveAll db_path None] else []))
                ++ [EvOpen (BuildOptions b) db_path s])
    by (subst h3; now rewrite <- !app_assoc).
  rewrite Hh4 in Hrun.
  cbv beta in Hrun. rewrite unless_ok in Hrun.
  destruct (ok s) eqn:Hs.
  - right. right. exists present, s. split; [exact Hs | exact Hrun].
  - right. left. exists present, s. split; [exact Hs |].
    split; [reflexivity | exact Hrun].
Qed.

(** X14. When [RunOnce] returns, this is all it did, in this order: create
    the root directory, ask whether the database directory exists and
    remove it if so, open the database with the options of [BuildOptions]
    for the block size, carry out the whole load plan, ask the three
    properties, close, run the read benchmark after its banner when the
    read-op count is positive, and remove the database directory unless
    [keep_dbs] is set.  The result carries the block size, the three
    property answers, the amplification [total_sst_bytes /
    kRawPayloadBytes], and as read throughput the benchmark's figure, or 0
    when the count is not positive. *)
Theorem RunOnce_returned cfg b w h result h' :
  RunOnce cfg b w h = (Returned result, h') ->
  exists present s load total keys mem probe,
    h' = h ++ setup_events cfg b present
           ++ [EvOpen (BuildOptions b) (db_path_of cfg b) s]
           ++ load ++ property_queries total keys mem ++ [EvClose]
           ++ probe
           ++ (if keep_dbs cfg then []
               else [EvRemoveAll (db_path_of cfg b) None]) /\
    ok s = true /\
    carried_out (load_plan kEntryCount) load None /\
    block_size result = b /\
    total_sst_bytes result = total /\
    estimated_keys result = keys /\
    table_readers_mem result = mem /\
    amplification result
    = (inject_Z total / inject_Z kRawPayloadBytes)%Q /\
    if read_ops cfg >? 0 then
      exists s' t0 gets t1,
        probe
        = EvCout ("[block=" ++ to_string b
                  ++ "] ingest complete, starting read benchmark ("
                  ++ to_string (read_ops cfg) ++ " ops)..." ++ newline)
          :: EvOpenForReadOnly (read_only_options (BuildOptions b))
               (db_path_of cfg b) s'
          :: EvNow t0 :: gets ++ [EvNow t1; EvClose] /\
        ok s' = true /\
        Forall2
          (fun e key =>
             exists st, e = EvGet (mkReadOptions false false) key st /\
                        ok st = true)
          gets (map Key (probe_indices (read_ops cfg))) /\
        read_ops_per_sec result = throughput (read_ops cfg) t0 t1
    else probe = [] /\ read_ops_per_sec result = 0%Q.
Proof.
  intros Hrun.
  destruct (RunOnce_cases cfg b w h)
    as [(pre & what & Heq & _) | [(present & s & _ & _ & Heq)
                                 | (present & s & Hs & Heq)]];
    rewrite Heq in Hrun; [discriminate | discriminate |].
  destruct (RunOnce_opened_returned _ _ _ _ _ _ _ _ Hrun)
    as (load & total & keys & mem & probe & -> & Hrest).
  exists present, s, load, total, keys, mem, probe.
  split; [now rewrite <- !app_assoc |]. split; [exact Hs | exact Hrest].
Qed.

End RunCases.

(** ** When the database files are removed *)

Section RemovalFacts.
Import SpaceAmp Plans.









Context {R : StdRandom}.





End RemovalFacts.

(** ** Runs in which nothing fails *)

Section CompletionFacts.
Import SpaceAmp Plans.

Lemma completes_ret {A : Type} w (a : A) : completes w (ret a).
Proof. intros h. now exists a, h. Qed.

Lemma completes_emit w (e : Event) : completes w (emit e).
Proof. intros h. now exists tt, (h ++ [e]). Qed.

Lemma completes_bind {A B : Type} w (m : M A) (k : A -> M B) :
  completes w m -> (forall a, completes w (k a)) -> completes w (bind m k).
Proof.
  intros Hm Hk h. destruct (Hm h) as (a & h1 & Heq).
  unfold bind. rewrite Heq. apply Hk.
Qed.

Lemma completes_finally {A : Type} w (body : M A) (cleanup : M unit) :
  completes w body -> completes w (finally body cleanup).
Proof.
  intros Hbody h. destruct (Hbody h) as (a & h1 & Heq).
  unfold finally. rewrite Heq. eexists _, _. reflexivity.
Qed.

Lemma completes_perform w (plan : list Op) :
  (forall op h, In op plan -> ok (ask op w h) = true) ->
  completes w (perform plan).
Proof.
  intros Hall h. destruct (perform_succeeds plan w Hall h) as (events & Heq & _).
  now exists tt, (h ++ events).
Qed.

Lemma completes_create_directories w p :
  obliging w -> completes w (create_directories p).
Proof.
  intros (Hcd & _) h. rewrite create_directories_unfold, Hcd.
  eexists _, _. reflexivity.
Qed.

Lemma completes_exists_ w p : obliging w -> completes w (exists_ p).
Proof.
  intros (_ & Hex & _) h. rewrite exists__unfold.
  destruct (Hex h p) as (present & ->). eexists _, _. reflexivity.
Qed.

Lemma completes_remove_all w p : obliging w -> completes w (remove_all p).
Proof.
  intros (_ & _ & Hrm & _) h. rewrite remove_all_unfold, Hrm.
  eexists _, _. reflexivity.
Qed.

Lemma completes_get_property w property :
  obliging w -> completes w (get_property property).
Proof.
  intros (_ & _ & _ & _ & _ & _ & _ & _ & Hprop & _) h.
  rewrite get_property_unfold.
  destruct (Hprop h property) as (v & ->). eexists _, _. reflexivity.
Qed.

Lemma completes_RunOnce_load w (entry_count : Z) :
  obliging w -> completes w (RunOnce_load entry_count).
Proof.
  intros (_ & _ & _ & _ & _ & Hwrite & Hflush & Hcompact & _) h.
  rewrite RunOnce_load_perform. apply completes_perform.
  intros op h' Hin. rewrite load_plan_unfold in Hin.
  apply in_app_or in Hin. destruct Hin as [Hin | [<- | [<- | []]]].
  - apply in_map_iff in Hin. destruct Hin as (batch & <- & _).
    apply Hwrite.
  - apply Hflush.
  - apply Hcompact.
Qed.

Context {R : StdRandom}.

Lemma completes_BenchmarkReads w db_path template_options read_ops :
  obliging w ->
  completes w (BenchmarkReads db_path template_options read_ops).
Proof.
  intros (_ & _ & _ & _ & Hreopen & _ & _ & _ & _ & Hget) h.
  destruct (Z.eq_dec read_ops 0) as [-> | Hops].
  - eexists _, _. reflexivity.
  - destruct (BenchmarkReads_spec db_path template_options read_ops w h Hops)
      as (events & out & Heq & _ & _ & _ & _ & _ & Hret).
    destruct Hret as (stats & ->); [apply Hreopen | intros; apply Hget |].
    now exists stats, (h ++ events).
Qed.

Lemma completes_RunOnce_opened w cfg b db_path options :
  obliging w -> completes w (RunOnce_opened cfg b db_path options).
Proof.
  intros Hw. unfold RunOnce_opened. generalize kEntryCount.
  intros entry_count.
  apply completes_bind.
  { apply completes_finally.
    apply completes_bind; [now apply completes_RunOnce_load | intros _].
    apply completes_bind; [now apply completes_get_property | intros total].
    apply completes_bind; [now apply completes_get_property | intros keys].
    apply completes_bind; [now apply completes_get_property | intros mem].
    apply completes_ret. }
  intros result. apply completes_bind.
  { destruct (read_ops cfg >? 0); [| apply completes_ret].
    apply completes_bind; [apply completes_emit | intros _].
    apply completes_bind; [now apply completes_BenchmarkReads | intros stats].
    apply completes_ret. }
  intros result'. apply completes_bind; [| intros _; apply completes_ret].
  destruct (negb (keep_dbs cfg));
    [now apply completes_remove_all | apply completes_ret].
Qed.

Lemma completes_RunOnce w cfg b : obliging w -> completes w (RunOnce cfg b).
Proof.
  intros Hw h.
  destruct (RunOnce_cases cfg b w h)
    as [(pre & what & _ & _ & Hfail) | [(present & s & Hs & -> & _)
                                       | (present & s & _ & ->)]].
  - exfalso.
    destruct Hw as (Hcd & Hex & Hrm & _).
    destruct Hfail as [(h' & p & Hne) | [(h' & p & what' & Heq)
                                        | (h' & p & Hne)]].
    + now apply Hne.
    + destruct (Hex h' p) as (present & Heq'). congruence.
    + now apply Hne.
  - exfalso. destruct Hw as (_ & _ & _ & Hopen & _).
    rewrite Hopen in Hs. discriminate.
  - now apply completes_RunOnce_opened.
Qed.

Lemma RunOnce_result_block_size cfg b w h result h' :
  RunOnce cfg b w h = (Returned result, h') -> block_size result = b.
Proof.
  intros Hrun.
  destruct (RunOnce_cases cfg b w h)
    as [(pre & what & Heq & _) | [(present & s & _ & _ & Heq)
                                 | (present & s & Hs & Heq)]];
    rewrite Heq in Hrun; [discriminate | discriminate |].
  destruct (RunOnce_opened_returned _ _ _ _ _ _ _ _ Hrun)
    as (load & total & keys & mem & probe & _ & _ & Hb & _).
  exact Hb.
Qed.

(** The loop of [main], whatever the world does. *)
Lemma main_loop_outcome cfg (remaining : list Z) :
  forall results w h, exists events out,
    main_loop cfg remaining results w h = (out, h ++ events) /\
    Forall (fun e => ~ is_report e) events /\
    match out with
    | Returned (inr all) =>
        exists new,
          all = results ++ new /\
          map block_size new = remaining /\
          Forall (fun b => 0 < b) remaining /\
          created events = remaining
    | Returned (inl code) =>
        code = EXIT_FAILURE /\
        exists front b,
          events = front ++ [EvCerr (block_size_error b)] /\
          In b remaining /\ b <= 0
    | Threw what => True
    end.
Proof.
  induction remaining as [| b remaining IH]; intros results w h;
    cbn [main_loop].
  - exists [], (Returned (inr results)).
    split; [unfold ret; now rewrite app_nil_r |].
    split; [constructor |].
    exists []. rewrite app_nil_r. repeat split; constructor.
  - destruct (Z.leb_spec b 0) as [Hle | Hgt].
    + exists [EvCerr (block_size_error b)], (Returned (inl EXIT_FAILURE)).
      split; [reflexivity |].
      split; [constructor; [intros [] | constructor] |].
      split; [reflexivity |].
      exists [], b. split; [reflexivity |]. split; [now left | exact Hle].
    + destruct (RunOnce_created cfg b w h)
        as (e1 & out1 & Heq & Hrep1 & Hcreated & _).
      unfold bind. rewrite Heq. destruct out1 as [r | what].
      * assert (Hc1 : created e1 = [b]).
        { destruct Hcreated as [Hc | [_ [what Hout]]];
            [exact Hc | discriminate]. }
        pose proof (RunOnce_result_block_size _ _ _ _ _ _ Heq) as Hb.
        destruct (IH (results ++ [r]) w (h ++ e1))
          as (e2 & out2 & Heq2 & Hrep2 & Hout).
        exists (e1 ++ e2), out2.
        split; [now rewrite Heq2, app_assoc |].
        split; [apply Forall_app; now split |].
        destruct out2 as [[code | all] | what']; [| | exact I].
        -- destruct Hout as (Hcode & front & b' & -> & Hin & Hle).
           split; [exact Hcode |].
           exists (e1 ++ front), b'.
           split; [now rewrite app_assoc |]. split; [now right | exact Hle].
        -- destruct Hout as (new & -> & Hmap & Hpos & Hc2).
           exists (r :: new).
           split; [now rewrite <- app_assoc |].
           split; [cbn [map]; now rewrite Hb, Hmap |].
           split; [now constructor |].
           rewrite created_app, Hc1, Hc2. reflexivity.
      * exists e1, (Threw what). split; [reflexivity |]. now split.
Qed.

(** X16. [main] never lets an exception escape, and it ends in one of two
    ways.  Either it returns EXIT_SUCCESS, and then the report is the last
    thing it did and the only report, with one row per configured block
    size in the configured order, every configured block size was positive
    and had its instance created, in that order.  Or it returns
    EXIT_FAILURE, and then a message on the error stream is the last thing
    it did and no report was printed at all, whatever had completed
    before: the message is either the complaint about a configured
    non-positive block size or "Error: " and the text of the exception. *)
Theorem main_outcome cfg w :
  exists events,
    (exists results,
       main cfg w [] = (Returned EXIT_SUCCESS, events ++ [EvReport results]) /\
       Forall (fun e => ~ is_report e) events /\
       map block_size results = block_sizes cfg /\
       Forall (fun b => 0 < b) (block_sizes cfg) /\
       created events = block_sizes cfg) \/
    (exists text,
       main cfg w [] = (Returned EXIT_FAILURE, events ++ [EvCerr text]) /\
       Forall (fun e => ~ is_report e) events /\
       ((exists b,
           In b (block_sizes cfg) /\ b <= 0 /\
           text = block_size_error b) \/
        (exists what, text = ("Error: " ++ what ++ newline)%string))).
Proof.
  destruct (main_loop_outcome cfg (block_sizes cfg) [] w [])
    as (events & out & Heq & Hrep & Hout).
  unfold main, try_catch, bind. rewrite Heq. cbn [app] in *.
  destruct out as [[code | all] | what].
  - destruct Hout as (-> & front & b & -> & Hin & Hle).
    exists front. right. exists (block_size_error b).
    split; [reflexivity |].
    split; [now apply Forall_app in Hrep as [Hfront _] |].
    left. now exists b.
  - destruct Hout as (new & -> & Hmap & Hpos & Hcreated).
    exists events. left. exists new. cbn [app].
    split; [reflexivity |]. repeat split; assumption.
  - exists events. right. exists ("Error: " ++ what ++ newline)%string.
    split; [reflexivity |]. split; [exact Hrep |].
    right. now exists what.
Qed.

Lemma completes_main_loop w cfg (remaining : list Z) :
  obliging w ->
  Forall (fun b => 0 < b) remaining ->
  forall results h, exists all h',
    main_loop cfg remaining results w h = (Returned (inr all), h').
Proof.
  intros Hw Hpos.
  induction Hpos as [| b remaining Hb _ IH]; intros results h;
    cbn [main_loop].
  - now exists results, h.
  - destruct (Z.leb_spec b 0) as [Hle | _]; [lia |].
    destruct (completes_RunOnce w cfg b Hw h) as (r & h1 & Heq).
    unfold bind. rewrite Heq. apply IH.
Qed.

(** X17. In a world where no call fails, and with every configured block
    size positive, [main] runs to the end: it returns EXIT_SUCCESS. *)
Theorem main_succeeds_when_nothing_fails cfg w :
  obliging w ->
  Forall (fun b => 0 < b) (block_sizes cfg) ->
  fst (main cfg w []) = Returned EXIT_SUCCESS.
Proof.
  intros Hw Hpos.
  destruct (completes_main_loop w cfg (block_sizes cfg) Hw Hpos [] [])
    as (all & h' & Heq).
  unfold main, try_catch, bind. rewrite Heq. reflexivity.
Qed.

End CompletionFacts.

Section RunWitnesses.
Import SpaceAmp Plans.

Lemma ideal_world_obliging : obliging ideal_world.
Proof.
  repeat split; intros; try reflexivity; eexists; reflexivity.
Qed.

Lemma RunOnce_returned_witness :
  exists result h',
    @RunOnce lcg_random config_two_sizes 4096 ideal_world []
    = (Returned result, h') /\
    block_size result = 4096 /\
    amplification result
    = (inject_Z (total_sst_bytes result) / inject_Z kRawPayloadBytes)%Q.
Proof.
  destruct (@completes_RunOnce lcg_random ideal_world config_two_sizes 4096
              ideal_world_obliging [])
    as (result & h' & Hrun).
  exists result, h'. split; [exact Hrun |].
  destruct (@RunOnce_returned lcg_random config_two_sizes 4096 ideal_world
              [] result h' Hrun)
    as (present & s & load & total & keys & mem & probe
        & _ & _ & _ & Hb & Htotal & _ & _ & Hamp & _).
  split; [exact Hb |]. rewrite Htotal. exact Hamp.
Defined.

Lemma main_succeeds_when_nothing_fails_witness :
  fst (@main lcg_random config_two_sizes ideal_world [])
  = Returned EXIT_SUCCESS.
Proof.
  apply (@main_succeeds_when_nothing_fails lcg_random config_two_sizes
           ideal_world).
  - repeat split; intros; try reflexivity; eexists; reflexivity.
  - repeat constructor.
Defined.

End RunWitnesses.

(** * merge_bench.cc *)

(** ** The command line of merge_bench *)

Section MergeBenchArguments.
Import MergeBenchRun.

Lemma merge_bench_loop_app (front rest : list (list byte)) :
  forall cfg,
    ParseArguments_loop (front ++ rest) cfg
    = match ParseArguments_loop front cfg with
      | Parsed cfg' => ParseArguments_loop rest cfg'
      | Exited code out err => Exited code out err
      | Failed e => Failed e
      end.
Proof.
  induction front as [| arg front IH]; intros cfg; [reflexivity |].
  cbn [app ParseArguments_loop].
  repeat match goal with
         | |- context [if ?c then _ else _] => destruct c
         | |- context [match ?x with inl _ => _ | inr _ => _ end] =>
             destruct x
         end; auto.
Qed.

Lemma option_db_root (text : string) rest cfg :
  ParseArguments_loop
    ((list_byte_of_string "--db_root=" ++ list_byte_of_string text) :: rest)
    cfg
  = ParseArguments_loop rest
      (mkConfig text (key_space cfg) (threads cfg) (seconds_per_phase cfg)
         (mix_filter cfg)).
Proof.
  cbn [ParseArguments_loop].
  change (starts_with (list_byte_of_string "--db_root=")
            (list_byte_of_string "--db_root=" ++ list_byte_of_string text))
    with true. cbv iota.
  change (option_value "--db_root="
            (list_byte_of_string "--db_root=" ++ list_byte_of_string text))
    with (list_byte_of_string text).
  now rewrite string_of_list_byte_of_string.
Qed.

Lemma option_keys (value : list byte) rest cfg :
  ParseArguments_loop ((list_byte_of_string "--keys=" ++ value) :: rest) cfg
  = match stoull value with
    | inl e => Failed e
    | inr n =>
        ParseArguments_loop rest
          (mkConfig (db_root cfg) n (threads cfg) (seconds_per_phase cfg)
             (mix_filter cfg))
    end.
Proof. reflexivity. Qed.

Lemma option_threads (value : list byte) rest cfg :
  ParseArguments_loop ((list_byte_of_string "--threads=" ++ value) :: rest)
    cfg
  = match stoi value with
    | inl e => Failed e
    | inr n =>
        ParseArguments_loop rest
          (mkConfig (db_root cfg) (key_space cfg) n (seconds_per_phase cfg)
             (mix_filter cfg))
    end.
Proof. reflexivity. Qed.

Lemma option_seconds (value : list byte) rest cfg :
  ParseArguments_loop ((list_byte_of_string "--seconds=" ++ value) :: rest)
    cfg
  = match stoi value with
    | inl e => Failed e
    | inr n =>
        ParseArguments_loop rest
          (mkConfig (db_root cfg) (key_space cfg) (threads cfg) n
             (mix_filter cfg))
    end.
Proof. reflexivity. Qed.

Lemma option_mix (text : string) rest cfg :
  ParseArguments_loop
    ((list_byte_of_string "--mix=" ++ list_byte_of_string text) :: rest) cfg
  = ParseArguments_loop rest
      (mkConfig (db_root cfg) (key_space cfg) (threads cfg)
         (seconds_per_phase cfg) text).
Proof.
  cbn [ParseArguments_loop].
  change (starts_with (list_byte_of_string "--db_root=")
            (list_byte_of_string "--mix=" ++ list_byte_of_string text))
    with false. cbv iota.
  change (starts_with (list_byte_of_string "--keys=")
            (list_byte_of_string "--mix=" ++ list_byte_of_string text))
    with false. cbv iota.
  change (starts_with (list_byte_of_string "--threads=")
            (list_byte_of_string "--mix=" ++ list_byte_of_string text))
    with false. cbv iota.
  change (starts_with (list_byte_of_string "--seconds=")
            (list_byte_of_string "--mix=" ++ list_byte_of_string text))
    with false. cbv iota.
  change (starts_with (list_byte_of_string "--mix=")
            (list_byte_of_string "--mix=" ++ list_byte_of_string text))
    with true. cbv iota.
  change (option_value "--mix="
            (list_byte_of_string "--mix=" ++ list_byte_of_string text))
    with (list_byte_of_string text).
  now rewrite string_of_list_byte_of_string.
Qed.

(** X18. A command line that spells out all five options decides the
    whole configuration: parsing it gives back the database root, the
    key-space size (any 64-bit value), the thread count and the seconds
    per phase (any [int], zero and negative values included: nothing is
    validated) and the mix filter, whatever accepted options came before
    it. *)
Theorem merge_bench_command_line_roundtrip (front : list (list byte))
    (cfg0 cfg : Config) :
  ParseArguments_loop front default_Config = Parsed cfg0 ->
  0 <= key_space cfg < 2 ^ 64 ->
  - 2 ^ 31 <= threads cfg <= 2 ^ 31 - 1 ->
  - 2 ^ 31 <= seconds_per_phase cfg <= 2 ^ 31 - 1 ->
  ParseArguments (front ++ command_line cfg) = Parsed cfg.
Proof.
  intros Hfront Hkeys Hthreads Hseconds.
  unfold ParseArguments. rewrite merge_bench_loop_app, Hfront.
  unfold command_line.
  rewrite option_db_root, option_keys, (stoull_to_decimal _ Hkeys).
  rewrite option_threads.
  rewrite <- (app_nil_r (to_chars (threads cfg))).
  rewrite (stoi_to_chars _ [] Hthreads I).
  rewrite option_seconds.
  rewrite <- (app_nil_r (to_chars (seconds_per_phase cfg))).
  rewrite (stoi_to_chars _ [] Hseconds I).
  rewrite option_mix. cbn [ParseArguments_loop]. now destruct cfg.
Qed.

Lemma merge_bench_command_line_roundtrip_witness :
  ParseArguments
    ([list_byte_of_string "--keys=5"]
     ++ command_line (mkConfig "/tmp/runs" 0 0 (-1) "50/50"))
  = Parsed (mkConfig "/tmp/runs" 0 0 (-1) "50/50").
Proof.
  apply (merge_bench_command_line_roundtrip
           [list_byte_of_string "--keys=5"]
           (mkConfig "./merge_bench_runs" 5 8 15 "")
           (mkConfig "/tmp/runs" 0 0 (-1) "50/50")).
  - reflexivity.
  - cbn. lia.
  - cbn. lia.
  - cbn. lia.
Defined.

(** X19. [--keys=] takes a negative number: [std::stoull] negates in the
    unsigned type, so [--keys=-m] sets the key space to [2^64 - m] (and to
    0 for [m = 0]); the other fields are untouched. *)
Theorem merge_bench_negative_keys_wrap (front : list (list byte))
    (cfg0 : Config) (m : Z) :
  ParseArguments_loop front default_Config = Parsed cfg0 ->
  0 <= m < 2 ^ 64 ->
  ParseArguments
    (front ++ [list_byte_of_string "--keys=-" ++ to_decimal m])
  = Parsed (mkConfig (db_root cfg0) ((2 ^ 64 - m) mod 2 ^ 64) (threads cfg0)
              (seconds_per_phase cfg0) (mix_filter cfg0)).
Proof.
  intros Hfront Hm.
  unfold ParseArguments. rewrite merge_bench_loop_app, Hfront.
  change (list_byte_of_string "--keys=-" ++ to_decimal m)
    with (list_byte_of_string "--keys=" ++ Byte.x2d :: to_decimal m).
  rewrite option_keys. unfold stoull.
  rewrite <- (app_nil_r (to_decimal m)).
  rewrite (parse_signed_digits_negative m [] Hm I).
  destruct (Z.leb_spec m (2 ^ 64 - 1)) as [_ | Hbig]; [| lia].
  cbn [ParseArguments_loop]. unfold wrap64.
  replace ((2 ^ 64 - m) mod 2 ^ 64) with (- m mod 2 ^ 64); [reflexivity |].
  rewrite <- (Z.mod_add (- m) 1 (2 ^ 64)) by lia. f_equal. lia.
Qed.

Lemma merge_bench_negative_keys_wrap_witness :
  ParseArguments ([] ++ [list_byte_of_string "--keys=-" ++ to_decimal 1])
  = Parsed (mkConfig "./merge_bench_runs" ((2 ^ 64 - 1) mod 2 ^ 64) 8 15 "").
Proof.
  apply (merge_bench_negative_keys_wrap [] default_Config 1).
  - reflexivity.
  - lia.
Defined.

End MergeBenchArguments.

(** ** Runs of merge_bench *)

Section RunFacts.
Context {W E : Type}.

Lemma run_bind_call {A B : Type} (oracle : W -> list E -> A) (ev : A -> E)
    (k : A -> Run W E B) w h :
  run_bind (run_call oracle ev) k w h
  = k (oracle w h) w (h ++ [ev (oracle w h)]).
Proof. reflexivity. Qed.

Lemma run_bind_returned {A B : Type} (m : Run W E A) (k : A -> Run W E B)
    w h b h' :
  run_bind m k w h = (Returned b, h') ->
  exists a h1, m w h = (Returned a, h1) /\ k a w h1 = (Returned b, h').
Proof.
  unfold run_bind. destruct (m w h) as [[a | what] h1]; [| discriminate].
  intros Hk. now exists a, h1.
Qed.

Lemma run_unless_ok {A : Type} (s : Status) (failed rest : Run W E A) w h :
  (if negb (ok s) then failed else rest) w h
  = if ok s then rest w h else failed w h.
Proof. destruct (ok s); reflexivity. Qed.

End RunFacts.

Section CountFacts.
Context {E : Type}.

Lemma count_app (kind : E -> bool) (front back : list E) :
  count kind (front ++ back) = count kind front + count kind back.
Proof.
  induction front as [| e front IH]; [reflexivity |].
  cbn [app count]. rewrite IH. lia.
Qed.

Lemma count_nonneg (kind : E -> bool) (events : list E) :
  0 <= count kind events.
Proof.
  induction events as [| e events IH]; cbn [count]; [lia |].
  destruct (kind e); lia.
Qed.

End CountFacts.

Section PrepopulateProperties.
Import MergeBench MergeBenchRun.

Lemma Prepopulate_loop_spec (n : nat) :
  forall i w h, exists statuses out,
    Prepopulate_loop n i (mkWriteOptions true) w h
    = (out, h ++ prepopulation i statuses) /\
    (length statuses <= n)%nat /\
    match out with
    | Returned _ =>
        length statuses = n /\ Forall (fun s => ok s = true) statuses
    | Threw what =>
        exists before s,
          statuses = before ++ [s] /\
          Forall (fun s => ok s = true) before /\
          ok s = false /\
          what = ("Failed to prepopulate key "
                  ++ to_string (i + Z.of_nat (length before)) ++ ": "
                  ++ ToString s)%string
    end.
Proof.
  induction n as [| n IH]; intros i w h; cbn [Prepopulate_loop].
  - exists [], (Returned tt). cbn [prepopulation]. rewrite app_nil_r.
    repeat split; constructor.
  - unfold DB_Put. rewrite run_bind_call.
    set (s := Put_answer w h (mkWriteOptions true) (to_decimal i) (Encode 0)).
    rewrite run_unless_ok. destruct (ok s) eqn:Hs.
    + destruct (IH (i + 1)
                  w (h ++ [DidPut (mkWriteOptions true) (to_decimal i)
                             (Encode 0) s]))
        as (statuses & out & Heq & Hlen & Hout).
      exists (s :: statuses), out. split.
      { rewrite Heq, <- app_assoc. reflexivity. }
      split; [cbn [length]; lia |].
      destruct out as [u | what].
      * destruct Hout as [Hl Hall]. split; [cbn [length]; lia |].
        now constructor.
      * destruct Hout as (before & s' & -> & Hall & Hfail & ->).
        exists (s :: before), s'. split; [reflexivity |].
        split; [now constructor |]. split; [exact Hfail |].
        cbn [length]. do 3 f_equal. lia.
    + exists [s], (Threw ("Failed to prepopulate key " ++ to_string i ++ ": "
                          ++ ToString s)).
      split; [reflexivity |]. split; [cbn [length]; lia |].
      exists [], s. split; [reflexivity |]. split; [constructor |].
      split; [exact Hs |]. cbn [length]. now rewrite Z.add_0_r.
Qed.

(** X20. Against any engine, [Prepopulate] puts the keys in index order,
    key [i] as the decimal text of [i] with the encoded counter 0 as value
    and the write-ahead log disabled, each only after all the earlier ones
    succeeded.  It returns exactly when all [key_space] puts succeeded;
    otherwise it stops at the first failed put and throws "Failed to
    prepopulate key ", the index of that key, ": " and the status text.
    The value stored decodes to 0. *)
Theorem Prepopulate_puts_every_key (key_space : Z) (w : World)
    (h : list Event) :
  exists statuses out,
    Prepopulate key_space w h = (out, h ++ prepopulation 0 statuses) /\
    (length statuses <= Z.to_nat key_space)%nat /\
    match out with
    | Returned _ =>
        length statuses = Z.to_nat key_space /\
        Forall (fun s => ok s = true) statuses
    | Threw what =>
        exists before s,
          statuses = before ++ [s] /\
          Forall (fun s => ok s = true) before /\
          ok s = false /\
          what = ("Failed to prepopulate key "
                  ++ to_string (Z.of_nat (length before)) ++ ": "
                  ++ ToString s)%string
    end /\
    Decode (Encode 0) = 0.
Proof.
  destruct (Prepopulate_loop_spec (Z.to_nat key_space) 0 w h)
    as (statuses & out & Heq & Hlen & Hout).
  exists statuses, out. split; [exact Heq |]. split; [exact Hlen |].
  split; [exact Hout | reflexivity].
Qed.

End PrepopulateProperties.

(** ** The worker *)

Section WorkerFacts.
Import MergeBench MergeBenchRun.
Context {R : StdRandom} {D : StdRandomReal R}.

Lemma incr_in_range (x : Z) : 0 <= incr x < 2 ^ 64.
Proof. unfold incr, wrap64. apply Z.mod_pos_bound. lia. Qed.

(** The loop of the worker, from any counters: what the counters have
    become when it returns, and what it wrote. *)
Lemma RunWorker_loop_tally (fuel : nat) use_merge read_ratio key_space
    end_time :
  forall rng stats w h stats' h',
    counters_in_range stats ->
    RunWorker_loop fuel use_merge read_ratio key_space end_time
      (mkReadOptions false true) (mkWriteOptions false) rng stats w h
    = (Returned (Some stats'), h') ->
    exists events,
      h' = h ++ events /\
      reads stats'
      = wrap64 (reads stats + (count is_get events - count is_put events)) /\
      writes stats'
      = wrap64 (writes stats
                + (count is_put events + count is_merge events)) /\
      merge_operands stats'
      = wrap64 (merge_operands stats + count is_merge events) /\
      (if use_merge then count is_put events = 0
       else count is_merge events = 0) /\
      forall previous, increments previous events.
Proof.
  induction fuel as [| fuel IH];
    intros rng stats w h stats' h' (Hr & Hw & Hm) Hrun;
    cbn [RunWorker_loop] in Hrun.
  { cbv [run_ret] in Hrun. discriminate. }
  unfold now in Hrun. rewrite run_bind_call in Hrun.
  set (t := now_answer w h) in *.
  destruct (t <? end_time).
  2:{ cbv [run_ret] in Hrun. injection Hrun as <- <-.
      exists [DidNow t]. cbn [count is_get is_put is_merge increments].
      rewrite !Z.add_0_r, !wrap64_small by lia.
      repeat split; auto. now destruct use_merge. }
  destruct (uniform_real_distribution 0 1 rng) as [pick rng1].
  destruct (uniform_int_distribution 0 (wrap64 (key_space - 1)) rng1)
    as [key_index rng2].
  set (key := to_decimal key_index) in *.
  destruct (negb (Qle_bool read_ratio pick)).
  - (* a read *)
    unfold DB_Get in Hrun. rewrite run_bind_call in Hrun.
    cbv beta zeta in Hrun.
    set (answer := Get_answer w (h ++ [DidNow t]) (mkReadOptions false true)
                     key) in *.
    destruct (negb (ok (fst answer)) && negb (IsNotFound (fst answer)));
      [cbv [run_throw] in Hrun; discriminate |].
    apply IH in Hrun as (events & -> & Hr' & Hw' & Hm' & Hmode & Hinc).
    2:{ split; [apply incr_in_range | now split]. }
    exists (DidNow t :: DidGet (mkReadOptions false true) key answer
            :: events).
    split; [now rewrite <- !app_assoc |].
    cbn [count is_get is_put is_merge reads writes merge_operands] in *.
    unfold incr in Hr'. rewrite wrap64_add_l in Hr'.
    split; [rewrite Hr'; f_equal; lia |].
    split; [rewrite Hw'; f_equal; lia |].
    split; [rewrite Hm'; f_equal; lia |].
    split; [destruct use_merge; lia |].
    intros previous. cbn [increments]. repeat split; auto.
  - destruct use_merge.
    + (* a merge *)
      unfold DB_Merge in Hrun. rewrite run_bind_call in Hrun.
      cbv beta in Hrun. rewrite run_unless_ok in Hrun.
      set (s := Merge_answer w (h ++ [DidNow t]) (mkWriteOptions false) key
                  (Encode 1)) in *.
      destruct (ok s); [| cbv [run_throw] in Hrun; discriminate].
      apply IH in Hrun as (events & -> & Hr' & Hw' & Hm' & Hmode & Hinc).
      2:{ split; [exact Hr |]. split; apply incr_in_range. }
      exists (DidNow t :: DidMerge (mkWriteOptions false) key (Encode 1) s
              :: events).
      split; [now rewrite <- !app_assoc |].
      cbn [count is_get is_put is_merge reads writes merge_operands] in *.
      unfold incr in Hw', Hm'. rewrite wrap64_add_l in Hw', Hm'.
      split; [rewrite Hr'; f_equal; lia |].
      split; [rewrite Hw'; f_equal; lia |].
      split; [rewrite Hm'; f_equal; lia |].
      split; [lia |].
      intros previous. cbn [increments]. repeat split; auto.
    + (* a read-modify-write *)
      unfold DB_Get in Hrun. rewrite run_bind_call in Hrun.
      cbv beta zeta in Hrun.
      destruct (Get_answer w (h ++ [DidNow t]) (mkReadOptions false true) key)
        as [get_status found].
      cbn [fst snd] in Hrun.
      destruct (negb (ok get_status) && negb (IsNotFound get_status));
        [cbv [run_throw] in Hrun; discriminate |].
      unfold DB_Put in Hrun. rewrite run_bind_call in Hrun.
      cbv beta in Hrun. rewrite run_unless_ok in Hrun.
      set (value := Encode (wrap64 ((if ok get_status then Decode found
                                     else 0) + 1))) in *.
      set (s := Put_answer w _ (mkWriteOptions false) key value) in *.
      destruct (ok s); [| cbv [run_throw] in Hrun; discriminate].
      apply IH in Hrun as (events & -> & Hr' & Hw' & Hm' & Hmode & Hinc).
      2:{ split; [exact Hr |]. split; [apply incr_in_range | exact Hm]. }
      exists (DidNow t
              :: DidGet (mkReadOptions false true) key (get_status, found)
              :: DidPut (mkWriteOptions false) key value s :: events).
      split; [now rewrite <- !app_assoc |].
      cbn [count is_get is_put is_merge reads writes merge_operands] in *.
      unfold incr in Hw'. rewrite wrap64_add_l in Hw'.
      split; [rewrite Hr'; f_equal; lia |].
      split; [rewrite Hw'; f_equal; lia |].
      split; [rewrite Hm'; f_equal; lia |].
      split; [lia |].
      intros previous. cbn [increments]. repeat split; auto.
Qed.

Lemma RunWorker_tally (fuel : nat) use_merge read_ratio key_space end_time
    w h stats h' :
  RunWorker fuel use_merge read_ratio key_space end_time w h
  = (Returned (Some stats), h') ->
  exists seed events,
    h' = h ++ DidRandomDevice seed :: events /\
    reads stats = wrap64 (count is_get events - count is_put events) /\
    writes stats = wrap64 (count is_put events + count is_merge events) /\
    merge_operands stats = wrap64 (count is_merge events) /\
    (if use_merge then count is_put events = 0
     else count is_merge events = 0) /\
    increments None (DidRandomDevice seed :: events).
Proof.
  unfold RunWorker, random_device. cbv zeta. rewrite run_bind_call.
  intros Hrun.
  apply RunWorker_loop_tally in Hrun
      as (events & -> & Hr & Hw & Hm & Hmode & Hinc).
  2:{ unfold counters_in_range. cbn [reads writes merge_operands]. lia. }
  exists (random_device_answer w h), events.
  split; [now rewrite <- app_assoc |].
  cbn [reads writes merge_operands] in *. rewrite !Z.add_0_l in *.
  repeat split; auto.
Qed.

(** X21. The counters a worker returns agree with what it did to the
    engine.  In merge mode it never puts: it counts one write and one
    merge operand per [Merge] and one read per [Get], so the merge operand
    count equals the write count.  In read-modify-write mode it never
    merges: it counts one write per [Put], each [Put] having consumed one
    [Get], the remaining [Get]s being the reads, and no merge operand.
    The counters are 64-bit and wrap. *)
Theorem RunWorker_counters (fuel : nat) use_merge read_ratio key_space
    end_time w h stats h' :
  RunWorker fuel use_merge read_ratio key_space end_time w h
  = (Returned (Some stats), h') ->
  exists events,
    h' = h ++ events /\
    if use_merge then
      count is_put events = 0 /\
      reads stats = wrap64 (count is_get events) /\
      writes stats = wrap64 (count is_merge events) /\
      merge_operands stats = writes stats
    else
      count is_merge events = 0 /\
      reads stats = wrap64 (count is_get events - count is_put events) /\
      writes stats = wrap64 (count is_put events) /\
      merge_operands stats = 0.
Proof.
  intros Hrun.
  destruct (RunWorker_tally _ _ _ _ _ _ _ _ _ Hrun)
    as (seed & events & -> & Hr & Hw & Hm & Hmode & _).
  exists (DidRandomDevice seed :: events). split; [reflexivity |].
  cbn [count is_get is_put is_merge]. rewrite !Z.add_0_l.
  destruct use_merge; rewrite Hmode in *.
  - rewrite Z.sub_0_r in Hr. rewrite Z.add_0_l in Hw.
    repeat split; auto. congruence.
  - rewrite Z.add_0_r in Hw. repeat split; auto.
Qed.


(** The loop ends once the clock has passed the deadline. *)
Lemma RunWorker_loop_returns (N : nat) use_merge read_ratio key_space
    end_time read_options write_options w :
  (forall h, (N <= length h)%nat -> end_time <= now_answer w h) ->
  (forall h o key,
     ok (fst (Get_answer w h o key)) = true \/
     IsNotFound (fst (Get_answer w h o key)) = true) ->
  (forall h o key value, ok (Put_answer w h o key value) = true) ->
  (forall h o key operand, ok (Merge_answer w h o key operand) = true) ->
  forall fuel rng stats h,
    (0 < fuel)%nat ->
    (N < length h + fuel)%nat ->
    exists stats' h',
      RunWorker_loop fuel use_merge read_ratio key_space end_time
        read_options write_options rng stats w h
      = (Returned (Some stats'), h').
Proof.
  intros Hclock Hget Hput Hmerge.
  induction fuel as [| fuel IH]; intros rng stats h Hpos Hfuel; [lia |].
  cbn [RunWorker_loop]. unfold now. rewrite run_bind_call.
  destruct (Z.ltb_spec (now_answer w h) end_time) as [Hearly | Hlate].
  2:{ eexists _, _. reflexivity. }
  assert (Hh : (length h < N)%nat).
  { destruct (Nat.lt_ge_cases (length h) N) as [Hlt | Hge]; [exact Hlt |].
    specialize (Hclock h Hge). lia. }
  destruct (uniform_real_distribution 0 1 rng) as [pick rng1].
  destruct (uniform_int_distribution 0 (wrap64 (key_space - 1)) rng1)
    as [key_index rng2].
  destruct (negb (Qle_bool read_ratio pick)).
  - unfold DB_Get. rewrite run_bind_call. cbv beta zeta.
    replace (negb (ok (fst (Get_answer w (h ++ [DidNow (now_answer w h)])
                              read_options (to_decimal key_index))))
             && negb (IsNotFound
                        (fst (Get_answer w (h ++ [DidNow (now_answer w h)])
                                read_options (to_decimal key_index)))))
      with false
      by (destruct (Hget (h ++ [DidNow (now_answer w h)]) read_options
                      (to_decimal key_index)) as [-> | ->];
          [reflexivity | now rewrite andb_false_r]).
    apply IH; [lia |]. rewrite !length_app. cbn [length]. lia.
  - destruct use_merge.
    + unfold DB_Merge. rewrite run_bind_call. cbv beta.
      rewrite run_unless_ok, Hmerge.
      apply IH; [lia |]. rewrite !length_app. cbn [length]. lia.
    + unfold DB_Get. rewrite run_bind_call. cbv beta zeta.
      replace (negb (ok (fst (Get_answer w (h ++ [DidNow (now_answer w h)])
                                read_options (to_decimal key_index))))
               && negb (IsNotFound
                          (fst (Get_answer w
                                  (h ++ [DidNow (now_answer w h)])
                                  read_options (to_decimal key_index)))))
        with false
        by (destruct (Hget (h ++ [DidNow (now_answer w h)]) read_options
                        (to_decimal key_index)) as [-> | ->];
            [reflexivity | now rewrite andb_false_r]).
      unfold DB_Put. rewrite run_bind_call. cbv beta.
      rewrite run_unless_ok, Hput.
      apply IH; [lia |]. rewrite !length_app. cbn [length]. lia.
Qed.

(** X23. A worker returns once the clock has passed its deadline: if the
    clock reads at least [end_time] from the [N]-th call of the run on,
    every [Get] answers OK or not-found and every [Put] and [Merge] answers
    OK, then more than [N] clock readings are never needed.  Keys that are
    not found stop nothing. *)
Theorem RunWorker_returns_after_deadline (N fuel : nat) use_merge read_ratio
    key_space end_time w h :
  (forall h', (N <= length h')%nat -> end_time <= now_answer w h') ->
  (forall h' o key,
     ok (fst (Get_answer w h' o key)) = true \/
     IsNotFound (fst (Get_answer w h' o key)) = true) ->
  (forall h' o key value, ok (Put_answer w h' o key value) = true) ->
  (forall h' o key operand, ok (Merge_answer w h' o key operand) = true) ->
  (N < fuel)%nat ->
  exists stats h',
    RunWorker fuel use_merge read_ratio key_space end_time w h
    = (Returned (Some stats), h').
Proof.
  intros Hclock Hget Hput Hmerge Hfuel.
  unfold RunWorker, random_device. cbv zeta. rewrite run_bind_call.
  apply (RunWorker_loop_returns N); auto; lia.
Qed.

End WorkerFacts.

Section WorkerWitnesses.
Import MergeBench MergeBenchRun.

Lemma RunWorker_counters_witness :
  exists stats h',
    @RunWorker lcg_random lcg_real 4 true (1 # 2) 10 4 counting_world []
    = (Returned (Some stats), h') /\
    merge_operands stats = writes stats.
Proof.
  destruct (@RunWorker lcg_random lcg_real 4 true (1 # 2) 10 4 counting_world
              [])
    as [[[stats |] | what] h'] eqn:Hrun.
  - exists stats, h'. split; [reflexivity |].
    destruct (@RunWorker_counters lcg_random lcg_real 4 true (1 # 2) 10 4
                counting_world [] stats h' Hrun)
      as (events & _ & _ & _ & _ & Hm).
    exact Hm.
  - exfalso. vm_compute in Hrun. discriminate.
  - exfalso. vm_compute in Hrun. discriminate.
Defined.


Lemma RunWorker_returns_after_deadline_witness :
  exists stats h',
    @RunWorker lcg_random lcg_real 8 false (1 # 2) 10 7 counting_world []
    = (Returned (Some stats), h').
Proof.
  apply (@RunWorker_returns_after_deadline lcg_random lcg_real 7 8 false
           (1 # 2) 10 7 counting_world []).
  - intros h' Hlen. cbn [now_answer counting_world]. lia.
  - intros. left. reflexivity.
  - reflexivity.
  - reflexivity.
  - lia.
Defined.

End WorkerWitnesses.

(** ** One benchmark, and the driver *)

Section BenchmarkProperties.
Import MergeBench MergeBenchRun.

Variable RunPhase : Config -> bool -> list Workload -> M (list Metrics).

Lemma merge_bench_create_directories_returned p w h u h' :
  create_directories p w h = (Returned u, h') ->
  h' = h ++ [DidCreateDirectories p None].
Proof.
  unfold create_directories. rewrite run_bind_call.
  destruct (create_directories_answer w h p); [discriminate |].
  now intros [= _ <-].
Qed.

Lemma merge_bench_remove_all_returned p w h u h' :
  remove_all p w h = (Returned u, h') -> h' = h ++ [DidRemoveAll p None].
Proof.
  unfold remove_all. rewrite run_bind_call.
  destruct (remove_all_answer w h p); [discriminate |].
  now intros [= _ <-].
Qed.

Lemma merge_bench_exists_returned p w h present h' :
  exists_ p w h = (Returned present, h') ->
  h' = h ++ [DidExists p (Returned present)].
Proof.
  unfold exists_. rewrite run_bind_call.
  destruct (exists_answer w h p) as [b | what]; [| discriminate].
  now intros [= <- <-].
Qed.

Lemma Prepopulate_returned key_space w h u h' :
  Prepopulate key_space w h = (Returned u, h') ->
  exists statuses,
    h' = h ++ prepopulation 0 statuses /\
    length statuses = Z.to_nat key_space /\
    Forall (fun s => ok s = true) statuses.
Proof.
  intros Hrun. unfold Prepopulate in Hrun. cbv zeta in Hrun.
  destruct (Prepopulate_loop_spec (Z.to_nat key_space) 0 w h)
    as (statuses & out & Heq & _ & Hout).
  rewrite Heq in Hrun. injection Hrun as -> <-.
  exists statuses. split; [reflexivity | exact Hout].
Qed.

(** X24. When [RunBenchmark] returns, this is all it did, in this order:
    ask whether the database directory exists and remove it if so, create
    the root directory, open the database, prepopulate every key of the
    key space, run the phases on what the prepopulation left, print the
    results under the title of the mode, close the database and remove
    its directory.  The directory is "merge" or "rmw" under the root. *)
Theorem RunBenchmark_returned cfg use_merge workloads w h u h' :
  RunBenchmark RunPhase cfg use_merge workloads w h = (Returned u, h') ->
  exists present s statuses metrics h_phase,
    let db_path :=
      SpaceAmp.path_append (db_root cfg)
        (if use_merge then "merge" else "rmw") in
    ok s = true /\
    length statuses = Z.to_nat (key_space cfg) /\
    Forall (fun s => ok s = true) statuses /\
    RunPhase cfg use_merge workloads w
      (h ++ [DidExists db_path (Returned present)]
         ++ (if present then [DidRemoveAll db_path None] else [])
         ++ [DidCreateDirectories (db_root cfg) None;
             DidOpen use_merge db_path s]
         ++ prepopulation 0 statuses)
    = (Returned metrics, h_phase) /\
    h' = h_phase
         ++ [DidPrintResults
               (if use_merge then "Merge" else "Read-Modify-Write")
               metrics workloads;
             DidClose;
             DidRemoveAll db_path None].
Proof.
  unfold RunBenchmark. cbv zeta.
  set (db_path := SpaceAmp.path_append (db_root cfg)
                    (if use_merge then "merge" else "rmw")).
  intros Hrun.
  apply run_bind_returned in Hrun as (present & h1 & Hexists & Hrun).
  apply merge_bench_exists_returned in Hexists. subst h1.
  apply run_bind_returned in Hrun as (u1 & h2 & Hstale & Hrun).
  assert (Hh2 : h2 = (h ++ [DidExists db_path (Returned present)])
                     ++ (if present then [DidRemoveAll db_path None]
                         else [])).
  { destruct present.
    - now apply merge_bench_remove_all_returned in Hstale.
    - cbv [run_ret] in Hstale. injection Hstale as _ <-.
      now rewrite app_nil_r. }
  subst h2. clear Hstale.
  apply run_bind_returned in Hrun as (u2 & h3 & Hcreate & Hrun).
  apply merge_bench_create_directories_returned in Hcreate. subst h3.
  unfold DB_Open in Hrun. rewrite run_bind_call in Hrun.
  cbv beta in Hrun. rewrite run_unless_ok in Hrun.
  set (s := Open_answer w _ use_merge db_path) in *.
  destruct (ok s) eqn:Hs; [| cbv [run_throw] in Hrun; discriminate].
  apply run_bind_returned in Hrun as (u3 & h4 & Hbody & Hremove).
  apply merge_bench_remove_all_returned in Hremove. subst h'.
  unfold run_finally in Hbody.
  match type of Hbody with
  | (let (_, _) := ?body in _) = _ => destruct body as [out h5] eqn:Hrun
  end.
  cbv [DB_Close run_emit snd] in Hbody. injection Hbody as -> <-.
  apply run_bind_returned in Hrun as (u4 & h6 & Hprepopulate & Hrun).
  apply Prepopulate_returned in Hprepopulate
      as (statuses & -> & Hlen & Hall).
  apply run_bind_returned in Hrun as (metrics & h_phase & Hphase & Hprint).
  cbv [run_emit] in Hprint. injection Hprint as _ <-.
  exists present, s, statuses, metrics, h_phase. cbv zeta. fold db_path.
  split; [exact Hs |]. split; [exact Hlen |]. split; [exact Hall |].
  split.
  - rewrite <- Hphase. f_equal. rewrite <- !app_assoc. reflexivity.
  - rewrite <- !app_assoc. reflexivity.
Qed.

Lemma SelectWorkloads_unknown (filter : string) :
  filter <> ""%string ->
  ~ In filter (map name kWorkloads) ->
  SelectWorkloads filter = Threw ("Unknown workload mix filter: " ++ filter).
Proof.
  intros Hne Hnot. unfold SelectWorkloads.
  destruct (String.eqb_spec filter "") as [-> | _]; [now elim Hne |].
  cbn [kWorkloads fold_left name].
  destruct (String.eqb_spec "10/90" filter) as [<- | _];
    [elim Hnot; simpl; auto |].
  destruct (String.eqb_spec "50/50" filter) as [<- | _];
    [elim Hnot; simpl; auto |].
  destruct (String.eqb_spec "90/10" filter) as [<- | _];
    [elim Hnot; simpl; auto |].
  reflexivity.
Qed.

(** X25. A mix filter that names no workload of the catalogue is refused
    before anything is touched: [main] writes "Error: Unknown workload mix
    filter: " and the filter to the error stream and returns EXIT_FAILURE,
    and that is all it does; no directory is looked at, created or
    removed, and no database is opened. *)
Theorem merge_bench_rejects_unknown_mix_first cfg w :
  mix_filter cfg <> ""%string ->
  ~ In (mix_filter cfg) (map name kWorkloads) ->
  main RunPhase cfg w []
  = (Returned SpaceAmp.EXIT_FAILURE,
     [DidCerr ("Error: Unknown workload mix filter: " ++ mix_filter cfg
               ++ newline)]).
Proof.
  intros Hne Hnot. unfold main, run_try_catch, run_bind.
  rewrite (SelectWorkloads_unknown _ Hne Hnot).
  cbv [run_throw run_emit run_ret]. cbn [app]. reflexivity.
Qed.

End BenchmarkProperties.

Section BenchmarkWitnesses.
Import MergeBench MergeBenchRun.

Lemma RunBenchmark_returned_witness :
  exists h',
    RunBenchmark (fun _ _ _ => run_ret [])
      (mkConfig "runs" 2 1 1 "") true kWorkloads counting_world []
    = (Returned tt, h') /\
    last h' = Some (DidRemoveAll "runs/merge" None).
Proof.
  destruct (RunBenchmark (fun _ _ _ => run_ret [])
              (mkConfig "runs" 2 1 1 "") true kWorkloads counting_world [])
    as [[[] | what] h'] eqn:Hrun.
  - exists h'. split; [reflexivity |].
    destruct (RunBenchmark_returned _ _ _ _ _ _ _ _ Hrun)
      as (present & s & statuses & metrics & h_phase & _ & _ & _ & _ & ->).
    rewrite last_app. reflexivity.
  - exfalso. vm_compute in Hrun. discriminate.
Defined.

Lemma merge_bench_rejects_unknown_mix_first_witness :
  main (fun _ _ _ => run_ret []) (mkConfig "runs" 2 1 1 "20/80")
    counting_world []
  = (Returned SpaceAmp.EXIT_FAILURE,
     [DidCerr ("Error: Unknown workload mix filter: " ++ "20/80"
               ++ newline)]).
Proof.
  apply (merge_bench_rejects_unknown_mix_first (fun _ _ _ => run_ret [])
           (mkConfig "runs" 2 1 1 "20/80") counting_world).
  - discriminate.
  - cbn. intros [H | [H | [H | []]]]; discriminate.
Defined.

End BenchmarkWitnesses.
